(** * rocksolid storefront theme: facet filters, pagination, cart drawer

    A shallow embedding of the asynchronous render-and-rebind code of
    [assets/main.js] (class [FacetFilters]), of the custom pagination element
    (class [CustomPagination]) and of [assets/cart-drawer.js] (class
    [CartDrawer]), together with the properties the specification states
    about them.

    JavaScript [async] methods are cut at their [await]s: the synchronous
    stretch before the first [await] and the stretch after each one are
    functions on an explicit component state, and the event loop is a step
    function over a list of events (method calls, promise settlements). *)

From Stdlib Require Import List String Ascii Bool Arith ZArith Lia.
From Stdlib Require Import DecimalString DecimalNat DecimalZ.
Import ListNotations.
Local Open Scope string_scope.
Local Open Scope nat_scope.

(** ** JavaScript values and completions *)

(** The few JavaScript values that reach the modelled code as data. *)
Inductive JsVal : Type :=
| JUndefined
| JNull
| JStr (s : string).

(** [String(v)], the conversion a [USVString] argument undergoes. *)
Definition js_to_string (v : JsVal) : string :=
  match v with
  | JUndefined => "undefined"
  | JNull => "null"
  | JStr s => s
  end.

(** [a === b] where [a] is a string. *)
Definition str_strict_eq (a : string) (b : JsVal) : bool :=
  match b with
  | JStr s => String.eqb a s
  | _ => false
  end.

(** Truthiness of a string: only the empty string is falsy. *)
Definition truthy (s : string) : bool := negb (String.eqb s "").

(** What can be thrown. *)
Inductive Err : Type :=
| TypeError (what : string)
| Error (msg : string)
| AbortError (reason : string)
| NetworkError
| SyntaxError.

(** How a method call, or the promise of an [async] method, ends. *)
Inductive Completion (A : Type) : Type :=
| Normal (a : A)
| Throw (e : Err).
Arguments Normal {A} a.
Arguments Throw {A} e.

(** ** Synchronous stretches of a method: state and exceptions *)

(** A computation over a component state [S] that ends normally with a
    value or throws, and leaves a state either way: what it wrote before
    throwing stays written. *)
Definition M (S A : Type) : Type := S -> Completion A * S.

Definition ret {S A} (a : A) : M S A := fun s => (Normal a, s).

Definition bind {S A B} (m : M S A) (k : A -> M S B) : M S B :=
  fun s =>
    match m s with
    | (Normal a, s') => k a s'
    | (Throw e, s') => (Throw e, s')
    end.

Definition throw {S A} (e : Err) : M S A := fun s => (Throw e, s).

Definition get {S} : M S S := fun s => (Normal s, s).

Definition modify {S} (f : S -> S) : M S unit := fun s => (Normal tt, f s).

(** Dereferences a possibly null value. *)
Definition deref {S A} (what : string) (o : option A) : M S A :=
  match o with
  | Some a => ret a
  | None => throw (TypeError what)
  end.

(** A computation leaves a view of the state alone. *)
Definition preserves {S A X} (view : S -> X) (m : M S A) : Prop :=
  forall s, view (snd (m s)) = view s.

Declare Scope js_scope.
Delimit Scope js_scope with js.
Notation "x <- m ;; k" := (bind m (fun x => k))
  (at level 61, m at next level, right associativity) : js_scope.
Notation "m ;; k" := (bind m (fun _ => k))
  (at level 61, right associativity) : js_scope.

(** ** URLSearchParams *)

Module URLSearchParams.

(** The list of name-value tuples of a [URLSearchParams] object. *)
Definition t : Type := list (string * string).

(** [get(name)]: the value of the first tuple whose name is [name], else
    [null]. *)
Fixpoint get (name : string) (p : t) : option string :=
  match p with
  | [] => None
  | (k, v) :: q => if String.eqb k name then Some v else get name q
  end.

(** [delete(name)]: removes all tuples whose name is [name]. *)
Definition delete (name : string) (p : t) : t :=
  filter (fun kv => negb (String.eqb (fst kv) name)) p.

(** [set(name, value)]: if there are tuples whose name is [name], sets the
    value of the first such tuple and removes the others; otherwise appends
    a new tuple. *)
Fixpoint set (name value : string) (p : t) : t :=
  match p with
  | [] => [(name, value)]
  | (k, v) :: q =>
      if String.eqb k name then (k, value) :: delete name q
      else (k, v) :: set name value q
  end.

(** Bytes the application/x-www-form-urlencoded serializer leaves alone:
    ASCII alphanumerics and [*], [-], [.], [_]. *)
Definition unreserved (c : ascii) : bool :=
  let n := nat_of_ascii c in
  ((48 <=? n) && (n <=? 57)) || ((65 <=? n) && (n <=? 90))
  || ((97 <=? n) && (n <=? 122))
  || (n =? 42) || (n =? 45) || (n =? 46) || (n =? 95).

Definition hex_digit (n : nat) : ascii :=
  ascii_of_nat (if n <? 10 then 48 + n else 55 + n).

(** One byte of a name or value, serialized. *)
Definition encode_byte (c : ascii) : string :=
  if unreserved c then String c EmptyString
  else if (nat_of_ascii c =? 32) then "+"
  else String "%"%char
         (String (hex_digit (nat_of_ascii c / 16))
            (String (hex_digit (nat_of_ascii c mod 16)) EmptyString)).

Fixpoint encode (s : string) : string :=
  match s with
  | EmptyString => EmptyString
  | String c r => encode_byte c ++ encode r
  end.

(** [toString()]: the tuples as [name=value], joined by [&]. *)
Fixpoint toString (p : t) : string :=
  match p with
  | [] => ""
  | [(k, v)] => encode k ++ "=" ++ encode v
  | (k, v) :: q => encode k ++ "=" ++ encode v ++ "&" ++ toString q
  end.

(** The other direction, as the application/x-www-form-urlencoded parser
    (of the server, or of [new URLSearchParams(string)]) goes through a
    query string, before it percent-decodes: the string is split on [&],
    empty sequences are skipped, and each sequence is cut at its first [=]
    into a name and a value (the value is empty when there is no [=]). *)
Fixpoint split_on (sep : ascii) (s : string) : list string :=
  match s with
  | EmptyString => [EmptyString]
  | String c r =>
      if Ascii.eqb c sep then EmptyString :: split_on sep r
      else match split_on sep r with
           | h :: t => String c h :: t
           | [] => [String c EmptyString]
           end
  end.

Fixpoint cut (sep : ascii) (s : string) : string * string :=
  match s with
  | EmptyString => (EmptyString, EmptyString)
  | String c r =>
      if Ascii.eqb c sep then (EmptyString, r)
      else (String c (fst (cut sep r)), snd (cut sep r))
  end.

Definition sequences (q : string) : list (string * string) :=
  map (cut "=") (filter (fun seq => negb (String.eqb seq "")) (split_on "&" q)).

(** The byte [c] does not occur in [s]. *)
Fixpoint lacks (c : ascii) (s : string) : bool :=
  match s with
  | EmptyString => true
  | String d r => negb (Ascii.eqb d c) && lacks c r
  end.

End URLSearchParams.

(** ** FacetFilters.handleFilterChange: form serialization *)

Module FilterChange.

(** A [.js-drawer-sort-by] radio input of the mobile facets form. *)
Record SortOption : Type := mkSortOption {
  opt_value : string;
  opt_checked : bool
}.

(** The event handed to [handleFilterChange]: the tag name of its target
    and its [detail] ([None] when [evt.detail] is null or undefined; otherwise the value
    of its [selectedValue] property). *)
Record Event : Type := mkEvent {
  target_tagName : string;
  detail : option JsVal
}.

(** Lines 2036-2041: when the event comes from the desktop [custom-select],
    every mobile option is checked iff its value is the selected one, and the
    current sort order becomes the selected value.  The assignment sits inside
    the [forEach] callback: with no mobile option, nothing is read from the
    event and the sort order stays what the form gave. *)
Definition syncSortBy (opts : list SortOption) (evt : Event)
    (currentSortBy : JsVal) : Completion (list SortOption * JsVal) :=
  if String.eqb (target_tagName evt) "CUSTOM-SELECT" then
    match opts with
    | [] => Normal (opts, currentSortBy)
    | _ :: _ =>
        match detail evt with
        | None => Throw (TypeError "evt.detail is undefined")
        | Some sel =>
            Normal (map (fun o => mkSortOption (opt_value o)
                                    (str_strict_eq (opt_value o) sel)) opts,
                    sel)
        end
    end
  else Normal (opts, currentSortBy).

(** Lines 2047-2050: the names of the tuples whose value is falsy, in
    order, with repetitions. *)
Definition emptyParams (p : URLSearchParams.t) : list string :=
  map fst (filter (fun kv => negb (truthy (snd kv))) p).

(** Lines 2052-2055: deletes each collected name. *)
Definition removeParams (names : list string) (p : URLSearchParams.t)
    : URLSearchParams.t :=
  fold_left (fun q k => URLSearchParams.delete k q) names p.

(** Lines 2028-2055: the parameters [handleFilterChange] ends up with, and
    the mobile sort options after it. [formData] is the entry list of
    [new FormData(this.form)]. *)
Definition filterParams (sortingEnabled : bool)
    (formData : list (string * string)) (opts : list SortOption)
    (evt : Event) : Completion (URLSearchParams.t * list SortOption) :=
  let searchParams : URLSearchParams.t := formData in
  if sortingEnabled then
    let currentSortBy :=
      match URLSearchParams.get "sort_by" searchParams with
      | Some v => JStr v
      | None => JNull
      end in
    match syncSortBy opts evt currentSortBy with
    | Throw e => Throw e
    | Normal (opts', sortBy) =>
        let searchParams :=
          URLSearchParams.set "sort_by" (js_to_string sortBy) searchParams in
        Normal (removeParams (emptyParams searchParams) searchParams, opts')
    end
  else
    Normal (removeParams (emptyParams searchParams) searchParams, opts).

(** Line 2057: the string passed to [applyFilters]. *)
Definition handleFilterChange (sortingEnabled : bool)
    (formData : list (string * string)) (opts : list SortOption)
    (evt : Event) : Completion (string * list SortOption) :=
  match filterParams sortingEnabled formData opts evt with
  | Throw e => Throw e
  | Normal (p, opts') => Normal (URLSearchParams.toString p, opts')
  end.

End FilterChange.

(** ** The DOM, as far as the components look at it *)

Module Dom.

(** An element carries the identity of its node object ([uid]: what a
    JavaScript reference to it denotes), its tag name, its [id], the tokens
    of its [class] attribute and its [open] attribute.  Everything the
    modelled code never inspects is left out. *)
#[warnings="-register-all"]
Inductive node : Type :=
| Text (s : string)
| Elem (uid : nat) (tag id : string) (classes : list string) (open : bool)
       (kids : list node).

(** The children of an element or of a document fragment; for an element
    this is what [innerHTML] reads and writes. *)
Definition forest : Type := list node.

Definition uid_of (n : node) : option nat :=
  match n with Text _ => None | Elem u _ _ _ _ _ => Some u end.

Definition has_uid (u : nat) (n : node) : bool :=
  match n with Text _ => false | Elem v _ _ _ _ _ => v =? u end.

Definition tag_of (n : node) : string :=
  match n with Text _ => "" | Elem _ t _ _ _ _ => t end.

Definition id_of (n : node) : string :=
  match n with Text _ => "" | Elem _ _ i _ _ _ => i end.

Definition classes_of (n : node) : list string :=
  match n with Text _ => [] | Elem _ _ _ c _ _ => c end.

Definition is_open (n : node) : bool :=
  match n with Text _ => false | Elem _ _ _ _ o _ => o end.

Definition kids_of (n : node) : forest :=
  match n with Text _ => [] | Elem _ _ _ _ _ ks => ks end.

(** [Array.prototype.includes] on strings, [classList.contains]. *)
Definition includes (x : string) (l : list string) : bool :=
  existsb (String.eqb x) l.

Definition has_class (c : string) (n : node) : bool :=
  includes c (classes_of n).

Definition has_tag (t : string) (n : node) : bool := String.eqb (tag_of n) t.

Definition has_id (i : string) (n : node) : bool := String.eqb (id_of n) i.

(** [classList.add] and [classList.remove]. *)
Definition add_class (c : string) (l : list string) : list string :=
  if includes c l then l else (l ++ [c])%list.

Definition remove_class (c : string) (l : list string) : list string :=
  filter (fun x => negb (String.eqb x c)) l.

(** The elements of a subtree in document order, each with its ancestors
    inside the searched tree, nearest first. *)
Fixpoint nodes_under (anc : list node) (n : node) : list (list node * node) :=
  match n with
  | Text _ => []
  | Elem _ _ _ _ _ ks => (anc, n) :: flat_map (nodes_under (n :: anc)) ks
  end.

Definition nodes_in (f : forest) : list (list node * node) :=
  flat_map (nodes_under []) f.

(** [querySelectorAll] and [querySelector] with a selector given as a
    predicate on an element and its ancestors. *)
Definition querySelectorAll (sel : list node -> node -> bool) (f : forest)
    : list node :=
  map snd (filter (fun an => sel (fst an) (snd an)) (nodes_in f)).

Definition querySelector (sel : list node -> node -> bool) (f : forest)
    : option node :=
  option_map snd (find (fun an => sel (fst an) (snd an)) (nodes_in f)).

(** Selectors used by the components. *)
Definition by_class (c : string) : list node -> node -> bool :=
  fun _ n => has_class c n.

Definition by_tag (t : string) : list node -> node -> bool :=
  fun _ n => has_tag t n.

(** [details-disclosure > details]. *)
Definition dd_details : list node -> node -> bool :=
  fun anc n =>
    has_tag "details" n &&
    match anc with
    | p :: _ => has_tag "details-disclosure" p
    | [] => false
    end.

(** [#facets details-disclosure > details]. *)
Definition facets_dd_details : list node -> node -> bool :=
  fun anc n =>
    has_tag "details" n &&
    match anc with
    | p :: up => has_tag "details-disclosure" p && existsb (has_id "facets") up
    | [] => false
    end.

(** [getElementById]: the first element in document order with that id;
    the empty string never matches. *)
Definition getElementById (i : string) (f : forest) : option node :=
  if String.eqb i "" then None
  else querySelector (fun _ n => has_id i n) f.

(** The node a reference denotes, if it is still in the tree. *)
Definition lookup (u : nat) (f : forest) : option node :=
  querySelector (fun _ n => has_uid u n) f.

(** [closest(sel)] from the node referred to by [u]: the node itself or its
    nearest ancestor matching. *)
Definition closest (p : node -> bool) (u : nat) (f : forest) : option node :=
  match find (fun an => has_uid u (snd an)) (nodes_in f) with
  | Some (anc, n) => find p (n :: anc)
  | None => None
  end.

(** Writes through a reference: the element [u] gets its attributes
    rewritten by [g], wherever it is in the tree. *)
Fixpoint update (u : nat) (g : list string * bool -> list string * bool)
    (n : node) : node :=
  match n with
  | Text s => Text s
  | Elem v t i c o ks =>
      let (c', o') := if v =? u then g (c, o) else (c, o) in
      Elem v t i c' o' (map (update u g) ks)
  end.

Definition update_in (u : nat) (g : list string * bool -> list string * bool)
    (f : forest) : forest :=
  map (update u g) f.

(** [el.classList.remove(c)]. *)
Definition classList_remove (c : string) (u : nat) (f : forest) : forest :=
  update_in u (fun co => (remove_class c (fst co), snd co)) f.

(** [el.setAttribute('class', cls)]. *)
Definition set_class_attr (cls : list string) (u : nat) (f : forest) : forest :=
  update_in u (fun co => (cls, snd co)) f.

(** [el.open = v].  The property is reflected in the markup by [details]
    and [dialog] elements only; on any other element the assignment creates
    a plain property that [innerHTML] does not show. *)
Definition reflects_open (n : node) : bool :=
  has_tag "details" n || has_tag "dialog" n.

Definition set_open (target : node) (v : bool) (f : forest) : forest :=
  match uid_of target with
  | Some u =>
      if reflects_open target then update_in u (fun co => (fst co, v)) f
      else f
  | None => f
  end.

(** [el.remove()]: the element [u] leaves the tree with its subtree. *)
Fixpoint prune (u : nat) (n : node) : node :=
  match n with
  | Text s => Text s
  | Elem v t i c o ks =>
      Elem v t i c o (filter (fun k => negb (has_uid u k)) (map (prune u) ks))
  end.

Definition remove (u : nat) (f : forest) : forest :=
  filter (fun k => negb (has_uid u k)) (map (prune u) f).

(** [textContent]. *)
Fixpoint textContent (n : node) : string :=
  match n with
  | Text s => s
  | Elem _ _ _ _ _ ks => fold_right (fun k acc => textContent k ++ acc) "" ks
  end.

(** *** Writes, as data

    The components change a fetched fragment through three kinds of writes
    only.  Each applies uniformly to every node of a tree, which is what the
    proofs use. *)
Inductive write : Type :=
| SetOpen (u : nat) (v : bool)    (* el.open = v, on a details element *)
| RemoveClass (c : string) (u : nat)  (* el.classList.remove(c) *)
| Remove (u : nat).               (* el.remove() *)

Definition write_node (w : write) (n : node) : node :=
  match w with
  | SetOpen u v => update u (fun co => (fst co, v)) n
  | RemoveClass c u => update u (fun co => (remove_class c (fst co), snd co)) n
  | Remove u => prune u n
  end.

Definition write_forest (w : write) (f : forest) : forest :=
  match w with
  | SetOpen u v => update_in u (fun co => (fst co, v)) f
  | RemoveClass c u => classList_remove c u f
  | Remove u => remove u f
  end.

Definition writes_node (ws : list write) (n : node) : node :=
  fold_left (fun n w => write_node w n) ws n.

Definition writes_forest (ws : list write) (f : forest) : forest :=
  fold_left (fun f w => write_forest w f) ws f.

(** An element with its ancestors, after a write. *)
Definition write_entry (w : write) (an : list node * node)
    : list node * node :=
  (map (write_node w) (fst an), write_node w (snd an)).

Definition writes_entry (ws : list write) (an : list node * node)
    : list node * node :=
  (map (writes_node ws) (fst an), writes_node ws (snd an)).

(** Whether the writes leave the class [c] on every element. *)
Definition keeps_class (c : string) (ws : list write) : bool :=
  forallb (fun w => match w with
                    | RemoveClass c' _ => negb (String.eqb c c')
                    | _ => true
                    end) ws.

(** Whether the writes leave the [open] attribute of every element. *)
Definition keeps_open (ws : list write) : bool :=
  forallb (fun w => match w with SetOpen _ _ => false | _ => true end) ws.

(** Whether the writes remove nothing. *)
Definition keeps_all (ws : list write) : bool :=
  forallb (fun w => match w with Remove _ => false | _ => true end) ws.

(** Whether an element stays in the tree under a write. *)
Definition survives (w : write) (an : list node * node) : bool :=
  match w with
  | Remove u => forallb (fun x => negb (has_uid u x)) (snd an :: fst an)
  | _ => true
  end.

(** The element [u], wherever it is in the tree, is open. *)
Definition open_at (u : option nat) (f : forest) : Prop :=
  forall e, In e (nodes_in f) -> uid_of (snd e) = u -> is_open (snd e) = true.

(** The element [u] is not in the tree. *)
Definition absent (u : option nat) (f : forest) : Prop :=
  forall e, In e (nodes_in f) -> uid_of (snd e) <> u.

(** Nothing below the element [u] has the class [js-hidden]. *)
Definition shown_below (u : option nat) (f : forest) : Prop :=
  forall e y, In e (nodes_in f) -> In y (fst e) -> uid_of y = u ->
              has_class "js-hidden" (snd e) = false.

(** The element [uT] is what the id [g] finds in the tree; it is open and
    below the element [uF], which is the tree's [#facets]; neither it nor
    any of its ancestors has the class [filter__more]. *)
Definition stands (uT uF : option nat) (g : string) (f : forest) : Prop :=
  (exists pre Fm up m,
      In (pre ++ Fm :: up, m)%list (nodes_in f) /\
      uid_of m = uT /\ id_of m = g /\ is_open m = true /\
      uid_of Fm = uF /\
      forallb (fun x => negb (has_class "filter__more" x))
        (m :: pre ++ Fm :: up)%list = true /\
      getElementById g f = Some m) /\
  (exists F, getElementById "facets" f = Some F /\ uid_of F = uF).

(** The identities of the elements of a tree, in document order. *)
Definition uids (f : forest) : list (option nat) :=
  map (fun an => uid_of (snd an)) (nodes_in f).

End Dom.

(** ** FacetFilters (assets/main.js, lines 1947-2249) *)

Module FacetFilters.
Import Dom.

(** The [.js-close-drawer-mob] button of the drawer.  [applyFilters] writes
    its label after it has replaced the form's content, so the button lives
    outside the form. *)
Record CloseBtn : Type := mkCloseBtn {
  cb_ariaDisabled : option string;
  cb_classes : list string;
  cb_innerText : string
}.

(** The document's [custom-pagination] element, as [applyFilters] uses it:
    its [data-pause-infinite-scroll] attribute, whether it has a [reload]
    method (the element is upgraded), and how often that was called. *)
Record Pagination : Type := mkPagination {
  pauseInfiniteScroll : option string;
  has_reload : bool;
  reloads : nat
}.

(** One [history.pushState] call: the [searchParams] of its state object
    and its URL. *)
Record HistoryEntry : Type := mkHistoryEntry {
  h_searchParams : string;
  h_url : string
}.

(** Where a suspended [applyFilters] call waits. *)
Inductive Stage : Type :=
| AwaitFetch   (* line 2147: await fetch(...) *)
| AwaitText.   (* line 2154: await response.text() *)

(** A suspended [applyFilters] call: the abort controller it created, the
    URL it fetches, and its arguments. *)
Record Invocation : Type := mkInvocation {
  inv_ctrl : nat;
  inv_url : string;
  inv_params : string;
  inv_updateUrl : bool;
  inv_stage : Stage
}.

(** The component, the parts of the page it reads and writes, the browser
    history and the console. *)
Record State : Type := mkState {
  pathname : string;                  (* window.location.pathname *)
  filteringEnabled : bool;
  sortingEnabled : bool;
  desktopSortBy : bool;               (* .products-toolbar__sort exists *)
  filterSectionId : option string;    (* this.form.dataset.filterSectionId *)
  form : forest;                      (* content of #facets *)
  results_classes : list string;      (* class list of #filter-results *)
  results : forest;                   (* content of #filter-results *)
  expanded : list string;             (* this.expanded *)
  currentResultsClass : list string;  (* this.currentResultsClass *)
  closeBtn : option CloseBtn;
  customPagination : option Pagination;
  applyFiltersFetchAbortController : option nat;
  next_ctrl : nat;                    (* controllers created so far *)
  aborted : list nat;                 (* controllers whose signal is aborted *)
  pending : list Invocation;          (* suspended applyFilters calls *)
  history : list HistoryEntry;        (* pushState calls, oldest first *)
  warnings : list Err;                (* console.warn calls, oldest first *)
  dispatched : list string            (* events dispatched on document *)
}.

Definition set_form (x : forest) (s : State) : State :=
  mkState (pathname s) (filteringEnabled s) (sortingEnabled s)
    (desktopSortBy s) (filterSectionId s) x (results_classes s) (results s)
    (expanded s) (currentResultsClass s) (closeBtn s) (customPagination s)
    (applyFiltersFetchAbortController s) (next_ctrl s) (aborted s)
    (pending s) (history s) (warnings s) (dispatched s).

Definition set_results_classes (x : list string) (s : State) : State :=
  mkState (pathname s) (filteringEnabled s) (sortingEnabled s)
    (desktopSortBy s) (filterSectionId s) (form s) x (results s)
    (expanded s) (currentResultsClass s) (closeBtn s) (customPagination s)
    (applyFiltersFetchAbortController s) (next_ctrl s) (aborted s)
    (pending s) (history s) (warnings s) (dispatched s).

Definition set_results (x : forest) (s : State) : State :=
  mkState (pathname s) (filteringEnabled s) (sortingEnabled s)
    (desktopSortBy s) (filterSectionId s) (form s) (results_classes s) x
    (expanded s) (currentResultsClass s) (closeBtn s) (customPagination s)
    (applyFiltersFetchAbortController s) (next_ctrl s) (aborted s)
    (pending s) (history s) (warnings s) (dispatched s).

Definition set_expanded (x : list string) (s : State) : State :=
  mkState (pathname s) (filteringEnabled s) (sortingEnabled s)
    (desktopSortBy s) (filterSectionId s) (form s) (results_classes s)
    (results s) x (currentResultsClass s) (closeBtn s) (customPagination s)
    (applyFiltersFetchAbortController s) (next_ctrl s) (aborted s)
    (pending s) (history s) (warnings s) (dispatched s).

Definition set_currentResultsClass (x : list string) (s : State) : State :=
  mkState (pathname s) (filteringEnabled s) (sortingEnabled s)
    (desktopSortBy s) (filterSectionId s) (form s) (results_classes s)
    (results s) (expanded s) x (closeBtn s) (customPagination s)
    (applyFiltersFetchAbortController s) (next_ctrl s) (aborted s)
    (pending s) (history s) (warnings s) (dispatched s).

Definition set_closeBtn (x : option CloseBtn) (s : State) : State :=
  mkState (pathname s) (filteringEnabled s) (sortingEnabled s)
    (desktopSortBy s) (filterSectionId s) (form s) (results_classes s)
    (results s) (expanded s) (currentResultsClass s) x (customPagination s)
    (applyFiltersFetchAbortController s) (next_ctrl s) (aborted s)
    (pending s) (history s) (warnings s) (dispatched s).

Definition set_customPagination (x : option Pagination) (s : State) : State :=
  mkState (pathname s) (filteringEnabled s) (sortingEnabled s)
    (desktopSortBy s) (filterSectionId s) (form s) (results_classes s)
    (results s) (expanded s) (currentResultsClass s) (closeBtn s) x
    (applyFiltersFetchAbortController s) (next_ctrl s) (aborted s)
    (pending s) (history s) (warnings s) (dispatched s).

Definition set_controller (x : option nat) (n : nat) (s : State) : State :=
  mkState (pathname s) (filteringEnabled s) (sortingEnabled s)
    (desktopSortBy s) (filterSectionId s) (form s) (results_classes s)
    (results s) (expanded s) (currentResultsClass s) (closeBtn s)
    (customPagination s) x n (aborted s)
    (pending s) (history s) (warnings s) (dispatched s).

Definition set_aborted (x : list nat) (s : State) : State :=
  mkState (pathname s) (filteringEnabled s) (sortingEnabled s)
    (desktopSortBy s) (filterSectionId s) (form s) (results_classes s)
    (results s) (expanded s) (currentResultsClass s) (closeBtn s)
    (customPagination s) (applyFiltersFetchAbortController s) (next_ctrl s) x
    (pending s) (history s) (warnings s) (dispatched s).

Definition set_pending (x : list Invocation) (s : State) : State :=
  mkState (pathname s) (filteringEnabled s) (sortingEnabled s)
    (desktopSortBy s) (filterSectionId s) (form s) (results_classes s)
    (results s) (expanded s) (currentResultsClass s) (closeBtn s)
    (customPagination s) (applyFiltersFetchAbortController s) (next_ctrl s)
    (aborted s) x (history s) (warnings s) (dispatched s).

Definition set_history (x : list HistoryEntry) (s : State) : State :=
  mkState (pathname s) (filteringEnabled s) (sortingEnabled s)
    (desktopSortBy s) (filterSectionId s) (form s) (results_classes s)
    (results s) (expanded s) (currentResultsClass s) (closeBtn s)
    (customPagination s) (applyFiltersFetchAbortController s) (next_ctrl s)
    (aborted s) (pending s) x (warnings s) (dispatched s).

Definition set_warnings (x : list Err) (s : State) : State :=
  mkState (pathname s) (filteringEnabled s) (sortingEnabled s)
    (desktopSortBy s) (filterSectionId s) (form s) (results_classes s)
    (results s) (expanded s) (currentResultsClass s) (closeBtn s)
    (customPagination s) (applyFiltersFetchAbortController s) (next_ctrl s)
    (aborted s) (pending s) (history s) x (dispatched s).

Definition set_dispatched (x : list string) (s : State) : State :=
  mkState (pathname s) (filteringEnabled s) (sortingEnabled s)
    (desktopSortBy s) (filterSectionId s) (form s) (results_classes s)
    (results s) (expanded s) (currentResultsClass s) (closeBtn s)
    (customPagination s) (applyFiltersFetchAbortController s) (next_ctrl s)
    (aborted s) (pending s) (history s) (warnings s) x.

(** *** Small steps of the methods *)

Definition on_closeBtn (f : CloseBtn -> CloseBtn) (s : State) : State :=
  set_closeBtn (option_map f (closeBtn s)) s.

Definition on_pagination (f : Pagination -> Pagination) (s : State) : State :=
  set_customPagination (option_map f (customPagination s)) s.

Definition set_pause (v : string) (p : Pagination) : Pagination :=
  mkPagination (Some v) (has_reload p) (reloads p).

(** [if (customPagination && customPagination.reload) customPagination.reload()] *)
Definition reload (p : Pagination) : Pagination :=
  if has_reload p
  then mkPagination (pauseInfiniteScroll p) true (S (reloads p))
  else p.

Definition console_warn (e : Err) (s : State) : State :=
  set_warnings (warnings s ++ [e])%list s.

Definition is_aborted (c : nat) (s : State) : bool :=
  existsb (Nat.eqb c) (aborted s).

(** Lines 2141-2144: aborts the controller of the previous call, if any,
    and creates a new one. *)
Definition abort_current (s : State) : State :=
  match applyFiltersFetchAbortController s with
  | Some c => set_aborted (c :: aborted s) s
  | None => s
  end.

Definition new_controller : M State nat :=
  fun s => (Normal (next_ctrl s),
            set_controller (Some (next_ctrl s)) (S (next_ctrl s)) s).

(** Lines 2135-2138. *)
Definition fetchUrl (s : State) (searchParams : string) : string :=
  pathname s ++ "?" ++ searchParams ++
  match filterSectionId s with
  | Some i => if truthy i then "&section_id=" ++ i else ""
  | None => ""
  end.

(** Lines 2242-2248: [FacetFilters.updateURL]. *)
Definition updateURL (searchParams : string) (s : State) : State :=
  set_history
    (history s ++
     [mkHistoryEntry searchParams
        (pathname s ++
         (if truthy searchParams then "?" ++ searchParams else searchParams))])%list
    s.

(** Lines 2157-2162: copies the [open] state of every filter of the live
    form onto the element of the fetched fragment that has its id. *)
Definition copyOpenState (live tmpl : forest) : forest :=
  fold_left
    (fun t existingFilter =>
       match getElementById (id_of existingFilter) t with
       | Some target => set_open target (is_open existingFilter) t
       | None => t
       end)
    (querySelectorAll dd_details live) tmpl.

(** Lines 2165-2169, for one [newFilter] of the node list: un-hides what it
    contains and removes its first [.filter__more].  A filter that an earlier
    iteration took out of the fragment is worked on detached, which leaves
    the fragment as it is. *)
Definition expandFilter (newFilter : node) (tmpl : forest) : forest :=
  match uid_of newFilter with
  | None => tmpl
  | Some u =>
      match lookup u tmpl with
      | None => tmpl
      | Some cur =>
          let hiddenElements :=
            querySelectorAll (by_class "js-hidden") (kids_of cur) in
          let tmpl :=
            fold_left
              (fun t listItem =>
                 match uid_of listItem with
                 | Some h => classList_remove "js-hidden" h t
                 | None => t
                 end)
              hiddenElements tmpl in
          match querySelector (by_class "filter__more") (kids_of cur) with
          | Some more =>
              match uid_of more with
              | Some m => remove m tmpl
              | None => tmpl
              end
          | None => tmpl
          end
      end
  end.

(** Lines 2163-2171. *)
Definition restoreExpanded (expanded : list string) (tmpl : forest) : forest :=
  fold_left
    (fun t newFilter =>
       if includes (id_of newFilter) expanded then expandFilter newFilter t
       else t)
    (querySelectorAll facets_dd_details tmpl) tmpl.

(** Lines 2187-2188. *)
Definition restoreResultsClass (cls : list string) (res : forest) : forest :=
  match querySelector (by_tag "ul") res with
  | Some newResultsUl =>
      match cls, uid_of newResultsUl with
      | _ :: _, Some u => set_class_attr cls u res
      | _, _ => res
      end
  | None => res
  end.

(** Lines 1975-2003, as run again after a render ("reinitialize re-rendered
    components"): the filter containers, which are part of what the render
    replaces, are looked up afresh in the form, and binding a listener to a
    missing one throws. *)
Definition addListeners : M State unit :=
  (s <- get ;;
   (if filteringEnabled s then
      (_ <- deref "this.filters is null"
              (querySelector (by_class "facets__filters") (form s)) ;;
       _ <- deref "this.activeFilters is null"
              (querySelector (by_class "facets__active-filters") (form s)) ;;
       ret tt)
    else ret tt) ;;
   (if sortingEnabled s then
      (if desktopSortBy s then ret tt
       else throw (TypeError "this.desktopSortBy is null"))
    else ret tt))%js.

(** Lines 2153-2229: what [applyFilters] does with the text of an OK
    response, parsed into [tmpl].  The scroll adjustment of lines 2203-2219
    reads layout only and is left out. *)
Definition render (inv : Invocation) (tmpl : forest) : M State unit :=
  (s <- get ;;
   (* Restore UI state. *)
   let tmpl := copyOpenState (form s) tmpl in
   let tmpl := restoreExpanded (expanded s) tmpl in
   (* Update the filters. *)
   facets <- deref "getElementById('facets') is null"
               (getElementById "facets" tmpl) ;;
   modify (set_form (kids_of facets)) ;;
   (* Update the label of the mobile filter button. *)
   btn <- deref "querySelector('.js-close-drawer-mob') is null"
            (querySelector (by_class "js-close-drawer-mob") tmpl) ;;
   modify (on_closeBtn (fun b =>
     mkCloseBtn (cb_ariaDisabled b) (cb_classes b) (textContent btn))) ;;
   (* Preserve the CSS class of the results. *)
   modify (fun s =>
     match querySelector (by_tag "ul") (results s) with
     | Some currentResultsUl =>
         set_currentResultsClass (classes_of currentResultsUl) s
     | None => s
     end) ;;
   (* Update the results. *)
   fr <- deref "getElementById('filter-results') is null"
           (getElementById "filter-results" tmpl) ;;
   modify (set_results (kids_of fr)) ;;
   modify (fun s =>
     set_results (restoreResultsClass (currentResultsClass s) (results s)) s) ;;
   (* Reinitialize re-rendered components. *)
   addListeners ;;
   modify (on_pagination reload) ;;
   (* Update the URL. *)
   modify (fun s =>
     if inv_updateUrl inv then updateURL (inv_params inv) s else s) ;;
   (* Enable the "Show X results" button. *)
   modify (on_closeBtn (fun b =>
     mkCloseBtn None (remove_class "is-loading" (cb_classes b))
       (cb_innerText b))) ;;
   (* Re-enable infinite scroll. *)
   modify (on_pagination (set_pause "false")) ;;
   modify (fun s =>
     set_dispatched (dispatched s ++ ["on:facet-filters:updated"])%list s))%js.

(** Lines 2122-2150: [applyFilters] up to its [fetch] call. *)
Definition start (searchParams : string) (updateUrl : bool) : M State Invocation :=
  ((* Disable infinite scrolling. *)
   modify (on_pagination (set_pause "true")) ;;
   (* Set loading state. *)
   modify (fun s =>
     set_results_classes (add_class "is-loading" (results_classes s)) s) ;;
   s <- get ;;
   _ <- deref "closeBtn is null" (closeBtn s) ;;
   modify (on_closeBtn (fun b =>
     mkCloseBtn (Some "true") (add_class "is-loading" (cb_classes b))
       (cb_innerText b))) ;;
   (* Cancel current fetch request. *)
   modify abort_current ;;
   c <- new_controller ;;
   ret (mkInvocation c (fetchUrl s searchParams) searchParams updateUrl
          AwaitFetch))%js.

(** Lines 2231-2235: the [catch] and [finally] blocks, entered with the
    completion of the [try] block. *)
Definition finish (r : Completion unit * State) : State :=
  let s :=
    match r with
    | (Normal _, s) => s
    | (Throw e, s) => console_warn e s
    end in
  set_results_classes (remove_class "is-loading" (results_classes s)) s.

(** *** The methods, cut at their awaits *)

(** [applyFilters(searchParams, evt, updateUrl)], run until it suspends at
    its [fetch] (or ends before). *)
Definition applyFilters (searchParams : string) (updateUrl : bool)
    (s : State) : State :=
  match start searchParams updateUrl s with
  | (Normal inv, s') => set_pending (inv :: pending s') s'
  | (Throw e, s') => finish (Throw e, s')
  end.

(** How the promise of a [fetch] settles. *)
Inductive FetchOutcome : Type :=
| FetchRejected (e : Err)     (* network failure *)
| FetchResponse (ok : bool).  (* a response; [ok] iff its status is 2xx *)

(** How the promise of [response.text()] settles. *)
Inductive TextOutcome : Type :=
| TextRejected (e : Err)
| TextBody (tmpl : forest).   (* the body, as the template parser reads it *)

Definition find_pending (c : nat) (st : Stage) (s : State) : option Invocation :=
  find (fun i => (inv_ctrl i =? c) &&
                 match inv_stage i, st with
                 | AwaitFetch, AwaitFetch | AwaitText, AwaitText => true
                 | _, _ => false
                 end) (pending s).

Definition drop_pending (c : nat) (s : State) : State :=
  set_pending (filter (fun i => negb (inv_ctrl i =? c)) (pending s)) s.

(** The call that waits on the fetch of controller [c] resumes.  A fetch
    whose signal is aborted rejects with the abort reason, whatever the
    network delivered. *)
Definition resumeFetch (c : nat) (o : FetchOutcome) (s : State) : State :=
  match find_pending c AwaitFetch s with
  | None => s
  | Some inv =>
      let s := drop_pending c s in
      let o := if is_aborted c s
               then FetchRejected (AbortError "Request changed") else o in
      match o with
      | FetchRejected e => finish (Throw e, s)
      | FetchResponse true =>
          set_pending
            (mkInvocation c (inv_url inv) (inv_params inv) (inv_updateUrl inv)
               AwaitText :: pending s) s
      | FetchResponse false => finish (Normal tt, s)
      end
  end.

(** The call that waits on the body of the response fetched under
    controller [c] resumes.  Aborting the signal while the body is read
    errors the body stream, so the read rejects with the abort reason. *)
Definition resumeText (c : nat) (o : TextOutcome) (s : State) : State :=
  match find_pending c AwaitText s with
  | None => s
  | Some inv =>
      let s := drop_pending c s in
      let o := if is_aborted c s
               then TextRejected (AbortError "Request changed") else o in
      match o with
      | TextRejected e => finish (Throw e, s)
      | TextBody tmpl => finish (render inv tmpl s)
      end
  end.

(** The [state] of a [popstate] event. *)
Inductive PopState : Type :=
| StateNull
| StateObject (searchParams : JsVal).

(** Lines 2102-2112. *)
Definition handleHistoryChange (st : PopState) (s : State) : State :=
  match st with
  | StateNull => s
  | StateObject sp =>
      let searchParams :=
        match sp with
        | JStr p => if truthy p then p else ""
        | _ => ""
        end in
      applyFilters searchParams false s
  end.

(** Lines 2027-2058.  [formData] and [opts] are what the form's controls
    and the mobile sort options hold when the event fires; an exception
    leaves the handler before [applyFilters] is called. *)
Definition handleFilterChange (formData : list (string * string))
    (opts : list FilterChange.SortOption) (evt : FilterChange.Event)
    (s : State) : State :=
  match FilterChange.handleFilterChange (sortingEnabled s) formData opts evt with
  | Normal (searchParams, _) => applyFilters searchParams true s
  | Throw _ => s
  end.

(** Lines 2064-2086.  The click target is the element [u] of the form;
    [href] is [new URL(evt.target.href).searchParams.toString()], [None]
    when the URL constructor throws. *)
Definition handleFiltersClick (u : nat) (href : option string) (s : State)
    : State :=
  match lookup u (form s) with
  | None => s
  | Some target =>
      let r :=
        if has_class "js-clear-filter" target then
          match href with
          | Some p => Normal (applyFilters p true s)
          | None => Throw (TypeError "Invalid URL")
          end
        else Normal s in
      match r with
      | Throw _ => s
      | Normal s =>
          if has_class "js-show-more" target then
            let filter := closest (has_class "filter") u (form s) in
            let s := set_form (remove u (form s)) s in
            match filter with
            | None => s
            | Some filter =>
                let lis :=
                  match uid_of filter with
                  | Some fu =>
                      match lookup fu (form s) with
                      | Some cur => querySelectorAll (by_tag "li") (kids_of cur)
                      | None => []
                      end
                  | None => []
                  end in
                let s :=
                  set_form
                    (fold_left
                       (fun f el =>
                          match uid_of el with
                          | Some e => classList_remove "js-hidden" e f
                          | None => f
                          end)
                       lis (form s)) s in
                if includes (id_of filter) (expanded s) then s
                else set_expanded (expanded s ++ [id_of filter])%list s
            end
          else s
      end
  end.

(** Lines 2092-2096. *)
Definition handleActiveFiltersClick (tagName : string) (href : option string)
    (s : State) : State :=
  if String.eqb tagName "A" then
    match href with
    | Some p => applyFilters p true s
    | None => s
    end
  else s.

(** *** The event loop *)

Inductive Ev : Type :=
| Call (searchParams : string) (updateUrl : bool)
| FilterChangeEv (formData : list (string * string))
    (opts : list FilterChange.SortOption) (evt : FilterChange.Event)
| FiltersClick (target : nat) (href : option string)
| ActiveFiltersClick (tagName : string) (href : option string)
| PopStateEv (st : PopState)
| FetchSettled (c : nat) (o : FetchOutcome)
| TextSettled (c : nat) (o : TextOutcome).

Definition step (s : State) (e : Ev) : State :=
  match e with
  | Call p u => applyFilters p u s
  | FilterChangeEv fd opts evt => handleFilterChange fd opts evt s
  | FiltersClick u href => handleFiltersClick u href s
  | ActiveFiltersClick t href => handleActiveFiltersClick t href s
  | PopStateEv st => handleHistoryChange st s
  | FetchSettled c o => resumeFetch c o s
  | TextSettled c o => resumeText c o s
  end.

Definition run (s : State) (tr : list Ev) : State := fold_left step tr s.

(** Lines 1960-1973: the component after [init], on a page with the given
    form and results, before any request. *)
Definition init (path : string) (filtering sorting sortByPresent : bool)
    (sectionId : option string) (formKids resultsKids : forest)
    (btn : option CloseBtn) (pag : option Pagination) : State :=
  mkState path filtering sorting sortByPresent sectionId formKids []
    resultsKids [] [] btn pag None 0 [] [] [] [] [].

(** The writes of lines 2157-2171, as data. *)
Definition unhide_writes (hiddenElements : list node) : list write :=
  flat_map (fun listItem =>
              match uid_of listItem with
              | Some h => [RemoveClass "js-hidden" h]
              | None => []
              end) hiddenElements.

Definition expandFilter_writes (newFilter : node) (tmpl : forest)
    : list write :=
  match uid_of newFilter with
  | None => []
  | Some u =>
      match lookup u tmpl with
      | None => []
      | Some cur =>
          (unhide_writes
             (querySelectorAll (by_class "js-hidden") (kids_of cur)) ++
           match querySelector (by_class "filter__more") (kids_of cur) with
           | Some more =>
               match uid_of more with
               | Some m => [Remove m]
               | None => []
               end
           | None => []
           end)%list
      end
  end.

(** What a response may replace: the content of the facets form, the
    content of the results, and the history entries (the URL). *)
Definition content (s : State) : forest * forest * list HistoryEntry :=
  (form s, results s, history s).

(** The request bookkeeping of the component. *)
Definition control (s : State)
    : option nat * nat * list nat * list Invocation :=
  (applyFiltersFetchAbortController s, next_ctrl s, aborted s, pending s).

(** The controller whose request a settlement event resumes. *)
Definition settles (e : Ev) : option nat :=
  match e with
  | FetchSettled c _ | TextSettled c _ => Some c
  | _ => None
  end.

(** Every suspended call either holds the component's current controller
    or has had its signal aborted; the current controller is the one
    created last. *)
Definition stale_aborted (s : State) : Prop :=
  (forall i, In i (pending s) ->
     applyFiltersFetchAbortController s = Some (inv_ctrl i) \/
     is_aborted (inv_ctrl i) s = true) /\
  match applyFiltersFetchAbortController s with
  | Some c => S c = next_ctrl s
  | None => True
  end /\
  (forall i, In i (pending s) -> inv_ctrl i < next_ctrl s) /\
  (forall c, is_aborted c s = true -> c < next_ctrl s).

End FacetFilters.

(** ** CustomPagination (custom pagination element, lines 23-194) *)

Module CustomPagination.

(** The [.js-pagination] element [this.pagination] refers to. *)
Record PaginationEl : Type := mkPaginationEl {
  pg_style : option string;    (* dataset.paginationStyle *)
  pg_isMore : option string;   (* dataset.isMoreResults *)
  pg_loading : bool;           (* has the class is-loading *)
  pg_attached : bool           (* still in the document *)
}.

(** The [.js-pagination-load-more] link [this.loadMoreButton] refers to.  It
    sits inside the pagination element. *)
Record Button : Type := mkButton {
  b_href : string;
  b_loading : bool;                (* has the class is-loading *)
  b_ariaDisabled : option string;  (* aria-disabled attribute *)
  b_bound : bool;                  (* loadMoreClickHandler listens on it *)
  b_attached : bool                (* still in the document *)
}.

(** What the element's queries find in the document when [init] runs. *)
Record View : Type := mkView {
  v_pagination : option PaginationEl;
  v_button : option string;        (* href of the load-more link *)
  v_results : list string          (* the .js-pagination-result elements *)
}.

(** The [.js-pagination] element of a fetched page. *)
Record NewPagination : Type := mkNewPagination {
  np_isMore : option string;       (* dataset.isMoreResults *)
  np_button : option string        (* href of the load-more link inside *)
}.

(** The body of a fetched page, as the component reads it. *)
Record Page : Type := mkPage {
  page_results : list string;      (* outerHTML of each result *)
  page_pagination : option NewPagination
}.

Inductive Stage : Type :=
| AwaitFetch    (* line 132: await fetch(...) *)
| AwaitText.    (* line 142: await response.text() *)

(** A suspended [loadMore] call. *)
Record Invocation : Type := mkInvocation {
  inv_ctrl : nat;
  inv_stage : Stage
}.

Record State : Type := mkState {
  pause : option string;           (* dataset.pauseInfiniteScroll *)
  infiniteScroll : bool;
  pagination : option PaginationEl;
  loadMoreButton : option Button;
  results : list string;           (* the results in the element *)
  whenPaginatedOnly : nat;         (* .js-when-paginated-only elements *)
  isFetching : bool;
  controller : option nat;         (* this.controller *)
  next_ctrl : nat;
  aborted : list nat;
  pending : list Invocation;
  intersectingTimer : option nat;  (* this.intersectingTimer *)
  timers : list nat;               (* interval timers still running *)
  next_timer : nat;
  observer : option bool;          (* this.paginationObserver; observing? *)
  log : list Err;                  (* console.log calls *)
  fetched : list string;           (* URLs requested, oldest first *)
  (* how the promises of the loadMore calls that passed the guard ended *)
  settled : list (Completion unit)
}.

Definition set_pause x s :=
  mkState x (infiniteScroll s) (pagination s) (loadMoreButton s) (results s)
    (whenPaginatedOnly s) (isFetching s) (controller s) (next_ctrl s)
    (aborted s) (pending s) (intersectingTimer s) (timers s) (next_timer s)
    (observer s) (log s) (fetched s) (settled s).

Definition set_pagination x s :=
  mkState (pause s) (infiniteScroll s) x (loadMoreButton s) (results s)
    (whenPaginatedOnly s) (isFetching s) (controller s) (next_ctrl s)
    (aborted s) (pending s) (intersectingTimer s) (timers s) (next_timer s)
    (observer s) (log s) (fetched s) (settled s).

Definition set_loadMoreButton x s :=
  mkState (pause s) (infiniteScroll s) (pagination s) x (results s)
    (whenPaginatedOnly s) (isFetching s) (controller s) (next_ctrl s)
    (aborted s) (pending s) (intersectingTimer s) (timers s) (next_timer s)
    (observer s) (log s) (fetched s) (settled s).

Definition set_results x s :=
  mkState (pause s) (infiniteScroll s) (pagination s) (loadMoreButton s) x
    (whenPaginatedOnly s) (isFetching s) (controller s) (next_ctrl s)
    (aborted s) (pending s) (intersectingTimer s) (timers s) (next_timer s)
    (observer s) (log s) (fetched s) (settled s).

Definition set_whenPaginatedOnly x s :=
  mkState (pause s) (infiniteScroll s) (pagination s) (loadMoreButton s)
    (results s) x (isFetching s) (controller s) (next_ctrl s)
    (aborted s) (pending s) (intersectingTimer s) (timers s) (next_timer s)
    (observer s) (log s) (fetched s) (settled s).

Definition set_isFetching x s :=
  mkState (pause s) (infiniteScroll s) (pagination s) (loadMoreButton s)
    (results s) (whenPaginatedOnly s) x (controller s) (next_ctrl s)
    (aborted s) (pending s) (intersectingTimer s) (timers s) (next_timer s)
    (observer s) (log s) (fetched s) (settled s).

Definition set_controller x s :=
  mkState (pause s) (infiniteScroll s) (pagination s) (loadMoreButton s)
    (results s) (whenPaginatedOnly s) (isFetching s) x (next_ctrl s)
    (aborted s) (pending s) (intersectingTimer s) (timers s) (next_timer s)
    (observer s) (log s) (fetched s) (settled s).

Definition set_next_ctrl x s :=
  mkState (pause s) (infiniteScroll s) (pagination s) (loadMoreButton s)
    (results s) (whenPaginatedOnly s) (isFetching s) (controller s) x
    (aborted s) (pending s) (intersectingTimer s) (timers s) (next_timer s)
    (observer s) (log s) (fetched s) (settled s).

Definition set_aborted x s :=
  mkState (pause s) (infiniteScroll s) (pagination s) (loadMoreButton s)
    (results s) (whenPaginatedOnly s) (isFetching s) (controller s)
    (next_ctrl s) x (pending s) (intersectingTimer s) (timers s)
    (next_timer s) (observer s) (log s) (fetched s) (settled s).

Definition set_pending x s :=
  mkState (pause s) (infiniteScroll s) (pagination s) (loadMoreButton s)
    (results s) (whenPaginatedOnly s) (isFetching s) (controller s)
    (next_ctrl s) (aborted s) x (intersectingTimer s) (timers s)
    (next_timer s) (observer s) (log s) (fetched s) (settled s).

Definition set_timer x ts n s :=
  mkState (pause s) (infiniteScroll s) (pagination s) (loadMoreButton s)
    (results s) (whenPaginatedOnly s) (isFetching s) (controller s)
    (next_ctrl s) (aborted s) (pending s) x ts n
    (observer s) (log s) (fetched s) (settled s).

Definition set_observer x s :=
  mkState (pause s) (infiniteScroll s) (pagination s) (loadMoreButton s)
    (results s) (whenPaginatedOnly s) (isFetching s) (controller s)
    (next_ctrl s) (aborted s) (pending s) (intersectingTimer s) (timers s)
    (next_timer s) x (log s) (fetched s) (settled s).

Definition set_log x s :=
  mkState (pause s) (infiniteScroll s) (pagination s) (loadMoreButton s)
    (results s) (whenPaginatedOnly s) (isFetching s) (controller s)
    (next_ctrl s) (aborted s) (pending s) (intersectingTimer s) (timers s)
    (next_timer s) (observer s) x (fetched s) (settled s).

Definition set_fetched x s :=
  mkState (pause s) (infiniteScroll s) (pagination s) (loadMoreButton s)
    (results s) (whenPaginatedOnly s) (isFetching s) (controller s)
    (next_ctrl s) (aborted s) (pending s) (intersectingTimer s) (timers s)
    (next_timer s) (observer s) (log s) x (settled s).

Definition set_settled x s :=
  mkState (pause s) (infiniteScroll s) (pagination s) (loadMoreButton s)
    (results s) (whenPaginatedOnly s) (isFetching s) (controller s)
    (next_ctrl s) (aborted s) (pending s) (intersectingTimer s) (timers s)
    (next_timer s) (observer s) (log s) (fetched s) x.

(** *** Small steps of the methods *)

(** A [dataset] entry, tested for truth. *)
Definition data_truthy (o : option string) : bool :=
  match o with
  | Some v => truthy v
  | None => false
  end.

Definition data_is (v : string) (o : option string) : bool :=
  match o with
  | Some w => String.eqb w v
  | None => false
  end.

Definition on_button (f : Button -> Button) (s : State) : State :=
  set_loadMoreButton (option_map f (loadMoreButton s)) s.

Definition on_pagination (f : PaginationEl -> PaginationEl) (s : State)
    : State :=
  set_pagination (option_map f (pagination s)) s.

Definition mark_loading (v : bool) (p : PaginationEl) : PaginationEl :=
  mkPaginationEl (pg_style p) (pg_isMore p) v (pg_attached p).

(** [if (this.intersectingTimer) clearInterval(this.intersectingTimer)]:
    the timer stops; the property keeps its id. *)
Definition clearTimer (s : State) : State :=
  match intersectingTimer s with
  | Some t =>
      set_timer (Some t) (filter (fun x => negb (x =? t)) (timers s))
        (next_timer s) s
  | None => s
  end.

(** [if (this.paginationObserver) this.paginationObserver.disconnect()] *)
Definition disconnect (s : State) : State :=
  set_observer (option_map (fun _ => false) (observer s)) s.

Definition is_aborted (c : nat) (s : State) : bool :=
  existsb (Nat.eqb c) (aborted s).

(** [this.pagination.dataset.paginationStyle === 'traditional'], which
    throws when [this.pagination] is null. *)
Definition isTraditional : M State bool :=
  (s <- get ;;
   p <- deref "this.pagination is null" (pagination s) ;;
   ret (data_is "traditional" (pg_style p)))%js.

(** Lines 117-134: from the guard to the [fetch] call. *)
Definition start : M State Invocation :=
  (modify (set_isFetching true) ;;
   s <- get ;;
   modify (set_controller (Some (next_ctrl s))) ;;
   modify (set_next_ctrl (S (next_ctrl s))) ;;
   b <- (match loadMoreButton s with
         | Some b => ret b
         | None => throw (Error "No 'Load more' button found.")
         end) ;;
   modify (on_button (fun b =>
     mkButton (b_href b) true (Some "true") (b_bound b) (b_attached b))) ;;
   trad <- isTraditional ;;
   modify (fun s =>
     if trad then on_pagination (mark_loading true) s else s) ;;
   modify (fun s => set_fetched (fetched s ++ [b_href b])%list s) ;;
   ret (mkInvocation (next_ctrl s) AwaitFetch))%js.

(** Lines 136-139: with the response in hand. *)
Definition checkResponse (ok : bool) (status : string) : M State unit :=
  (s <- get ;;
   if negb ok then throw (Error status)
   else if data_is "true" (pause s)
        then throw (Error "Infinite scroll was interrupted.")
        else ret tt)%js.

(** Lines 141-170: with the body in hand. *)
Definition render (page : Page) : M State unit :=
  (s <- get ;;
   (* Append the additional results *)
   _ <- deref "lastResult is undefined" (last (map Some (results s)) None) ;;
   modify (set_results (results s ++ page_results page)%list) ;;
   (* Update the pagination content *)
   newPagination <- deref "newPagination is null" (page_pagination page) ;;
   if data_truthy (np_isMore newPagination) then
     (p <- deref "this.pagination is null" (pagination s) ;;
      (* the old content, with its load-more link, is gone *)
      s <- get ;;
      match loadMoreButton s with
      | None => ret tt
      | Some old =>
          (* Rebind to the new load more button *)
          let found := if pg_attached p then np_button newPagination
                       else None in
          modify (set_loadMoreButton
                    (option_map (fun h => mkButton h false None false true)
                       found)) ;;
          _ <- deref "this.loadMoreButton is null" found ;;
          modify (on_button (fun b =>
            mkButton (b_href b) (b_loading b) (b_ariaDisabled b) true
              (b_attached b)))
      end)
   else
     (_ <- deref "this.pagination is null" (pagination s) ;;
      modify (on_pagination (fun p =>
        mkPaginationEl (pg_style p) (pg_isMore p) (pg_loading p) false)) ;;
      modify (on_button (fun b =>
        mkButton (b_href b) (b_loading b) (b_ariaDisabled b) (b_bound b)
          false)) ;;
      modify clearTimer ;;
      modify disconnect ;;
      modify (set_whenPaginatedOnly 0)))%js.

(** Lines 171-173: the [catch] block. *)
Definition catch (r : Completion unit * State) : State :=
  match r with
  | (Normal _, s) => s
  | (Throw e, s) => clearTimer (set_log (log s ++ [e])%list s)
  end.

(** Lines 174-188: the [finally] block.  Its last statement reads
    [this.pagination.dataset]. *)
Definition finally : M State unit :=
  (modify (set_controller None) ;;
   modify (on_button (fun b =>
     mkButton (b_href b) false None (b_bound b) (b_attached b))) ;;
   modify (set_isFetching false) ;;
   trad <- isTraditional ;;
   modify (fun s =>
     if trad then on_pagination (mark_loading false) s else s))%js.

(** The end of a [loadMore] call whose [try] block completed as [r]: the
    promise of the call settles as the [finally] block completes. *)
Definition finish (r : Completion unit * State) : State :=
  let (c, s) := finally (catch r) in
  set_settled (settled s ++ [c])%list s.

(** *** loadMore, cut at its awaits *)

(** Lines 115-134: [loadMore()], run until it suspends at its [fetch] or
    ends before. *)
Definition loadMore (s : State) : State :=
  if negb (isFetching s) && data_is "false" (pause s) then
    match start s with
    | (Normal inv, s') => set_pending (inv :: pending s') s'
    | (Throw e, s') => finish (Throw e, s')
    end
  else s.

Inductive FetchOutcome : Type :=
| FetchRejected (e : Err)
| FetchResponse (ok : bool) (status : string).

Inductive TextOutcome : Type :=
| TextRejected (e : Err)
| TextBody (page : Page).

Definition stage_eqb (a b : Stage) : bool :=
  match a, b with
  | AwaitFetch, AwaitFetch | AwaitText, AwaitText => true
  | _, _ => false
  end.

Definition find_pending (c : nat) (st : Stage) (s : State)
    : option Invocation :=
  find (fun i => (inv_ctrl i =? c) && stage_eqb (inv_stage i) st) (pending s).

Definition drop_pending (c : nat) (s : State) : State :=
  set_pending (filter (fun i => negb (inv_ctrl i =? c)) (pending s)) s.

(** The call waiting on the fetch of controller [c] resumes; an aborted
    fetch rejects. *)
Definition resumeFetch (c : nat) (o : FetchOutcome) (s : State) : State :=
  match find_pending c AwaitFetch s with
  | None => s
  | Some inv =>
      let s := drop_pending c s in
      let o := if is_aborted c s then FetchRejected (AbortError "") else o in
      match o with
      | FetchRejected e => finish (Throw e, s)
      | FetchResponse ok status =>
          match checkResponse ok status s with
          | (Normal _, s') =>
              set_pending (mkInvocation c AwaitText :: pending s') s'
          | (Throw e, s') => finish (Throw e, s')
          end
      end
  end.

(** The call waiting on the body resumes; aborting errors the body. *)
Definition resumeText (c : nat) (o : TextOutcome) (s : State) : State :=
  match find_pending c AwaitText s with
  | None => s
  | Some inv =>
      let s := drop_pending c s in
      let o := if is_aborted c s then TextRejected (AbortError "") else o in
      match o with
      | TextRejected e => finish (Throw e, s)
      | TextBody page => finish (render page s)
      end
  end.

(** *** The other methods *)

(** Lines 106-110, for a click on a link inside a result. *)
Definition handleResultClick (s : State) : State :=
  match controller s with
  | Some c => set_aborted (c :: aborted s) s
  | None => s
  end.

(** Lines 53-67: the callback of the intersection observer, one entry. *)
Definition onIntersection (s : State) (isIntersecting : bool) : State :=
  if isIntersecting then
    let s := loadMore s in
    set_timer (Some (next_timer s)) (next_timer s :: timers s)
      (S (next_timer s)) s
  else clearTimer s.

(** Lines 77-83: [destroy()]. *)
Definition destroy (s : State) : State :=
  on_button (fun b =>
    mkButton (b_href b) (b_loading b) (b_ariaDisabled b) false (b_attached b))
    (disconnect (clearTimer s)).

(** Lines 35-72: [init()], given what its queries find. *)
Definition init (v : View) (s : State) : State :=
  let s := set_pagination (v_pagination v) s in
  let s := set_loadMoreButton
             (option_map (fun h => mkButton h false None false true)
                (v_button v)) s in
  let s := set_results (v_results v) s in
  let s := set_controller None s in
  match v_pagination v with
  | Some p =>
      if data_truthy (pg_isMore p) then
        let s := on_button (fun b =>
                   mkButton (b_href b) (b_loading b) (b_ariaDisabled b) true
                     (b_attached b)) s in
        if infiniteScroll s then set_observer (Some true) s else s
      else s
  | None => s
  end.

(** Lines 25-29: the constructor, for an element with the given data
    attributes on a page with [n] pagination-only elements. *)
Definition construct (infinite : bool) (pauseAttr : option string)
    (n : nat) (v : View) : State :=
  init v (mkState pauseAttr infinite None None [] n false None 0 []
            [] None [] 1 None [] [] []).

(** *** The event loop *)

Inductive Ev : Type :=
| LoadMore                         (* a direct call of loadMore() *)
| ClickLoadMore                    (* click on the load-more link *)
| Tick (t : nat)                   (* the interval timer t fires *)
| Intersection (entries : list bool)
| ResultClick
| SetPause (v : string)            (* dataset.pauseInfiniteScroll = v *)
| Reload (v : View)                (* reload() *)
| FetchSettled (c : nat) (o : FetchOutcome)
| TextSettled (c : nat) (o : TextOutcome).

(** Whether the browser can deliver the event: a click needs the link in
    the document with the handler bound, a tick a running timer, an
    intersection entry a connected observer. *)
Definition enabled (s : State) (e : Ev) : bool :=
  match e with
  | ClickLoadMore =>
      match loadMoreButton s with
      | Some b => b_attached b && b_bound b
      | None => false
      end
  | Tick t => existsb (Nat.eqb t) (timers s)
  | Intersection _ =>
      match observer s with
      | Some connected => connected
      | None => false
      end
  | _ => true
  end.

Definition step (s : State) (e : Ev) : State :=
  if enabled s e then
    match e with
    | LoadMore | ClickLoadMore | Tick _ => loadMore s
    | Intersection entries => fold_left onIntersection entries s
    | ResultClick => handleResultClick s
    | SetPause v => set_pause (Some v) s
    | Reload v => init v (destroy s)
    | FetchSettled c o => resumeFetch c o s
    | TextSettled c o => resumeText c o s
    end
  else s.

Definition run (s : State) (tr : list Ev) : State := fold_left step tr s.

(** The state [loadMore] is meant to leave behind. *)
Definition ready (s : State) : bool :=
  negb (isFetching s) &&
  match controller s with Some _ => false | None => true end &&
  match loadMoreButton s with
  | Some b => negb (b_loading b) &&
              match b_ariaDisabled b with Some _ => false | None => true end
  | None => true
  end.

(** At most one [loadMore] call is suspended, and [isFetching] tells
    whether one is. *)
Definition single_flight (s : State) : Prop :=
  (pending s = [] /\ isFetching s = false) \/
  (exists i, pending s = [i] /\ isFetching s = true).

(** Everything the [finally] block leaves alone. *)
Definition beyond_finally (s : State) :=
  (pause s, results s, whenPaginatedOnly s, pending s,
   (intersectingTimer s, timers s, next_timer s), observer s, log s,
   fetched s, (aborted s, next_ctrl s), settled s,
   option_map pg_attached (pagination s),
   option_map (fun b => (b_attached b, b_bound b)) (loadMoreButton s)).

(** *** Timers left behind *)

(** Every interval timer still running is the one the element holds: none
    was left behind by a later [setInterval] whose id replaced it in
    [this.intersectingTimer]. *)
Definition holds_timers (s : State) : Prop :=
  forall t, In t (timers s) -> intersectingTimer s = Some t.

(** The entries an intersection observer delivers for its one target
    alternate between intersecting and not; [prev] is the entry before,
    if there was one. *)
Fixpoint alternates (prev : option bool) (entries : list bool) : bool :=
  match entries with
  | [] => true
  | e :: rest =>
      match prev with
      | Some p => negb (Bool.eqb e p)
      | None => true
      end && alternates (Some e) rest
  end.

(** A trace in which the entries of each observer alternate; [reload()]
    makes a new observer, whose first entry may be either. *)
Fixpoint orderly (prev : option bool) (tr : list Ev) : bool :=
  match tr with
  | [] => true
  | Intersection entries :: rest =>
      alternates prev entries && orderly (last (map Some entries) prev) rest
  | Reload _ :: rest => orderly None rest
  | _ :: rest => orderly prev rest
  end.

(** What [clearInterval(h)] leaves of the running timers. *)
Definition cleared_of (h : option nat) (l : list nat) : list nat :=
  match h with
  | Some t => filter (fun x => negb (x =? t)) l
  | None => l
  end.

(** From [s] to [s'] no timer was started: the element holds the same id,
    the running timers are the same or the held one was cleared, and the
    observer changed only where the timer was cleared too. *)
Definition quieter (s s' : State) : Prop :=
  intersectingTimer s' = intersectingTimer s /\
  (timers s' = timers s \/
   timers s' = cleared_of (intersectingTimer s) (timers s)) /\
  (observer s' = observer s \/
   timers s' = cleared_of (intersectingTimer s) (timers s)).

(** The element holds its timers, and one runs only after an intersecting
    entry of a connected observer. *)
Definition timers_ok (prev : option bool) (s : State) : Prop :=
  holds_timers s /\
  (timers s = [] \/ (prev = Some true /\ observer s = Some true)).

End CustomPagination.

(** ** CartDrawer.refresh (assets/cart-drawer.js, lines 203-301) *)

Module CartDrawer.
Import Dom.

(** A [CustomEvent] dispatched on the drawer: its type, its [bubbles] flag
    and the [error] field of its detail. *)
Record CustomEvent : Type := mkCustomEvent {
  ev_type : string;
  ev_bubbles : bool;
  ev_error : string
}.

(** The drawer element and the parts of the page it renders into.
    [errorMsg] is the [textContent] of [this.errorMsg], [None] while the
    property is undefined. *)
Record State : Type := mkState {
  errorMsg : option string;
  scriptsLoaded : bool;
  drawerHtml : option forest;    (* content of #cart-drawer, if it exists *)
  bubbleHtml : option forest;    (* content of #cart-icon-bubble *)
  console : list Err;            (* console.log calls *)
  dispatched : list CustomEvent; (* events dispatched on the drawer *)
  unhandled : list Err           (* rejections of promises nobody awaits *)
}.

(** What the page and the network answer during one [refresh]. *)
Record Env : Type := mkEnv {
  (* this.querySelector('cart-items'), with how calling its refresh()
     completes *)
  env_cartItems : option (Completion unit);
  (* the id of this.closest('.shopify-section') *)
  env_section : option string;
  (* how fetch(...) settles *)
  env_fetch : Completion unit;
  (* how cartResponse.json() settles: the HTML of each section *)
  env_json : Completion (string -> option forest);
  (* how the loadScript awaits of renderContents settle *)
  env_scripts : Completion unit
}.

(** Lines 75-81 and main.js 643-646: the constructors of [CartDrawer] and
    of its base class [SideDrawer].  Neither they nor any method assign
    [this.errorMsg]. *)
Definition construct (drawer bubble : option forest) : State :=
  mkState None false drawer bubble [] [] [].

(** [s.replace(pat, '')] for a string pattern: the first occurrence goes. *)
Fixpoint remove_first (pat s : string) : string :=
  if String.prefix pat s
  then String.substring (String.length pat)
         (String.length s - String.length pat) s
  else match s with
       | EmptyString => EmptyString
       | String c r => String c (remove_first pat r)
       end.

(** A section to render: the id of the live element, the section key and
    the selector of the element to take from the section's HTML. *)
Record Section : Type := mkSection {
  sec_id : string;
  section : string;
  selector : list node -> node -> bool
}.

(** Lines 265-278. *)
Definition getSectionsToRender (env : Env) : Completion (list Section) :=
  match env_section env with
  | None => Throw (TypeError "this.closest('.shopify-section') is null")
  | Some i =>
      Normal [mkSection "cart-drawer" (remove_first "shopify-section-" i)
                (by_tag "cart-drawer");
              mkSection "cart-icon-bubble" "cart-icon-bubble"
                (by_class "shopify-section")]
  end.

(** Lines 296-301.  A section missing from the data is the text
    [undefined] to the template parser. *)
Definition getElementHTML (html : option forest)
    (sel : list node -> node -> bool) : Completion forest :=
  let content := match html with
                 | Some f => f
                 | None => [Text "undefined"]
                 end in
  match querySelector sel content with
  | Some el => Normal (kids_of el)
  | None => Throw (TypeError "querySelector(selector) is null")
  end.

(** Lines 244-252, one section. *)
Definition renderSection (sections : string -> option forest) (sec : Section)
    (s : State) : Completion unit * State :=
  if String.eqb (sec_id sec) "cart-drawer" then
    match drawerHtml s with
    | None => (Normal tt, s)
    | Some _ =>
        match getElementHTML (sections (section sec)) (selector sec) with
        | Normal h =>
            (Normal tt,
             mkState (errorMsg s) (scriptsLoaded s) (Some h) (bubbleHtml s)
               (console s) (dispatched s) (unhandled s))
        | Throw e => (Throw e, s)
        end
    end
  else
    match bubbleHtml s with
    | None => (Normal tt, s)
    | Some _ =>
        match getElementHTML (sections (section sec)) (selector sec) with
        | Normal h =>
            (Normal tt,
             mkState (errorMsg s) (scriptsLoaded s) (drawerHtml s) (Some h)
               (console s) (dispatched s) (unhandled s))
        | Throw e => (Throw e, s)
        end
    end.

Fixpoint renderSections (sections : string -> option forest)
    (secs : list Section) (s : State) : Completion unit * State :=
  match secs with
  | [] => (Normal tt, s)
  | sec :: rest =>
      match renderSection sections sec s with
      | (Normal _, s') => renderSections sections rest s'
      | (Throw e, s') => (Throw e, s')
      end
  end.

(** Lines 230-259: [renderContents(data, false)]; the result is how its
    promise settles. *)
Definition renderContents (env : Env) (sections : string -> option forest)
    (s : State) : Completion unit * State :=
  let loaded :=
    if scriptsLoaded s then (Normal tt, s)
    else match env_scripts env with
         | Normal _ =>
             (Normal tt,
              mkState (errorMsg s) true (drawerHtml s) (bubbleHtml s)
                (console s) (dispatched s) (unhandled s))
         | Throw e => (Throw e, s)
         end in
  match loaded with
  | (Throw e, s) => (Throw e, s)
  | (Normal _, s) =>
      match getSectionsToRender env with
      | Throw e => (Throw e, s)
      | Normal secs => renderSections sections secs s
      end
  end.

(** Lines 204-213: the [try] block of [refresh]. *)
Definition refresh_try (env : Env) (dontRefreshCartItems : bool) (s : State)
    : Completion unit * State :=
  match env_cartItems env, dontRefreshCartItems with
  | Some completion, false => (completion, s)
  | _, _ =>
      match getSectionsToRender env with
      | Throw e => (Throw e, s)
      | Normal _ =>
          match env_fetch env with
          | Throw e => (Throw e, s)
          | Normal _ =>
              match env_json env with
              | Throw e => (Throw e, s)
              | Normal sections =>
                  (* the promise of renderContents is dropped *)
                  match renderContents env sections s with
                  | (Normal _, s') => (Normal tt, s')
                  | (Throw e, s') =>
                      (Normal tt,
                       mkState (errorMsg s') (scriptsLoaded s')
                         (drawerHtml s') (bubbleHtml s') (console s')
                         (dispatched s') (unhandled s' ++ [e])%list)
                  end
              end
          end
      end
  end.

(** Lines 214-222: the [catch] block.  The event's detail is built before
    the event is dispatched, from [this.errorMsg.textContent]. *)
Definition refresh_catch (error : Err) (s : State) : Completion unit * State :=
  let s := mkState (errorMsg s) (scriptsLoaded s) (drawerHtml s)
             (bubbleHtml s) (console s ++ [error])%list (dispatched s)
             (unhandled s) in
  match errorMsg s with
  | None => (Throw (TypeError "this.errorMsg is undefined"), s)
  | Some msg =>
      (Normal tt,
       mkState (errorMsg s) (scriptsLoaded s) (drawerHtml s) (bubbleHtml s)
         (console s)
         (dispatched s ++ [mkCustomEvent "on:cart:error" true msg])%list
         (unhandled s))
  end.

(** [refresh(dontRefreshCartItems)]: how its promise settles, and the state
    it leaves. *)
Definition refresh (env : Env) (dontRefreshCartItems : bool) (s : State)
    : Completion unit * State :=
  match refresh_try env dontRefreshCartItems s with
  | (Normal _, s') => (Normal tt, s')
  | (Throw e, s') => refresh_catch e s'
  end.

End CartDrawer.

(** ** debounce (assets/main.js, lines 86-92) *)

Module Debounce.

Section Debounced.

(** The arguments the debounced function is invoked with. *)
Variable A : Type.

(** A pending [setTimeout] of the page: its id, the time from which its
    callback may run, and the arguments its callback closes over. *)
Record Timer : Type := mkTimer {
  tm_id : nat;
  tm_due : nat;
  tm_args : A
}.

(** One function returned by [debounce(fn, wait)], with the clock and the
    timers of the page: [t] is the variable of the closure, [calls] the
    calls of [fn] so far (time and arguments, oldest first) and
    [invocations] the invocations of the returned function so far. *)
Record State : Type := mkState {
  now : nat;
  t : option nat;
  timers : list Timer;
  next_id : nat;
  calls : list (nat * A);
  invocations : list (nat * A)
}.

(** After [debounce(fn, wait)]: nothing scheduled, [t] undefined. *)
Definition init (time : nat) : State := mkState time None [] 1 [] [].

(** [clearTimeout(t)]; an undefined or unknown id is ignored. *)
Definition clearTimeout (id : option nat) (l : list Timer) : list Timer :=
  match id with
  | Some i => filter (fun tm => negb (tm_id tm =? i)) l
  | None => l
  end.

(** Lines 88-91: the returned function, called with [args]. *)
Definition invoke (wait : nat) (args : A) (s : State) : State :=
  mkState (now s) (Some (next_id s))
    (clearTimeout (t s) (timers s)
     ++ [mkTimer (next_id s) (now s + wait) args])%list
    (S (next_id s)) (calls s)
    (invocations s ++ [(now s, args)])%list.

(** The callback of timer [id] runs: [fn.apply(this, args)].  The browser
    runs it once, at some time from its due time on. *)
Definition fire (id : nat) (s : State) : State :=
  match find (fun tm => tm_id tm =? id) (timers s) with
  | Some tm =>
      if tm_due tm <=? now s then
        mkState (now s) (t s)
          (filter (fun x => negb (tm_id x =? id)) (timers s))
          (next_id s) (calls s ++ [(now s, tm_args tm)])%list
          (invocations s)
      else s
  | None => s
  end.

Definition advance (d : nat) (s : State) : State :=
  mkState (now s + d) (t s) (timers s) (next_id s) (calls s) (invocations s).

Inductive Ev : Type :=
| Invoke (args : A)      (* the debounced function is called *)
| Advance (d : nat)      (* time passes *)
| Fire (id : nat).       (* the browser runs the callback of a timer *)

Definition step (wait : nat) (s : State) (e : Ev) : State :=
  match e with
  | Invoke args => invoke wait args s
  | Advance d => advance d s
  | Fire id => fire id s
  end.

Definition run (wait : nat) (s : State) (tr : list Ev) : State :=
  fold_left (step wait) tr s.

(** A series of invocations, each followed by some quiet time and by
    whatever attempts of the browser to run timers. *)
Fixpoint burst (rounds : list (A * nat * list nat)) : list Ev :=
  match rounds with
  | [] => []
  | (args, d, ids) :: rest =>
      (Invoke args :: Advance d :: map Fire ids) ++ burst rest
  end%list.

(** At most one timer is pending; it is the one [t] names, it was set by
    the most recent invocation and is due [wait] after it. *)
Definition scheduled (wait : nat) (s : State) : Prop :=
  (forall tm, In tm (timers s) -> tm_id tm < next_id s) /\
  (forall tau a, In (tau, a) (invocations s) -> tau <= now s) /\
  (timers s = [] \/
   exists tm l tau,
     timers s = [tm] /\ t s = Some (tm_id tm) /\
     invocations s = (l ++ [(tau, tm_args tm)])%list /\
     tm_due tm = tau + wait).

End Debounced.

Arguments mkTimer {A}.
Arguments tm_id {A}.
Arguments tm_due {A}.
Arguments tm_args {A}.
Arguments mkState {A}.
Arguments now {A}.
Arguments t {A}.
Arguments timers {A}.
Arguments next_id {A}.
Arguments calls {A}.
Arguments invocations {A}.
Arguments init {A}.
Arguments invoke {A}.
Arguments fire {A}.
Arguments advance {A}.
Arguments Invoke {A}.
Arguments Advance {A}.
Arguments Fire {A}.
Arguments step {A}.
Arguments run {A}.
Arguments burst {A}.
Arguments scheduled {A}.
Arguments clearTimeout {A}.

End Debounce.

(** ** Numbers, as the components read and print them *)

Module JsNum.

(** The numbers the modelled code handles: integers and [NaN] ([None]).
    The code's numbers are doubles: [succ], [toString] and [parseInt]
    below give what the code computes on the safe integers, where doubles
    are exact and print in plain decimal; beyond them ([2^53] and up) a
    double rounds, and [String] prints the shortest digits that read back
    (an exponent from [10^21] on).  A theorem that depends on the value
    these functions give carries [isSafeInteger] as a hypothesis. *)
Definition Num : Type := option Z.

(** [Number.isSafeInteger(z)]. *)
Definition isSafeInteger (z : Z) : bool := (Z.abs z <? 2 ^ 53)%Z.

(** [a <= b] and [a < b]: false when either side is [NaN]. *)
Definition le (a b : Num) : bool :=
  match a, b with
  | Some x, Some y => Z.leb x y
  | _, _ => false
  end.

Definition lt (a b : Num) : bool :=
  match a, b with
  | Some x, Some y => Z.ltb x y
  | _, _ => false
  end.

(** [a + 1], on the safe integers. *)
Definition succ (a : Num) : Num := option_map Z.succ a.

(** [String(a)], on the safe integers. *)
Definition toString (a : Num) : string :=
  match a with
  | Some z => NilZero.string_of_int (Z.to_int z)
  | None => "NaN"
  end.

Definition is_digit (c : ascii) : bool :=
  (48 <=? nat_of_ascii c) && (nat_of_ascii c <=? 57).

(** The longest prefix of decimal digits. *)
Fixpoint digits (s : string) : string :=
  match s with
  | String c r => if is_digit c then String c (digits r) else EmptyString
  | EmptyString => EmptyString
  end.

(** White space and line terminators, in UTF-8: TAB, LF, VT, FF, CR and
    SP; U+00A0; U+1680, U+2000 to U+200A, U+2028, U+2029, U+202F, U+205F,
    U+3000 and U+FEFF. *)
Definition ws1 (a : ascii) : bool :=
  let n := nat_of_ascii a in
  ((9 <=? n) && (n <=? 13)) || (n =? 32).

Definition ws2 (a b : ascii) : bool :=
  (nat_of_ascii a =? 194) && (nat_of_ascii b =? 160).

Definition ws3 (a b c : ascii) : bool :=
  let x := nat_of_ascii a in
  let y := nat_of_ascii b in
  let z := nat_of_ascii c in
  ((x =? 225) && (y =? 154) && (z =? 128)) ||
  ((x =? 226) && (y =? 128) &&
   (((128 <=? z) && (z <=? 138)) || (z =? 168) || (z =? 169) || (z =? 175))) ||
  ((x =? 226) && (y =? 129) && (z =? 159)) ||
  ((x =? 227) && (y =? 128) && (z =? 128)) ||
  ((x =? 239) && (y =? 187) && (z =? 191)).

Fixpoint trim_start (s : string) : string :=
  match s with
  | String a r1 =>
      if ws1 a then trim_start r1
      else match r1 with
           | String b r2 =>
               if ws2 a b then trim_start r2
               else match r2 with
                    | String c r3 =>
                        if ws3 a b c then trim_start r3 else s
                    | EmptyString => s
                    end
           | EmptyString => s
           end
  | EmptyString => s
  end.

(** [parseInt(s, 10)]: leading white space is skipped, a sign is read,
    then the longest run of decimal digits; [NaN] when there is none.
    The value is exact, as it is in the code when it is a safe integer. *)
Definition parseInt (s : string) : Num :=
  let s := trim_start s in
  let signed :=
    match s with
    | String c r =>
        if Ascii.eqb c "-" then (true, r)
        else if Ascii.eqb c "+" then (false, r)
        else (false, s)
    | EmptyString => (false, s)
    end in
  match digits (snd signed) with
  | EmptyString => None
  | ds =>
      match NilEmpty.uint_of_string ds with
      | Some u =>
          Some (if fst signed then Z.opp (Z.of_uint u) else Z.of_uint u)
      | None => None
      end
  end.

End JsNum.

(** ** ProductInventory (product inventory element, lines 1-140) *)

Module ProductInventory.

(** The inventory levels, and the strings the code names them by. *)
Inductive Level : Type :=
| Backordered | InStock | NoStock | VeryLow | Low | NormalStock.

Definition level_name (l : Level) : string :=
  match l with
  | Backordered => "backordered"
  | InStock => "in_stock"
  | NoStock => "none"
  | VeryLow => "very_low"
  | Low => "low"
  | NormalStock => "normal"
  end.

Definition level_eqb (a b : Level) : bool :=
  String.eqb (level_name a) (level_name b).

(** [s.includes(pat)]. *)
Fixpoint str_includes (pat s : string) : bool :=
  String.prefix pat s ||
  match s with
  | EmptyString => false
  | String _ r => str_includes pat r
  end.

(** [s.replace(pat, rep)] for a string pattern, and a replacement without
    [$]: the first occurrence is replaced. *)
Fixpoint replace_first (pat rep s : string) : string :=
  if String.prefix pat s
  then rep ++ String.substring (String.length pat)
                (String.length s - String.length pat) s
  else match s with
       | EmptyString => EmptyString
       | String c r => String c (replace_first pat rep r)
       end.

(** The data attributes of the element.  The two thresholds are what
    [parseInt(..., 10)] reads from them. *)
Record Dataset : Type := mkDataset {
  thresholdVeryLow : JsNum.Num;
  thresholdLow : JsNum.Num;
  showNotice : option string;
  showNoStockBackordered : option string;
  showCount : option string;
  textVeryLow : option string;
  textLow : option string;
  textNoStockBackordered : option string;
  textNormal : option string;
  textNoStock : option string
}.

(** [theme.strings]. *)
Record Strings : Type := mkStrings {
  onlyXLeft : string;
  veryLowStock : string;
  lowStock : string;
  inStock : string;
  noStock : string
}.

(** One entry of the JSON inventory data of the product. *)
Record Variant : Type := mkVariant {
  v_id : Z;
  inventory_quantity : JsNum.Num;
  available : bool;
  inventory_policy : option string
}.

(** The element: its [hidden] property, its [data-inventory-level]
    attribute, the text of its [.js-inventory-notice] and the content of
    its [.js-inventory-urgency] (each [None] when the element has no such
    child). *)
Record State : Type := mkState {
  hidden : bool;
  inventoryLevel : option string;
  inventoryNotice : option string;
  urgencyMessage : option string
}.

Definition data_is (v : string) (o : option string) : bool :=
  match o with
  | Some w => String.eqb w v
  | None => false
  end.

(** Assigning a data attribute to [innerHTML]: a missing attribute is
    [undefined], which is written as that word. *)
Definition html_of (o : option string) : string :=
  match o with
  | Some v => v
  | None => "undefined"
  end.

(** Lines 65-81. *)
Definition levelOf (d : Dataset) (count : JsNum.Num) (avail : bool)
    (inventoryPolicy : option string) : Level :=
  if JsNum.le count (Some 0%Z) then
    if data_is "continue" inventoryPolicy then Backordered
    else if avail then InStock
    else NoStock
  else if JsNum.le count (thresholdVeryLow d) then VeryLow
  else if JsNum.le count (thresholdLow d) then Low
  else NormalStock.

(** Lines 83-85: whether the notice is shown. *)
Definition visible (d : Dataset) (l : Level) : bool :=
  (data_is "always" (showNotice d) ||
   (data_is "low" (showNotice d) && str_includes "low" (level_name l))) &&
  negb (level_eqb l Backordered &&
        data_is "false" (showNoStockBackordered d)).

(** Lines 92-104: the text of the notice. *)
Definition noticeText (d : Dataset) (st : Strings) (l : Level)
    (count : JsNum.Num) : string :=
  if level_eqb l Backordered then ""
  else if negb (level_eqb l InStock) &&
          (data_is "always" (showCount d) ||
           (data_is "low" (showCount d) &&
            str_includes "low" (level_name l)))
  then replace_first "[quantity]" (JsNum.toString count) (onlyXLeft st)
  else match l with
       | VeryLow => veryLowStock st
       | Low => lowStock st
       | NormalStock | InStock => inStock st
       | NoStock => noStock st
       | Backordered => ""
       end.

(** Lines 107-119: the urgency message. *)
Definition urgencyText (d : Dataset) (l : Level) : string :=
  html_of match l with
          | VeryLow => textVeryLow d
          | Low => textLow d
          | Backordered => textNoStockBackordered d
          | NormalStock | InStock => textNormal d
          | NoStock => textNoStock d
          end.

(** Lines 64-136: [updateInventory(count, available, inventoryPolicy)],
    for a count that is an integer or [NaN].  The indicator bar of lines
    121-132, whose width is a floating-point fraction, is left out: it is
    written last and nothing else reads it. *)
Definition updateInventory (d : Dataset) (st : Strings)
    (count : JsNum.Num) (avail : bool) (inventoryPolicy : option string)
    : M State unit :=
  (let l := levelOf d count avail inventoryPolicy in
   if visible d l then
     (modify (fun s => mkState false (Some (level_name l))
                         (inventoryNotice s) (urgencyMessage s)) ;;
      s <- get ;;
      _ <- deref "this.inventoryNotice is null" (inventoryNotice s) ;;
      modify (fun s => mkState (hidden s) (inventoryLevel s)
                         (Some (noticeText d st l count))
                         (urgencyMessage s)) ;;
      modify (fun s =>
        match urgencyMessage s with
        | Some _ => mkState (hidden s) (inventoryLevel s)
                      (inventoryNotice s) (Some (urgencyText d l))
        | None => s
        end))
   else
     modify (fun s => mkState true (inventoryLevel s) (inventoryNotice s)
                        (urgencyMessage s)))%js.

(** Lines 41-55: [handleVariantChange(evt)]; [variant] is the id of
    [evt.detail.variant], [None] when the detail has no variant. *)
Definition handleVariantChange (d : Dataset) (st : Strings)
    (variantInventory : list Variant) (variant : option Z)
    : M State unit :=
  match variant with
  | Some i =>
      (inventory <- deref "inventory is undefined"
                      (find (fun v => Z.eqb (v_id v) i) variantInventory) ;;
       updateInventory d st (inventory_quantity inventory)
         (available inventory) (inventory_policy inventory))%js
  | None =>
      (updateInventory d st (Some 0%Z) false None ;;
       modify (fun s => mkState true (inventoryLevel s) (inventoryNotice s)
                          (urgencyMessage s)))%js
  end.

End ProductInventory.

(** ** StoreHeader: the shaking cart icon (assets/main.js, lines 897-985)
    and theme.storageUtil (lines 866-895) *)

Module StoreHeader.

(** [sessionStorage]: the string stored under each key. *)
Definition Storage : Type := string -> option string.

Definition getItem (k : string) (st : Storage) : option string := st k.

Definition setItem (k v : string) (st : Storage) : Storage :=
  fun k' => if String.eqb k' k then Some v else st k'.

(** [theme.storageUtil.get(key, false, true)], lines 880-886. *)
Definition storage_get (key : string) (st : Storage) : option string :=
  getItem ("cc-" ++ key) st.

(** [theme.storageUtil.set(key, value, true)] for a number, lines 869-878:
    a number is no object, so it is stored as [String(value)]. *)
Definition storage_set (key : string) (value : JsNum.Num) (st : Storage)
    : Storage :=
  setItem ("cc-" ++ key) (JsNum.toString value) st.

(** Lines 974-985 of [init], on a header whose cart icon was rendered
    with the class [header__icon--cart-shake]: the session storage after
    it, and whether the icon still has the class.  [shakeFrequency] is the
    [data-shake-frequency] attribute of the icon. *)
Definition countPage (shakeFrequency : option string) (st : Storage)
    : Storage * bool :=
  let pageCount :=
    match storage_get "shake-page-count" st with
    | Some v => if truthy v then JsNum.succ (JsNum.parseInt v)
                else Some 1%Z
    | None => Some 1%Z
    end in
  let frequency :=
    JsNum.parseInt (match shakeFrequency with
                    | Some v => v
                    | None => "undefined"
                    end) in
  if JsNum.lt pageCount frequency
  then (storage_set "shake-page-count" pageCount st, false)
  else (storage_set "shake-page-count" (Some 0%Z) st, true).

(** One run of [init] (lines 954-985) on a header with a shaking icon:
    the session storage and whether the icon has the class, before and
    after.  [this.shakeyCartIcon] is found once, by the constructor (line
    904), so the block runs also after the class is gone; the class is
    only ever removed.  The calls before the block set CSS variables and
    are taken to return. *)
Definition init (shakeFrequency : option string) (p : Storage * bool)
    : Storage * bool :=
  let r := countPage shakeFrequency (fst p) in
  (fst r, snd p && snd r).




End StoreHeader.

(** ** A small collection page, used to exercise the model *)

Module Examples.
Import Dom FacetFilters.

(** One filter group for the colour, as rendered in the live form or in a
    fetched fragment: uids start at [b], [o] is the [open] attribute. *)
Definition colorFilter (b : nat) (o : bool) : node :=
  Elem b "details-disclosure" "" [] false
    [Elem (b + 1) "details" "filter-color" ["filter"] o
       [Elem (b + 2) "ul" "" []  false
          [Elem (b + 3) "li" "" [] false [Text "Red"];
           Elem (b + 4) "li" "" ["js-hidden"] false [Text "Blue"]];
        Elem (b + 5) "div" "" ["filter__more"] false
          [Elem (b + 6) "button" "" ["js-show-more"] false
             [Text "Show more"]]]].

Definition sizeFilter (b : nat) (o : bool) : node :=
  Elem b "details-disclosure" "" [] false
    [Elem (b + 1) "details" "filter-size" ["filter"] o
       [Elem (b + 2) "ul" "" [] false
          [Elem (b + 3) "li" "" [] false [Text "S"]]]].

Definition facetsContent (b : nat) (o1 o2 : bool) : forest :=
  [Elem b "div" "" ["facets__filters"] false
     [colorFilter (b + 10) o1; sizeFilter (b + 20) o2];
   Elem (b + 1) "div" "" ["facets__active-filters"] false []].

Definition liveResults : forest :=
  [Elem 50 "ul" "" ["grid"; "grid--4"] false
     [Elem 51 "li" "" ["js-pagination-result"] false [Text "Shirt"];
      Elem 52 "li" "" ["js-pagination-result"] false [Text "Hat"]]].

(** A section response: the facets form with every group closed and
    collapsed, the drawer button and the filtered results. *)
Definition response : forest :=
  [Elem 100 "form" "facets" [] false (facetsContent 101 false false);
   Elem 140 "button" "" ["js-close-drawer-mob"] false [Text "Show 1 result"];
   Elem 150 "div" "filter-results" [] false
     [Elem 151 "ul" "" ["grid"] false
        [Elem 152 "li" "" ["js-pagination-result"] false [Text "Shirt"]]]].

(** The page after [init]: the colour group open, the size group closed. *)
Definition page : State :=
  init "/collections/x" true false false (Some "template--1__main")
    (facetsContent 1 true false) liveResults
    (Some (mkCloseBtn None ["btn"] "Show 2 results"))
    (Some (mkPagination (Some "false") true 0)).

(** A collection with a second page: the element holds two results, the
    pagination and its load-more link; the page has one element shown only
    while there is pagination. *)
Definition paginated : CustomPagination.State :=
  CustomPagination.construct true (Some "false") 1
    (CustomPagination.mkView
       (Some (CustomPagination.mkPaginationEl (Some "modern") (Some "true")
                false true))
       (Some "/collections/x?page=2")
       ["<li>Shirt</li>"; "<li>Hat</li>"]).

(** The last page: one more result, and a pagination element without
    [data-is-more-results]. *)
Definition lastPage : CustomPagination.Page :=
  CustomPagination.mkPage ["<li>Scarf</li>"]
    (Some (CustomPagination.mkNewPagination None None)).

(** A collection that fits one page: no pagination is rendered. *)
Definition singlePage : CustomPagination.State :=
  CustomPagination.construct false (Some "false") 0
    (CustomPagination.mkView None None ["<li>Shirt</li>"]).

(** A cart drawer as its constructor leaves it, and a refresh whose fetch
    fails. *)
Definition drawer : CartDrawer.State :=
  CartDrawer.construct (Some [Text "old drawer"]) (Some [Text "old bubble"]).

Definition offline : CartDrawer.Env :=
  CartDrawer.mkEnv None (Some "shopify-section-cart-drawer")
    (Throw NetworkError) (Normal (fun _ => None)) (Normal tt).

End Examples.

(* ================================================================== *)
(** * Properties *)

(** ** URLSearchParams and the form serialization *)

Example toString_example :
  URLSearchParams.toString [("filter.v.option.color", "Red"); ("q", "a b&c")]
  = "filter.v.option.color=Red&q=a+b%26c".
Proof. reflexivity. Qed.

(** ** State and exceptions *)

Lemma preserves_ret {S A X} (view : S -> X) (a : A) :
  preserves view (@ret S A a).
Proof. intros s. reflexivity. Qed.

Lemma preserves_throw {S A X} (view : S -> X) e :
  preserves view (@throw S A e).
Proof. intros s. reflexivity. Qed.

Lemma preserves_get {S X} (view : S -> X) : preserves view (@get S).
Proof. intros s. reflexivity. Qed.

Lemma preserves_deref {S A X} (view : S -> X) what (o : option A) :
  preserves view (@deref S A what o).
Proof. intros s. destruct o; reflexivity. Qed.

Lemma preserves_modify {S X} (view : S -> X) (f : S -> S) :
  (forall s, view (f s) = view s) -> preserves view (modify f).
Proof. intros H s. apply H. Qed.

Lemma preserves_bind {S A B X} (view : S -> X) (m : M S A)
    (k : A -> M S B) :
  preserves view m -> (forall a, preserves view (k a)) ->
  preserves view (bind m k).
Proof.
  intros Hm Hk s. unfold bind.
  specialize (Hm s). destruct (m s) as [[a|e] s1]; simpl in *.
  - rewrite Hk. exact Hm.
  - exact Hm.
Qed.

Lemma preserves_if {S A X} (view : S -> X) (b : bool) (m1 m2 : M S A) :
  preserves view m1 -> preserves view m2 ->
  preserves view (if b then m1 else m2).
Proof. destruct b; auto. Qed.

Lemma bind_get {S B} (k : S -> M S B) s : bind get k s = k s s.
Proof. reflexivity. Qed.

Lemma bind_deref_some {S A B} what (a : A) (k : A -> M S B) s :
  bind (deref what (Some a)) k s = k a s.
Proof. reflexivity. Qed.

Lemma bind_deref_none {S A B} what (k : A -> M S B) s :
  bind (deref what None) k s = (Throw (TypeError what), s).
Proof. reflexivity. Qed.

Lemma bind_modify {S B} (f : S -> S) (k : unit -> M S B) s :
  bind (modify f) k s = k tt (f s).
Proof. reflexivity. Qed.

Ltac preserve :=
  repeat first
    [ apply preserves_ret | apply preserves_throw | apply preserves_get
    | apply preserves_deref
    | apply preserves_if
    | match goal with
      | |- preserves _ (match ?x with _ => _ end) => destruct x
      end
    | apply preserves_bind; [ | intros ? ]
    | apply preserves_modify; intros ? ].

Section FormSerialization.
Import FilterChange.

Lemma In_delete name (p : URLSearchParams.t) kv :
  In kv (URLSearchParams.delete name p) <-> In kv p /\ fst kv <> name.
Proof.
  unfold URLSearchParams.delete. rewrite filter_In.
  rewrite negb_true_iff, String.eqb_neq. reflexivity.
Qed.

Lemma In_removeParams names : forall (p : URLSearchParams.t) kv,
  In kv (removeParams names p) <-> In kv p /\ ~ In (fst kv) names.
Proof.
  unfold removeParams.
  induction names as [|n names IH]; intros p kv; simpl.
  - tauto.
  - rewrite IH, In_delete. intuition congruence.
Qed.

Lemma In_emptyParams (p : URLSearchParams.t) k :
  In k (emptyParams p) <-> In (k, "") p.
Proof.
  unfold emptyParams. rewrite in_map_iff. split.
  - intros [[k' v] [Hk Hin]]. simpl in Hk. subst k'.
    apply filter_In in Hin as [Hin Hv]. simpl in Hv.
    unfold truthy in Hv. rewrite negb_involutive in Hv.
    apply String.eqb_eq in Hv. subst v. exact Hin.
  - intros Hin. exists (k, ""). split; [reflexivity|].
    apply filter_In. split; [exact Hin|reflexivity].
Qed.

(** Stripping leaves no empty value, and no tuple at all under a name that
    had one. *)
Lemma strip_spec (q : URLSearchParams.t) k v :
  In (k, v) (removeParams (emptyParams q) q) <->
  In (k, v) q /\ ~ In (k, "") q.
Proof. rewrite In_removeParams, In_emptyParams. reflexivity. Qed.

Lemma In_set_other name value : forall (p : URLSearchParams.t) kv,
  fst kv <> name ->
  (In kv (URLSearchParams.set name value p) <-> In kv p).
Proof.
  induction p as [|[k v] p IH]; intros kv Hne; simpl.
  - split; [intros [<-|[]]; simpl in Hne; congruence|tauto].
  - destruct (String.eqb k name) eqn:E.
    + apply String.eqb_eq in E. subst k. simpl. rewrite In_delete.
      split.
      * intros [<-|[H _]]; [simpl in Hne; congruence|auto].
      * intros [<-|H]; [simpl in Hne; congruence|auto].
    + simpl. rewrite IH by exact Hne. reflexivity.
Qed.

(** The parameters before stripping: the form's, with [sort_by] merged in
    when sorting is enabled. *)
Lemma filterParams_inv so fd opts evt p opts' :
  filterParams so fd opts evt = Normal (p, opts') ->
  exists q : URLSearchParams.t,
    p = removeParams (emptyParams q) q /\
    (forall kv, (so = false \/ fst kv <> "sort_by") -> (In kv q <-> In kv fd)).
Proof.
  unfold filterParams. destruct so.
  - destruct (syncSortBy opts evt _) as [[o sb]|e]; [|discriminate].
    intros H. inversion H; subst. eexists. split; [reflexivity|].
    intros kv [Hf|Hk]; [discriminate|]. apply In_set_other. exact Hk.
  - intros H. inversion H; subst. exists fd. split; [reflexivity|].
    intros. reflexivity.
Qed.

(** *** What the serialized string holds *)

Lemma lacks_app c a b :
  URLSearchParams.lacks c (a ++ b)
  = URLSearchParams.lacks c a && URLSearchParams.lacks c b.
Proof.
  induction a as [|d a IH]; simpl; [reflexivity|].
  rewrite IH. apply andb_assoc.
Qed.

(** The serializer escapes both separators. *)
Lemma encode_byte_lacks c :
  URLSearchParams.lacks "&" (URLSearchParams.encode_byte c) = true /\
  URLSearchParams.lacks "=" (URLSearchParams.encode_byte c) = true.
Proof.
  destruct c as [[] [] [] [] [] [] [] []]; split; reflexivity.
Qed.

Lemma encode_lacks s :
  URLSearchParams.lacks "&" (URLSearchParams.encode s) = true /\
  URLSearchParams.lacks "=" (URLSearchParams.encode s) = true.
Proof.
  induction s as [|c s [IH1 IH2]]; simpl; [split; reflexivity|].
  rewrite !lacks_app, IH1, IH2.
  destruct (encode_byte_lacks c) as [-> ->]. split; reflexivity.
Qed.

Lemma encode_byte_nonempty c : URLSearchParams.encode_byte c <> "".
Proof.
  unfold URLSearchParams.encode_byte.
  destruct (URLSearchParams.unreserved c); [discriminate|].
  destruct (nat_of_ascii c =? 32); discriminate.
Qed.

Lemma encode_empty s : URLSearchParams.encode s = "" -> s = "".
Proof.
  destruct s as [|c s]; simpl; [reflexivity|]. intros H. exfalso.
  destruct (URLSearchParams.encode_byte c) eqn:E;
    [exact (encode_byte_nonempty c E) | discriminate].
Qed.

Lemma split_on_nonempty sep s : URLSearchParams.split_on sep s <> [].
Proof.
  destruct s as [|c s]; simpl; [discriminate|].
  destruct (Ascii.eqb c sep); [discriminate|].
  destruct (URLSearchParams.split_on sep s); discriminate.
Qed.

Lemma split_on_lacks sep a :
  URLSearchParams.lacks sep a = true ->
  URLSearchParams.split_on sep a = [a].
Proof.
  induction a as [|c a IH]; simpl; [reflexivity|].
  intros H. apply andb_true_iff in H as [Hc Ha].
  apply negb_true_iff in Hc. rewrite Hc, (IH Ha). reflexivity.
Qed.

Lemma split_on_app sep a b :
  URLSearchParams.lacks sep a = true ->
  URLSearchParams.split_on sep (a ++ String sep b)
  = a :: URLSearchParams.split_on sep b.
Proof.
  induction a as [|c a IH]; simpl.
  - intros _. rewrite Ascii.eqb_refl. reflexivity.
  - intros H. apply andb_true_iff in H as [Hc Ha].
    apply negb_true_iff in Hc. rewrite Hc, (IH Ha). reflexivity.
Qed.

Lemma cut_app sep a b :
  URLSearchParams.lacks sep a = true ->
  URLSearchParams.cut sep (a ++ String sep b) = (a, b).
Proof.
  induction a as [|c a IH]; simpl.
  - intros _. rewrite Ascii.eqb_refl. reflexivity.
  - intros H. apply andb_true_iff in H as [Hc Ha].
    apply negb_true_iff in Hc. rewrite Hc, (IH Ha). reflexivity.
Qed.

Lemma string_app_assoc (a b c : string) :
  ((a ++ b) ++ c = a ++ b ++ c)%string.
Proof. induction a as [|x a IH]; simpl; [reflexivity|]. rewrite IH. reflexivity. Qed.

Lemma app_eq_empty (a b : string) : (a ++ b = "" -> a = "" /\ b = "")%string.
Proof. destruct a; simpl; [auto|discriminate]. Qed.

(** One serialized tuple is one sequence of the query string. *)
Lemma tuple_sequence k v :
  let seq := (URLSearchParams.encode k ++ "=" ++ URLSearchParams.encode v)%string in
  URLSearchParams.lacks "&" seq = true /\
  String.eqb seq "" = false /\
  URLSearchParams.cut "=" seq
  = (URLSearchParams.encode k, URLSearchParams.encode v).
Proof.
  cbv zeta. destruct (encode_lacks k) as [Hk1 Hk2].
  destruct (encode_lacks v) as [Hv1 _]. repeat split.
  - rewrite lacks_app, Hk1. simpl. exact Hv1.
  - apply String.eqb_neq. intros H.
    apply app_eq_empty in H as [_ H]. discriminate.
  - apply (cut_app "=" _ _ Hk2).
Qed.

(** Parsing reads back the serialized tuples, each name and value as it was
    encoded. *)
Lemma sequences_toString (p : URLSearchParams.t) :
  URLSearchParams.sequences (URLSearchParams.toString p)
  = map (fun kv => (URLSearchParams.encode (fst kv),
                    URLSearchParams.encode (snd kv))) p.
Proof.
  unfold URLSearchParams.sequences.
  induction p as [|[k v] p IH]; [reflexivity|].
  destruct (tuple_sequence k v) as (Hl & Hne & Hcut).
  destruct p as [|kv' p].
  - change (URLSearchParams.toString [(k, v)])
      with (URLSearchParams.encode k ++ "=" ++ URLSearchParams.encode v)%string.
    rewrite (split_on_lacks _ _ Hl).
    cbn [filter map]. rewrite Hne. cbn [negb map].
    rewrite Hcut. reflexivity.
  - change (URLSearchParams.toString ((k, v) :: kv' :: p))
      with (URLSearchParams.encode k ++ "=" ++ URLSearchParams.encode v
            ++ "&" ++ URLSearchParams.toString (kv' :: p))%string.
    replace (URLSearchParams.encode k ++ "=" ++ URLSearchParams.encode v
             ++ "&" ++ URLSearchParams.toString (kv' :: p))%string
      with ((URLSearchParams.encode k ++ "=" ++ URLSearchParams.encode v)
            ++ String "&" (URLSearchParams.toString (kv' :: p)))%string.
    + rewrite (split_on_app _ _ _ Hl).
      cbn [filter map]. rewrite Hne. cbn [negb map].
      rewrite Hcut, IH. reflexivity.
    + rewrite !string_app_assoc. reflexivity.
Qed.

(** C6. Whenever [handleFilterChange] reaches its [applyFilters] call, the
    string it passes is the serialization of its [searchParams] object,
    which by then holds no tuple with an empty value; and none of the
    parameters a parser finds in that string has an empty value. *)
Theorem handleFilterChange_strips_empty :
  forall (sortingEnabled : bool) (formData : list (string * string))
         (opts : list SortOption) (evt : Event)
         (searchParams : string) (opts' : list SortOption),
    handleFilterChange sortingEnabled formData opts evt
      = Normal (searchParams, opts') ->
    (exists p : URLSearchParams.t,
        filterParams sortingEnabled formData opts evt = Normal (p, opts') /\
        searchParams = URLSearchParams.toString p /\
        forall k v, In (k, v) p -> v <> "") /\
    (forall k v, In (k, v) (URLSearchParams.sequences searchParams) -> v <> "").
Proof.
  intros so fd opts evt str opts' H. unfold handleFilterChange in H.
  destruct (filterParams so fd opts evt) as [[p o]|e] eqn:Hp; [|discriminate].
  inversion H; subst. clear H.
  assert (Hne : forall k v, In (k, v) p -> v <> "").
  { destruct (filterParams_inv _ _ _ _ _ _ Hp) as (q & -> & _).
    intros k v Hin Hv. subst v. apply strip_spec in Hin. tauto. }
  split.
  - exists p. auto.
  - intros k v Hin Hv. rewrite sequences_toString in Hin.
    apply in_map_iff in Hin as ([k0 v0] & E & Hin0). simpl in E.
    apply (f_equal snd) in E. simpl in E.
    apply (Hne k0 v0 Hin0). apply encode_empty. congruence.
Qed.

(** C9, as the code has it.  For a name other than [sort_by], or for any name
    when sorting is disabled: if the serialized form holds it with an empty
    value, no tuple with that name is left in the parameters passed on,
    whatever other values the form held under it. *)
Theorem strip_removes_every_occurrence :
  forall (sortingEnabled : bool) (formData : list (string * string))
         (opts : list SortOption) (evt : Event)
         (p : URLSearchParams.t) (opts' : list SortOption) (k : string),
    filterParams sortingEnabled formData opts evt = Normal (p, opts') ->
    sortingEnabled = false \/ k <> "sort_by" ->
    In (k, "") formData ->
    forall v, ~ In (k, v) p.
Proof.
  intros so fd opts evt p opts' k Hp Hk Hin v Hv.
  destruct (filterParams_inv _ _ _ _ _ _ Hp) as (q & -> & Hq).
  apply strip_spec in Hv as [_ Hv]. apply Hv.
  apply (Hq (k, "")); assumption.
Qed.

Lemma handleFilterChange_strips_empty_witness :
  handleFilterChange false [("q", ""); ("filter.v.option.color", "Red")] []
    (mkEvent "INPUT" None)
  = Normal ("filter.v.option.color=Red", []) /\
  URLSearchParams.sequences "filter.v.option.color=Red"
  = [("filter.v.option.color", "Red")] /\
  forall k v,
    In (k, v) (URLSearchParams.sequences "filter.v.option.color=Red") ->
    v <> "".
Proof.
  split; [reflexivity|]. split; [reflexivity|].
  apply (handleFilterChange_strips_empty false
           [("q", ""); ("filter.v.option.color", "Red")] []
           (mkEvent "INPUT" None) _ []).
  reflexivity.
Defined.

Lemma strip_removes_every_occurrence_witness :
  filterParams true [("a", "1"); ("a", ""); ("b", "2")] []
    (mkEvent "INPUT" None)
  = Normal ([("b", "2"); ("sort_by", "null")], []) /\
  forall v, ~ In ("a", v) [("b", "2"); ("sort_by", "null")].
Proof.
  split; [reflexivity|].
  apply (strip_removes_every_occurrence true
           [("a", "1"); ("a", ""); ("b", "2")] []
           (mkEvent "INPUT" None) _ [] "a").
  - reflexivity.
  - right. discriminate.
  - simpl. right. left. reflexivity.
Defined.

(** C9 as stated fails for [sort_by] when sorting is enabled: the form
    holds it with a non-empty and with an empty value, and it is passed
    on.  [set('sort_by', ...)] has collapsed the tuples into one before the
    empty ones are collected. *)
Lemma sort_by_survives_stripping :
  In ("sort_by", "") [("sort_by", "price"); ("sort_by", "")] /\
  In ("sort_by", "price") [("sort_by", "price"); ("sort_by", "")] /\
  filterParams true [("sort_by", "price"); ("sort_by", "")] []
    (mkEvent "INPUT" None)
  = Normal ([("sort_by", "price")], []) /\
  handleFilterChange true [("sort_by", "price"); ("sort_by", "")] []
    (mkEvent "INPUT" None)
  = Normal ("sort_by=price", []).
Proof.
  repeat split; simpl; auto.
Qed.

End FormSerialization.

(** ** The DOM: elements, ancestors and writes *)

Section DomProps.
Import Dom.
Local Open Scope list_scope.

(** Induction over a tree, with the hypothesis for every child. *)
Lemma node_rect_kids (P : node -> Prop) :
  (forall s, P (Text s)) ->
  (forall u t i c o ks, Forall P ks -> P (Elem u t i c o ks)) ->
  forall n, P n.
Proof.
  intros HT HE.
  fix IH 1. intros [s|u t i c o ks].
  - apply HT.
  - apply HE. induction ks as [|k ks IHks]; constructor.
    + apply IH.
    + exact IHks.
Qed.

Lemma flat_map_ext_Forall {A B} (f g : A -> list B) l :
  Forall (fun x => f x = g x) l -> flat_map f l = flat_map g l.
Proof.
  induction 1 as [|x l Hx _ IH]; simpl; [reflexivity|].
  rewrite Hx, IH. reflexivity.
Qed.

(** Ancestors further up only extend the ancestor lists. *)
Lemma nodes_under_base n : forall anc,
  nodes_under anc n =
  map (fun an => (fst an ++ anc, snd an)) (nodes_under [] n).
Proof.
  induction n as [s|u t i c o ks IH] using node_rect_kids; intros anc.
  - reflexivity.
  - simpl. f_equal. rewrite !flat_map_concat_map, concat_map, !map_map.
    f_equal. apply map_ext_Forall.
    eapply Forall_impl; [|exact IH]. intros k Hk. simpl in Hk.
    rewrite (Hk (Elem u t i c o ks :: anc)), (Hk [Elem u t i c o ks]).
    rewrite map_map. apply map_ext. intros [a m]. simpl.
    rewrite <- app_assoc. reflexivity.
Qed.

(** The elements below an element are those of its content, with the
    element and its own ancestors added above. *)
Lemma nodes_under_kids anc u t i c o ks :
  nodes_under anc (Elem u t i c o ks) =
  (anc, Elem u t i c o ks) ::
  map (fun an => (fst an ++ Elem u t i c o ks :: anc, snd an)) (nodes_in ks).
Proof.
  simpl. f_equal. unfold nodes_in.
  rewrite !flat_map_concat_map, concat_map, map_map. f_equal.
  apply map_ext. intros k. apply nodes_under_base.
Qed.

Lemma nodes_in_cons n f :
  nodes_in (n :: f) = nodes_under [] n ++ nodes_in f.
Proof. reflexivity. Qed.

Lemma nodes_in_app f g :
  nodes_in (f ++ g) = nodes_in f ++ nodes_in g.
Proof. unfold nodes_in. apply flat_map_app. Qed.

(** Only elements are listed. *)
Lemma nodes_under_elem n : forall anc a m,
  In (a, m) (nodes_under anc n) ->
  exists u t i c o ks, m = Elem u t i c o ks.
Proof.
  induction n as [s|u t i c o ks IH] using node_rect_kids; intros anc a m H.
  - contradiction.
  - simpl in H. destruct H as [H|H].
    + inversion H; subst. eauto 10.
    + apply in_flat_map in H as [k [Hk Hin]].
      rewrite Forall_forall in IH. eapply IH; eauto.
Qed.

Lemma nodes_in_elem f a m :
  In (a, m) (nodes_in f) ->
  exists u t i c o ks, m = Elem u t i c o ks.
Proof.
  unfold nodes_in. intros H. apply in_flat_map in H as [k [_ Hin]].
  eapply nodes_under_elem; eauto.
Qed.

(** Every element listed below [n] is [n] or has [n] among its ancestors,
    above which come the ancestors of [n]. *)
Lemma nodes_under_anc n anc a m :
  In (a, m) (nodes_under anc n) ->
  (m = n /\ a = anc) \/ (exists pre, a = pre ++ n :: anc).
Proof.
  destruct n as [s|u t i c o ks]; [contradiction|].
  simpl. intros [H|H].
  - inversion H; subst. left. auto.
  - right. apply in_flat_map in H as [k [_ Hin]].
    rewrite nodes_under_base in Hin.
    apply in_map_iff in Hin as [[a0 m0] [E _]]. inversion E; subst.
    simpl. eauto.
Qed.

Lemma flat_map_map {A B C} (f : B -> list C) (g : A -> B) l :
  flat_map f (map g l) = flat_map (fun x => f (g x)) l.
Proof.
  induction l as [|x l IH]; simpl; [reflexivity|]. rewrite IH. reflexivity.
Qed.

Lemma map_flat_map {A B C} (f : A -> list B) (g : B -> C) l :
  map g (flat_map f l) = flat_map (fun x => map g (f x)) l.
Proof.
  induction l as [|x l IH]; simpl; [reflexivity|].
  rewrite map_app, IH. reflexivity.
Qed.

Lemma filter_flat_map {A B} (f : A -> list B) (p : B -> bool) l :
  filter p (flat_map f l) = flat_map (fun x => filter p (f x)) l.
Proof.
  induction l as [|x l IH]; simpl; [reflexivity|].
  rewrite filter_app, IH. reflexivity.
Qed.

Lemma update_root u g n :
  uid_of (update u g n) = uid_of n /\ tag_of (update u g n) = tag_of n /\
  id_of (update u g n) = id_of n /\
  kids_of (update u g n) = update_in u g (kids_of n).
Proof.
  destruct n as [s|v t i c o ks]; simpl; auto.
  destruct (if v =? u then g (c, o) else (c, o)). simpl. auto.
Qed.

Lemma has_uid_update u g v n : has_uid v (update u g n) = has_uid v n.
Proof.
  destruct n as [s|w t i c o ks]; simpl; auto.
  destruct (if w =? u then g (c, o) else (c, o)). reflexivity.
Qed.

Lemma has_uid_prune u v n : has_uid v (prune u n) = has_uid v n.
Proof. destruct n; reflexivity. Qed.

(** Rewriting attributes moves no element. *)
Lemma nodes_under_update u g n : forall anc,
  nodes_under (map (update u g) anc) (update u g n) =
  map (fun an => (map (update u g) (fst an), update u g (snd an)))
    (nodes_under anc n).
Proof.
  induction n as [s|v t i c o ks IH] using node_rect_kids; intros anc.
  - reflexivity.
  - assert (HN : exists c' o',
              update u g (Elem v t i c o ks)
              = Elem v t i c' o' (map (update u g) ks)).
    { simpl. destruct (if v =? u then g (c, o) else (c, o)) as [c' o'].
      eauto. }
    destruct HN as (c' & o' & HN). rewrite HN.
    cbn [nodes_under map fst snd]. rewrite HN. f_equal.
    rewrite flat_map_map, map_flat_map.
    apply flat_map_ext_Forall.
    eapply Forall_impl; [|exact IH]. intros k Hk. simpl.
    rewrite <- HN. apply (Hk (Elem v t i c o ks :: anc)).
Qed.

Lemma nodes_in_update u g f :
  nodes_in (update_in u g f) =
  map (fun an => (map (update u g) (fst an), update u g (snd an)))
    (nodes_in f).
Proof.
  unfold nodes_in, update_in. rewrite flat_map_map, map_flat_map.
  apply flat_map_ext. intros k. apply (nodes_under_update u g k []).
Qed.

(** Nothing below a removed element stays. *)
Lemma nodes_under_pruned u n anc :
  has_uid u n = true ->
  filter (survives (Remove u)) (nodes_under anc n) = [].
Proof.
  intros Hu.
  assert (H : forall an, In an (nodes_under anc n) ->
                         survives (Remove u) an = false).
  { intros [a m] Hin. simpl.
    destruct (nodes_under_anc _ _ _ _ Hin) as [[-> ->]|[pre ->]].
    - rewrite Hu. reflexivity.
    - destruct (has_uid u m); simpl; auto.
      rewrite forallb_app. simpl. rewrite Hu. simpl.
      apply andb_false_r. }
  induction (nodes_under anc n) as [|x l IH]; cbn [filter]; auto.
  rewrite (H x (or_introl eq_refl)). apply IH.
  intros an Hin. apply H. right. exact Hin.
Qed.

(** Removing [u] drops the elements at or below it and moves no other. *)
Lemma nodes_under_prune u n : forall anc,
  forallb (fun x => negb (has_uid u x)) anc = true ->
  has_uid u n = false ->
  nodes_under (map (prune u) anc) (prune u n) =
  map (write_entry (Remove u))
    (filter (survives (Remove u)) (nodes_under anc n)).
Proof.
  induction n as [s|v t i c o ks IH] using node_rect_kids; intros anc Ha Hn.
  - reflexivity.
  - cbn [prune nodes_under filter survives fst snd].
    cbn [forallb]. rewrite Hn, Ha. cbn [negb andb map write_entry fst snd].
    cbn [write_node prune]. f_equal.
    rewrite filter_flat_map, map_flat_map.
    set (N := Elem v t i c o ks) in *.
    set (N' := Elem v t i c o
                 (filter (fun k => negb (has_uid u k)) (map (prune u) ks))).
    assert (HN : N' :: map (prune u) anc = map (prune u) (N :: anc))
      by reflexivity.
    rewrite HN.
    assert (Ha' : forallb (fun x => negb (has_uid u x)) (N :: anc) = true).
    { simpl. rewrite Ha. unfold N. simpl in *. rewrite Hn. reflexivity. }
    clearbody N N'. clear HN.
    remember (map (prune u) (N :: anc)) as M eqn:HM.
    induction ks as [|k ks IHks]; [reflexivity|].
    pose proof (Forall_inv IH) as Hk. pose proof (Forall_inv_tail IH) as Hks.
    cbn [map filter flat_map]. rewrite has_uid_prune.
    destruct (has_uid u k) eqn:Hku; cbn [negb flat_map].
    + rewrite nodes_under_pruned by exact Hku. simpl. apply IHks, Hks.
    + pose proof (Hk (N :: anc) Ha' Hku) as E. rewrite <- HM in E.
      rewrite E. f_equal. apply IHks, Hks.
Qed.

Lemma nodes_in_remove u f :
  nodes_in (remove u f) =
  map (write_entry (Remove u)) (filter (survives (Remove u)) (nodes_in f)).
Proof.
  unfold nodes_in, remove. rewrite filter_flat_map, map_flat_map.
  induction f as [|k f IH]; [reflexivity|].
  cbn [map filter flat_map]. rewrite has_uid_prune.
  destruct (has_uid u k) eqn:Hku; cbn [negb flat_map].
  - rewrite nodes_under_pruned by exact Hku. simpl. exact IH.
  - rewrite <- (nodes_under_prune u k [] eq_refl Hku). simpl.
    f_equal. exact IH.
Qed.

(** Where the elements of a tree are after a write. *)
Lemma nodes_in_write w f :
  nodes_in (write_forest w f) =
  map (write_entry w) (filter (survives w) (nodes_in f)).
Proof.
  assert (Hall : forall l : list (list node * node),
             filter (fun _ => true) l = l).
  { induction l as [|x l IH]; simpl; congruence. }
  destruct w as [u v|c u|u]; simpl.
  - rewrite nodes_in_update. unfold survives. rewrite Hall. reflexivity.
  - unfold classList_remove. rewrite nodes_in_update. unfold survives.
    rewrite Hall. reflexivity.
  - apply nodes_in_remove.
Qed.

(** *** What a write keeps *)

Lemma write_root w n :
  uid_of (write_node w n) = uid_of n /\ tag_of (write_node w n) = tag_of n /\
  id_of (write_node w n) = id_of n.
Proof.
  destruct w as [u v|c u|u]; simpl;
    try (destruct (update_root u (fun co => (fst co, v)) n) as (?&?&?&?));
    try (destruct (update_root u (fun co => (remove_class c (fst co), snd co))
                     n) as (?&?&?&?)); auto.
  destruct n; auto.
Qed.

Lemma write_has_uid w v n : has_uid v (write_node w n) = has_uid v n.
Proof.
  destruct w; simpl; auto using has_uid_update, has_uid_prune.
Qed.

Lemma write_has_tag w t n : has_tag t (write_node w n) = has_tag t n.
Proof. unfold has_tag. destruct (write_root w n) as (_&->&_). reflexivity. Qed.

Lemma write_has_id w i n : has_id i (write_node w n) = has_id i n.
Proof. unfold has_id. destruct (write_root w n) as (_&_&->). reflexivity. Qed.

(** The content of a written element is its content, written. *)
Lemma write_kids w n :
  kids_of (write_node w n) = write_forest w (kids_of n).
Proof.
  destruct w as [u v|c u|u]; simpl.
  - apply update_root.
  - apply update_root.
  - destruct n; reflexivity.
Qed.

Lemma write_open w n :
  is_open (write_node w n) =
  match w with
  | SetOpen u v => if has_uid u n then v else is_open n
  | _ => is_open n
  end.
Proof.
  destruct w as [u v|c u|u]; destruct n as [s|x t i cl o ks]; simpl; auto;
    destruct (x =? u); reflexivity.
Qed.

Lemma includes_remove_class c l : includes c (remove_class c l) = false.
Proof.
  unfold includes, remove_class. induction l as [|x l IH]; simpl; auto.
  destruct (String.eqb x c) eqn:E; simpl; auto.
  rewrite IH, orb_false_r. rewrite String.eqb_sym. exact E.
Qed.

Lemma includes_remove_other c c' l :
  c <> c' -> includes c (remove_class c' l) = includes c l.
Proof.
  intros Hne. unfold includes, remove_class.
  induction l as [|x l IH]; simpl; auto.
  destruct (String.eqb x c') eqn:E; simpl; rewrite IH; auto.
  apply String.eqb_eq in E. subst x.
  destruct (String.eqb c c') eqn:E'; auto.
  apply String.eqb_eq in E'. contradiction.
Qed.

Lemma write_class w c n :
  has_class c (write_node w n) =
  match w with
  | RemoveClass c' u =>
      if has_uid u n then has_class c n && negb (String.eqb c c')
      else has_class c n
  | _ => has_class c n
  end.
Proof.
  destruct w as [u v|c' u|u]; destruct n as [s|x t i cl o ks];
    unfold has_class; simpl; auto; destruct (x =? u); simpl; auto.
  destruct (String.eqb c c') eqn:E.
  - apply String.eqb_eq in E. subst. rewrite andb_false_r.
    apply includes_remove_class.
  - rewrite andb_true_r. apply includes_remove_other.
    apply String.eqb_neq. exact E.
Qed.

(** Classes are only taken away. *)
Lemma write_class_shrinks w c n :
  has_class c (write_node w n) = true -> has_class c n = true.
Proof.
  rewrite write_class. destruct w; auto.
  destruct (has_uid u n); auto. intros H.
  apply andb_true_iff in H. tauto.
Qed.

(** The elements after a write are the written surviving elements. *)
Lemma In_write w f e' :
  In e' (nodes_in (write_forest w f)) <->
  exists e, In e (nodes_in f) /\ survives w e = true /\ e' = write_entry w e.
Proof.
  rewrite nodes_in_write, in_map_iff. split.
  - intros [e [<- Hin]]. apply filter_In in Hin. exists e. tauto.
  - intros [e [Hin [Hs ->]]]. exists e. split; auto.
    apply filter_In. auto.
Qed.

Lemma NoDup_map_filter {A B} (g : A -> B) (p : A -> bool) l :
  NoDup (map g l) -> NoDup (map g (filter p l)).
Proof.
  induction l as [|x l IH]; simpl; intros H; [constructor|].
  inversion H as [|? ? Hx Hl]; subst.
  destruct (p x); simpl; auto. constructor; auto.
  intros Hin. apply Hx. apply in_map_iff in Hin as [y [E Hy]].
  apply filter_In in Hy as [Hy _]. apply in_map_iff. eauto.
Qed.

Lemma uids_write w f :
  uids (write_forest w f) =
  map (fun an => uid_of (snd an)) (filter (survives w) (nodes_in f)).
Proof.
  unfold uids. rewrite nodes_in_write, map_map. apply map_ext.
  intros [a m]. simpl. apply write_root.
Qed.

Lemma NoDup_write w f : NoDup (uids f) -> NoDup (uids (write_forest w f)).
Proof. rewrite uids_write. apply NoDup_map_filter. Qed.

(** With distinct identities, an identity names one element. *)
Lemma NoDup_map_eq {A B} (g : A -> B) l x y :
  NoDup (map g l) -> In x l -> In y l -> g x = g y -> x = y.
Proof.
  induction l as [|z l IH]; simpl; intros H Hx Hy E; [contradiction|].
  inversion H as [|? ? Hz Hl]; subst.
  destruct Hx as [->|Hx], Hy as [->|Hy]; auto.
  - exfalso. apply Hz. rewrite E. apply in_map. exact Hy.
  - exfalso. apply Hz. rewrite <- E. apply in_map. exact Hx.
Qed.

Lemma same_uid_same_entry f e1 e2 :
  NoDup (uids f) -> In e1 (nodes_in f) -> In e2 (nodes_in f) ->
  uid_of (snd e1) = uid_of (snd e2) -> e1 = e2.
Proof. intros H. apply (NoDup_map_eq _ _ _ _ H). Qed.

(** *** Elements and their ancestors *)

(** What lies in the content of a listed element is listed, below it. *)
Lemma nodes_under_below n : forall anc ax x a m,
  In (ax, x) (nodes_under anc n) ->
  In (a, m) (nodes_in (kids_of x)) ->
  In (a ++ x :: ax, m) (nodes_under anc n).
Proof.
  induction n as [s|u t i c o ks IH] using node_rect_kids;
    intros anc ax x a m Hx Hm.
  - contradiction.
  - simpl in Hx. destruct Hx as [Hx|Hx].
    + inversion Hx as [[E1 E2]]. subst ax. rewrite <- E2 in *. clear E2.
      rewrite nodes_under_kids. right.
      apply in_map_iff. exists (a, m). split; auto.
    + simpl. right. apply in_flat_map in Hx as [k [Hk Hin]].
      apply in_flat_map. exists k. split; auto.
      rewrite Forall_forall in IH. eapply IH; eauto.
Qed.

Lemma entry_below f ax x a m :
  In (ax, x) (nodes_in f) ->
  In (a, m) (nodes_in (kids_of x)) ->
  In (a ++ x :: ax, m) (nodes_in f).
Proof.
  unfold nodes_in at 1 3. intros Hx Hm.
  apply in_flat_map in Hx as [k [Hk Hin]].
  apply in_flat_map. exists k. split; auto.
  eapply nodes_under_below; eauto.
Qed.

(** An ancestor of a listed element is listed, with the ancestors above
    it; the element is listed in its content, with those below. *)
Lemma nodes_under_above n : forall pre x up m,
  In (pre ++ x :: up, m) (nodes_under [] n) ->
  In (up, x) (nodes_under [] n) /\ In (pre, m) (nodes_in (kids_of x)).
Proof.
  induction n as [s|u t i c o ks IH] using node_rect_kids;
    intros pre x up m H.
  - contradiction.
  - rewrite nodes_under_kids in *.
    destruct H as [H|H].
    + inversion H as [[H1 H2]].
      destruct pre; discriminate.
    + apply in_map_iff in H as [[a0 m0] [E Hin]].
      simpl in E. inversion E as [[Ha Hm]]. subst m0. clear E.
      induction up as [|z up0 _] using rev_ind.
      * apply app_inj_tail in Ha as [-> <-]. split; [left; reflexivity|].
        exact Hin.
      * rewrite app_comm_cons, app_assoc in Ha.
        apply app_inj_tail in Ha as [-> <-].
        unfold nodes_in in Hin. apply in_flat_map in Hin as [k [Hk Hin]].
        rewrite Forall_forall in IH.
        destruct (IH k Hk _ _ _ _ Hin) as [Hx Hm]. split; [|exact Hm].
        right. apply in_map_iff. exists (up0, x). split; [reflexivity|].
        apply in_flat_map. eauto.
Qed.

Lemma entry_above f pre x up m :
  In (pre ++ x :: up, m) (nodes_in f) ->
  In (up, x) (nodes_in f) /\ In (pre, m) (nodes_in (kids_of x)).
Proof.
  unfold nodes_in at 1 2. intros H.
  apply in_flat_map in H as [k [Hk Hin]].
  destruct (nodes_under_above _ _ _ _ _ Hin) as [Hx Hm]. split; auto.
  apply in_flat_map. eauto.
Qed.

Lemma ancestor_listed f a m x :
  In (a, m) (nodes_in f) -> In x a -> exists up, In (up, x) (nodes_in f).
Proof.
  intros H Hx. apply in_split in Hx as [pre [up ->]].
  exists up. eapply entry_above; eauto.
Qed.

(** The elements of the content of a listed element are listed in one
    stretch. *)
Lemma nodes_under_stretch n : forall anc a x,
  In (a, x) (nodes_under anc n) ->
  exists l1 l2,
    nodes_under anc n =
    l1 ++ map (fun an => (fst an ++ x :: a, snd an)) (nodes_in (kids_of x))
       ++ l2.
Proof.
  induction n as [s|u t i c o ks IH] using node_rect_kids; intros anc a x H.
  - contradiction.
  - simpl in H. destruct H as [H|H].
    + injection H as E1 E2. subst a x.
      rewrite nodes_under_kids.
      exists [(anc, Elem u t i c o ks)], []. simpl.
      rewrite app_nil_r. reflexivity.
    + apply in_flat_map in H as [k [Hk Hin]].
      apply in_split in Hk as [ks1 [ks2 ->]].
      apply Forall_app in IH as [_ IH]. apply Forall_inv in IH.
      destruct (IH _ _ _ Hin) as (l1 & l2 & E).
      cbn [nodes_under]. rewrite flat_map_app. cbn [flat_map]. rewrite E.
      exists ((anc, Elem u t i c o (ks1 ++ k :: ks2))
              :: flat_map
                   (nodes_under (Elem u t i c o (ks1 ++ k :: ks2) :: anc)) ks1
              ++ l1),
        (l2 ++ flat_map
                 (nodes_under (Elem u t i c o (ks1 ++ k :: ks2) :: anc)) ks2).
      rewrite <- !app_assoc. cbn [app]. rewrite <- !app_assoc. reflexivity.
Qed.

Lemma NoDup_app_mid {A} (l1 l2 l3 : list A) :
  NoDup (l1 ++ l2 ++ l3) -> NoDup l2.
Proof.
  intros H. apply NoDup_app_remove_l in H. apply NoDup_app_remove_r in H.
  exact H.
Qed.

(** Distinct identities in a tree are distinct in the content of each of
    its elements. *)
Lemma NoDup_kids f a x :
  NoDup (uids f) -> In (a, x) (nodes_in f) -> NoDup (uids (kids_of x)).
Proof.
  unfold uids, nodes_in at 1 2. intros Hnd Hin.
  apply in_flat_map in Hin as [k [Hk Hin]].
  apply in_split in Hk as [f1 [f2 ->]].
  rewrite flat_map_app in Hnd. cbn [flat_map] in Hnd.
  destruct (nodes_under_stretch _ _ _ _ Hin) as (l1 & l2 & E).
  rewrite E in Hnd. rewrite !map_app in Hnd.
  apply NoDup_app_remove_l in Hnd. rewrite <- !app_assoc in Hnd.
  apply NoDup_app_remove_l in Hnd. apply NoDup_app_remove_r in Hnd.
  rewrite map_map in Hnd. exact Hnd.
Qed.

(** *** Searching after a write *)

Lemma find_map_filter {A B} (p : B -> bool) (h : A -> B) (q : A -> bool) l :
  find p (map h (filter q l)) =
  option_map h (find (fun x => q x && p (h x)) l).
Proof.
  induction l as [|x l IH]; simpl; auto.
  destruct (q x); simpl; auto. destruct (p (h x)); simpl; auto.
Qed.

Lemma find_first_kept {A} (p q : A -> bool) l x :
  find p l = Some x -> q x = true ->
  find (fun y => q y && p y) l = Some x.
Proof.
  induction l as [|y l IH]; simpl; intros H Hq; [discriminate|].
  destruct (p y) eqn:Hp.
  - inversion H; subst. rewrite Hq. reflexivity.
  - rewrite andb_false_r. auto.
Qed.

Lemma find_ext_in {A} (p q : A -> bool) l :
  (forall x, In x l -> p x = q x) -> find p l = find q l.
Proof.
  induction l as [|y l IH]; simpl; intros H; auto.
  rewrite (H y (or_introl eq_refl)). destruct (q y); auto.
Qed.

(** A search by a selector that writes do not affect finds the first
    surviving match, written. *)
Lemma querySelector_write w sel f :
  (forall e, sel (fst (write_entry w e)) (snd (write_entry w e))
             = sel (fst e) (snd e)) ->
  querySelector sel (write_forest w f) =
  option_map (write_node w)
    (option_map snd
       (find (fun e => survives w e && sel (fst e) (snd e)) (nodes_in f))).
Proof.
  intros Hsel. unfold querySelector.
  rewrite nodes_in_write, find_map_filter.
  rewrite (find_ext_in _ (fun e => survives w e && sel (fst e) (snd e)))
    by (intros e _; rewrite Hsel; reflexivity).
  destruct (find _ (nodes_in f)) as [[a m]|]; reflexivity.
Qed.

Lemma querySelector_some sel f n :
  querySelector sel f = Some n ->
  exists a, In (a, n) (nodes_in f) /\ sel a n = true.
Proof.
  unfold querySelector. destruct (find _ _) as [[a m]|] eqn:E; [|discriminate].
  intros H. inversion H; subst. apply find_some in E. exists a. exact E.
Qed.

Lemma getElementById_some i f n :
  getElementById i f = Some n ->
  i <> "" /\ exists a, In (a, n) (nodes_in f) /\ id_of n = i.
Proof.
  unfold getElementById. destruct (String.eqb i "") eqn:E; [discriminate|].
  intros H. apply String.eqb_neq in E. split; auto.
  apply querySelector_some in H as [a [Hin Hid]]. exists a. split; auto.
  apply String.eqb_eq. exact Hid.
Qed.

Lemma has_uid_iff u n : has_uid u n = true <-> uid_of n = Some u.
Proof.
  destruct n as [s|v t i c o ks]; simpl.
  - split; discriminate.
  - rewrite Nat.eqb_eq. split; congruence.
Qed.

Lemma find_map {A B} (p : B -> bool) (h : A -> B) l :
  find p (map h l) = option_map h (find (fun x => p (h x)) l).
Proof.
  induction l as [|x l IH]; simpl; auto. destruct (p (h x)); auto.
Qed.

(** *** Sequences of writes *)

Lemma writes_root ws : forall n,
  uid_of (writes_node ws n) = uid_of n /\
  tag_of (writes_node ws n) = tag_of n /\
  id_of (writes_node ws n) = id_of n.
Proof.
  induction ws as [|w ws IH]; intros n; simpl; auto.
  destruct (IH (write_node w n)) as (-> & -> & ->). apply write_root.
Qed.

Lemma writes_kids ws : forall n,
  kids_of (writes_node ws n) = writes_forest ws (kids_of n).
Proof.
  induction ws as [|w ws IH]; intros n; simpl; auto.
  rewrite IH, write_kids. reflexivity.
Qed.

Lemma writes_forest_app ws1 ws2 f :
  writes_forest (ws1 ++ ws2) f = writes_forest ws2 (writes_forest ws1 f).
Proof. apply fold_left_app. Qed.

Lemma writes_node_app ws1 ws2 n :
  writes_node (ws1 ++ ws2) n = writes_node ws2 (writes_node ws1 n).
Proof. apply fold_left_app. Qed.

Lemma writes_entry_cons w ws e :
  writes_entry (w :: ws) e = writes_entry ws (write_entry w e).
Proof.
  unfold writes_entry, write_entry. simpl. rewrite map_map. reflexivity.
Qed.

(** Every element after the writes is a written element of before. *)
Lemma In_writes ws : forall f e',
  In e' (nodes_in (writes_forest ws f)) ->
  exists e, In e (nodes_in f) /\ e' = writes_entry ws e.
Proof.
  induction ws as [|w ws IH]; intros f e' H; simpl in H.
  - exists e'. split; auto. destruct e'. unfold writes_entry. simpl.
    rewrite map_id. reflexivity.
  - apply IH in H as [e1 [H1 ->]]. apply In_write in H1 as [e [He [_ ->]]].
    exists e. split; auto. symmetry. apply writes_entry_cons.
Qed.

Lemma nodes_in_writes_all ws : forall f,
  keeps_all ws = true ->
  nodes_in (writes_forest ws f) = map (writes_entry ws) (nodes_in f).
Proof.
  induction ws as [|w ws IH]; intros f H; simpl in *.
  - symmetry. erewrite map_ext; [apply map_id|].
    intros [a m]. unfold writes_entry. simpl. rewrite map_id. reflexivity.
  - apply andb_true_iff in H as [Hw Hws]. rewrite IH by exact Hws.
    rewrite nodes_in_write, map_map.
    assert (Hall : filter (survives w) (nodes_in f) = nodes_in f).
    { destruct w; try discriminate;
        induction (nodes_in f) as [|x l IHl]; simpl; congruence. }
    rewrite Hall. apply map_ext. intros e. symmetry.
    apply writes_entry_cons.
Qed.

Lemma NoDup_writes ws : forall f,
  NoDup (uids f) -> NoDup (uids (writes_forest ws f)).
Proof.
  induction ws as [|w ws IH]; intros f H; simpl; auto.
  apply IH, NoDup_write, H.
Qed.

Lemma writes_class_shrinks ws c : forall n,
  has_class c (writes_node ws n) = true -> has_class c n = true.
Proof.
  induction ws as [|w ws IH]; intros n H; simpl in *; auto.
  eapply write_class_shrinks, IH, H.
Qed.

Lemma writes_class_kept ws c : forall n,
  keeps_class c ws = true ->
  has_class c (writes_node ws n) = has_class c n.
Proof.
  induction ws as [|w ws IH]; intros n H; simpl in *; auto.
  apply andb_true_iff in H as [Hw Hws]. rewrite IH by exact Hws.
  rewrite write_class. destruct w; auto.
  destruct (has_uid u n); auto. rewrite Hw. apply andb_true_r.
Qed.

Lemma writes_open_kept ws : forall n,
  keeps_open ws = true -> is_open (writes_node ws n) = is_open n.
Proof.
  induction ws as [|w ws IH]; intros n H; simpl in *; auto.
  apply andb_true_iff in H as [Hw Hws]. rewrite IH by exact Hws.
  rewrite write_open. destruct w; auto. discriminate.
Qed.

(** The first element with a class, followed through writes that leave the
    class alone: it stays the first, or it is gone. *)
Lemma first_with_class_tracked c ws : forall f M,
  keeps_class c ws = true ->
  NoDup (uids f) ->
  querySelector (by_class c) f = Some M ->
  (exists M', querySelector (by_class c) (writes_forest ws f) = Some M' /\
              uid_of M' = uid_of M) \/
  (forall e, In e (nodes_in (writes_forest ws f)) ->
             uid_of (snd e) <> uid_of M).
Proof.
  induction ws as [|w ws IH]; intros f M Hk Hnd Hq; simpl in *.
  - left. eauto.
  - apply andb_true_iff in Hk as [Hw Hws].
    assert (Hsel : forall e,
               by_class c (fst (write_entry w e)) (snd (write_entry w e))
               = by_class c (fst e) (snd e)).
    { intros [a m]. unfold by_class. simpl. rewrite write_class.
      destruct w; auto. destruct (has_uid u m); auto.
      rewrite Hw. apply andb_true_r. }
    pose proof (querySelector_write w (by_class c) f Hsel) as Hqw.
    unfold querySelector in Hq.
    destruct (find _ (nodes_in f)) as [[aM M0]|] eqn:Hf; [|discriminate].
    simpl in Hq. inversion Hq; subst M0. clear Hq.
    destruct (survives w (aM, M)) eqn:Hs.
    + rewrite (find_first_kept _ _ _ _ Hf Hs) in Hqw. simpl in Hqw.
      destruct (IH _ _ Hws (NoDup_write w f Hnd) Hqw) as [[M' [H1 H2]]|H].
      * left. exists M'. split; auto. rewrite H2. apply write_root.
      * right. intros e He. destruct (write_root w M) as (<- & _).
        apply H, He.
    + right. intros e He. apply In_writes in He as [e1 [He1 ->]].
      apply In_write in He1 as [e0 [He0 [Hs0 ->]]].
      unfold writes_entry. simpl.
      destruct (writes_root ws (write_node w (snd e0))) as (-> & _).
      destruct (write_root w (snd e0)) as (-> & _).
      intros E. apply find_some in Hf as [HinM _].
      assert (e0 = (aM, M)) by (eapply same_uid_same_entry; eauto).
      subst e0. congruence.
Qed.

Lemma querySelector_writes_all ws sel f :
  keeps_all ws = true ->
  (forall e, sel (fst (writes_entry ws e)) (snd (writes_entry ws e))
             = sel (fst e) (snd e)) ->
  querySelector sel (writes_forest ws f)
  = option_map (writes_node ws) (querySelector sel f).
Proof.
  intros Hk Hsel. unfold querySelector.
  rewrite nodes_in_writes_all by exact Hk. rewrite find_map.
  rewrite (find_ext_in _ (fun e => sel (fst e) (snd e)))
    by (intros e _; apply Hsel).
  destruct (find _ (nodes_in f)) as [[a m]|]; reflexivity.
Qed.

Lemma getElementById_writes_all ws i f :
  keeps_all ws = true ->
  getElementById i (writes_forest ws f)
  = option_map (writes_node ws) (getElementById i f).
Proof.
  intros Hk. unfold getElementById. destruct (String.eqb i ""); auto.
  apply querySelector_writes_all; auto.
  intros [a m]. unfold writes_entry, has_id. simpl.
  destruct (writes_root ws m) as (_ & _ & ->). reflexivity.
Qed.

Lemma querySelectorAll_writes_all ws sel f :
  keeps_all ws = true ->
  (forall e, sel (fst (writes_entry ws e)) (snd (writes_entry ws e))
             = sel (fst e) (snd e)) ->
  querySelectorAll sel (writes_forest ws f)
  = map (writes_node ws) (querySelectorAll sel f).
Proof.
  intros Hk Hsel. unfold querySelectorAll.
  rewrite nodes_in_writes_all by exact Hk.
  induction (nodes_in f) as [|e l IH]; [reflexivity|].
  cbn [map filter]. rewrite Hsel.
  destruct (sel (fst e) (snd e)); cbn [map]; rewrite IH; reflexivity.
Qed.

(** An element found by its id is still what the id finds after a write
    that leaves it in the tree. *)
Lemma getElementById_write_kept w i f a n :
  NoDup (uids f) ->
  getElementById i f = Some n -> In (a, n) (nodes_in f) ->
  survives w (a, n) = true ->
  getElementById i (write_forest w f) = Some (write_node w n).
Proof.
  intros Hnd Hg Hin Hs. unfold getElementById in *.
  destruct (String.eqb i ""); [discriminate|].
  rewrite querySelector_write by (intros [a' x]; simpl; apply write_has_id).
  unfold querySelector in Hg.
  destruct (find _ (nodes_in f)) as [[a0 n0]|] eqn:Ef; [|discriminate].
  simpl in Hg. injection Hg as ->.
  assert (E : (a0, n) = (a, n)).
  { apply find_some in Ef as [Hin0 _].
    apply (same_uid_same_entry f); auto. }
  injection E as ->.
  rewrite (find_first_kept _ (survives w) _ _ Ef Hs). reflexivity.
Qed.

Lemma NoDup_of_map {A B} (g : A -> B) l : NoDup (map g l) -> NoDup l.
Proof.
  induction l as [|x l IH]; simpl; intros H; [constructor|].
  inversion H as [|? ? Hx Hl]; subst. constructor; auto.
  intros Hin. apply Hx. apply in_map. exact Hin.
Qed.

Lemma find_mid {A} (p : A -> bool) (l1 l2 l3 : list A) x :
  NoDup (l1 ++ l2 ++ l3) ->
  find p (l1 ++ l2 ++ l3) = Some x -> In x l2 -> find p l2 = Some x.
Proof.
  intros Hnd Hf Hx.
  assert (Hp : p x = true) by (apply find_some in Hf; apply Hf).
  induction l1 as [|y l1 IH]; simpl in *.
  - clear Hnd. induction l2 as [|y l2 IH]; simpl in *; [contradiction|].
    destruct (p y) eqn:Ey; [exact Hf|].
    destruct Hx as [->|Hx]; [congruence|]. apply IH; auto.
  - inversion Hnd as [|? ? Hy Hl]; subst.
    destruct (p y) eqn:Ey.
    + injection Hf as ->. exfalso. apply Hy.
      apply in_or_app. right. apply in_or_app. left. exact Hx.
    + apply IH; auto.
Qed.

(** The elements of a forest: those below one of its elements are a
    stretch of the list. *)
Lemma nodes_in_stretch f a x :
  In (a, x) (nodes_in f) ->
  exists l1 l2,
    nodes_in f =
    l1 ++ map (fun an => (fst an ++ x :: a, snd an)) (nodes_in (kids_of x))
       ++ l2.
Proof.
  unfold nodes_in at 1 2.
  induction f as [|n f IH]; simpl; [contradiction|].
  intros H. apply in_app_or in H as [H|H].
  - destruct (nodes_under_stretch n [] a x H) as (l1 & l2 & E).
    exists l1, (l2 ++ flat_map (nodes_under []) f).
    rewrite E. rewrite <- !app_assoc. reflexivity.
  - destruct (IH H) as (l1 & l2 & E).
    exists (nodes_under [] n ++ l1), l2.
    rewrite E. rewrite <- !app_assoc. reflexivity.
Qed.

(** What an id finds in a tree, it finds in the content of any element
    that contains it. *)
Lemma getElementById_below i f aF F a m :
  NoDup (uids f) ->
  In (aF, F) (nodes_in f) ->
  In (a, m) (nodes_in (kids_of F)) ->
  getElementById i f = Some m ->
  getElementById i (kids_of F) = Some m.
Proof.
  intros Hnd HF Hm Hg. unfold getElementById in *.
  destruct (String.eqb i ""); [discriminate|].
  unfold querySelector in *.
  destruct (find _ (nodes_in f)) as [[a0 m0]|] eqn:Ef; [|discriminate].
  simpl in Hg. injection Hg as ->.
  pose proof (entry_below _ _ _ _ _ HF Hm) as Hin.
  assert (E : (a0, m) = (a ++ F :: aF, m)).
  { apply find_some in Ef as [Hin0 _].
    apply (same_uid_same_entry f); auto. }
  injection E as ->.
  destruct (nodes_in_stretch f aF F HF) as (l1 & l2 & E).
  assert (Hnd' : NoDup (nodes_in f)) by (eapply NoDup_of_map; exact Hnd).
  rewrite E in Ef, Hnd'.
  apply find_mid in Ef; auto.
  - rewrite find_map in Ef. simpl in Ef.
    destruct (find _ (nodes_in (kids_of F))) as [[a1 m1]|]; [|discriminate].
    simpl in *. congruence.
  - apply in_map_iff. exists (a, m). split; auto.
Qed.

End DomProps.
(** ** FacetFilters: requests, history and failure *)

Section FacetFiltersMachine.
Import Dom FacetFilters.

Lemma addListeners_preserves {X} (view : State -> X) :
  preserves view addListeners.
Proof. unfold addListeners. preserve. Qed.

Lemma render_control inv tmpl : preserves control (render inv tmpl).
Proof.
  unfold render. preserve; try apply addListeners_preserves;
    try reflexivity.
  - destruct (querySelector (by_tag "ul") (results s)); reflexivity.
  - destruct (inv_updateUrl inv); reflexivity.
Qed.

Lemma render_history_no_update inv tmpl :
  inv_updateUrl inv = false -> preserves history (render inv tmpl).
Proof.
  intros Hu. unfold render. preserve; try apply addListeners_preserves;
    try reflexivity.
  - destruct (querySelector (by_tag "ul") (results s)); reflexivity.
  - rewrite Hu. reflexivity.
Qed.

Lemma finish_content r : content (finish r) = content (snd r).
Proof. destruct r as [[u|e] s]; reflexivity. Qed.

Lemma finish_control r : control (finish r) = control (snd r).
Proof. destruct r as [[u|e] s]; reflexivity. Qed.

Lemma start_throws p u s :
  closeBtn s = None ->
  exists s', start p u s = (Throw (TypeError "closeBtn is null"), s') /\
             control s' = control s /\ content s' = content s /\
             warnings s' = warnings s /\
             results_classes s' = add_class "is-loading" (results_classes s).
Proof.
  intros H. unfold start, bind, modify, get, deref, ret, throw. simpl.
  rewrite H. simpl. eexists. split; [reflexivity|]. repeat split.
Qed.

Lemma start_returns p u s b :
  closeBtn s = Some b ->
  exists s',
    start p u s =
      (Normal (mkInvocation (next_ctrl s) (fetchUrl s p) p u AwaitFetch), s') /\
    applyFiltersFetchAbortController s' = Some (next_ctrl s) /\
    next_ctrl s' = S (next_ctrl s) /\
    aborted s' = match applyFiltersFetchAbortController s with
                 | Some c => c :: aborted s
                 | None => aborted s
                 end /\
    pending s' = pending s /\ content s' = content s /\
    warnings s' = warnings s /\
    results_classes s' = add_class "is-loading" (results_classes s).
Proof.
  intros H. unfold start, bind, modify, get, deref, ret, throw. simpl.
  rewrite H. simpl. unfold new_controller, abort_current. simpl.
  destruct (applyFiltersFetchAbortController s); simpl;
    (eexists; split; [reflexivity|]); repeat split.
Qed.

Lemma stale_aborted_control s s' :
  control s' = control s -> stale_aborted s -> stale_aborted s'.
Proof.
  unfold control, stale_aborted, is_aborted. intros H.
  inversion H as [[H1 H2 H3 H4]]. rewrite H1, H2, H3, H4. auto.
Qed.

Lemma find_pending_some c st s i :
  find_pending c st s = Some i ->
  In i (pending s) /\ inv_ctrl i = c /\ inv_stage i = st.
Proof.
  unfold find_pending. intros H. apply find_some in H as [Hin Hb].
  apply andb_true_iff in Hb as [Hc Hs]. apply Nat.eqb_eq in Hc.
  repeat split; auto. destruct (inv_stage i), st; congruence.
Qed.

Lemma applyFilters_inv p u s :
  stale_aborted s -> stale_aborted (applyFilters p u s).
Proof.
  intros Hinv. unfold applyFilters. destruct (closeBtn s) as [b|] eqn:Hb.
  - destruct (start_returns p u s b Hb)
      as (s' & -> & Hc & Hn & Ha & Hp & _).
    destruct Hinv as (H1 & H2 & H3 & H4).
    unfold stale_aborted, is_aborted in *. simpl. rewrite Hc, Hn, Ha, Hp.
    repeat split.
    + intros i [<-|Hi]; [left; reflexivity|].
      destruct (H1 i Hi) as [Hcur|Hab].
      * right. rewrite Hcur. simpl. rewrite Nat.eqb_refl. reflexivity.
      * right. destruct (applyFiltersFetchAbortController s); simpl;
          rewrite ?Hab, ?orb_true_r; reflexivity.
    + intros i [<-|Hi]; simpl; [lia|]. specialize (H3 i Hi). lia.
    + intros c Hc'. destruct (applyFiltersFetchAbortController s) as [c0|].
      * simpl in Hc'. apply orb_true_iff in Hc' as [Hc'|Hc'].
        -- apply Nat.eqb_eq in Hc'. subst. lia.
        -- specialize (H4 c Hc'). lia.
      * specialize (H4 c Hc'). lia.
  - destruct (start_throws p u s Hb) as (s' & -> & Hc & _).
    apply stale_aborted_control with s; [|exact Hinv].
    rewrite finish_control. exact Hc.
Qed.

Lemma drop_pending_inv c s :
  stale_aborted s -> stale_aborted (drop_pending c s).
Proof.
  intros (H1 & H2 & H3 & H4). unfold stale_aborted, drop_pending, is_aborted.
  simpl. repeat split; auto.
  - intros i Hi. apply filter_In in Hi as [Hi _]. apply H1. exact Hi.
  - intros i Hi. apply filter_In in Hi as [Hi _]. apply H3. exact Hi.
Qed.

Lemma resumeFetch_inv c o s :
  stale_aborted s -> stale_aborted (resumeFetch c o s).
Proof.
  intros Hinv. unfold resumeFetch.
  destruct (find_pending c AwaitFetch s) as [inv|] eqn:Hf; auto.
  apply find_pending_some in Hf as (Hin & Hc & _).
  pose proof (drop_pending_inv c s Hinv) as Hd.
  assert (Hown : applyFiltersFetchAbortController s = Some c \/
                 is_aborted c s = true).
  { destruct Hinv as (H1 & _). rewrite <- Hc. apply H1, Hin. }
  assert (Hlt : c < next_ctrl s).
  { destruct Hinv as (_ & _ & H3 & _). rewrite <- Hc. apply H3, Hin. }
  assert (Hfin : forall r, snd r = drop_pending c s ->
                           stale_aborted (finish r)).
  { intros r Hr. apply stale_aborted_control with (drop_pending c s); auto.
    rewrite finish_control, Hr. reflexivity. }
  destruct (is_aborted c (drop_pending c s)).
  - apply Hfin. reflexivity.
  - destruct o as [e|[|]]; try (apply Hfin; reflexivity).
    destruct Hd as (D1 & D2 & D3 & D4).
    unfold stale_aborted, is_aborted in *. simpl in *. repeat split; auto.
    + intros i [<-|Hi]; simpl; auto.
    + intros i [<-|Hi]; simpl; auto.
Qed.

Lemma resumeText_inv c o s :
  stale_aborted s -> stale_aborted (resumeText c o s).
Proof.
  intros Hinv. unfold resumeText.
  destruct (find_pending c AwaitText s) as [inv|] eqn:Hf; auto.
  pose proof (drop_pending_inv c s Hinv) as Hd.
  assert (Hfin : forall r, control (snd r) = control (drop_pending c s) ->
                           stale_aborted (finish r)).
  { intros r Hr. apply stale_aborted_control with (drop_pending c s); auto.
    rewrite finish_control, Hr. reflexivity. }
  destruct (is_aborted c (drop_pending c s)).
  - apply Hfin. reflexivity.
  - destruct o as [e|tmpl]; apply Hfin; [reflexivity|].
    apply render_control.
Qed.

Lemma handleFiltersClick_inv u href s :
  stale_aborted s -> stale_aborted (handleFiltersClick u href s).
Proof.
  intros Hinv. unfold handleFiltersClick.
  destruct (lookup u (form s)) as [target|]; auto.
  assert (Hshow : forall s0, stale_aborted s0 ->
    stale_aborted
      (if has_class "js-show-more" target
       then
         let filter := closest (has_class "filter") u (form s0) in
         let s1 := set_form (remove u (form s0)) s0 in
         match filter with
         | None => s1
         | Some filter =>
             let lis :=
               match uid_of filter with
               | Some fu =>
                   match lookup fu (form s1) with
                   | Some cur => querySelectorAll (by_tag "li") (kids_of cur)
                   | None => []
                   end
               | None => []
               end in
             let s2 :=
               set_form
                 (fold_left
                    (fun f el =>
                       match uid_of el with
                       | Some e => classList_remove "js-hidden" e f
                       | None => f
                       end) lis (form s1)) s1 in
             if includes (id_of filter) (expanded s2) then s2
             else set_expanded (expanded s2 ++ [id_of filter])%list s2
         end
       else s0)).
  { intros s0 H0. destruct (has_class "js-show-more" target); auto.
    cbv zeta. destruct (closest (has_class "filter") u (form s0)).
    - match goal with |- stale_aborted (if ?b then _ else _) =>
        destruct b end;
        (eapply stale_aborted_control; [|exact H0]); reflexivity.
    - eapply stale_aborted_control; [|exact H0]. reflexivity. }
  destruct (has_class "js-clear-filter" target).
  - destruct href as [p|]; auto. apply Hshow. apply applyFilters_inv, Hinv.
  - apply Hshow, Hinv.
Qed.

Lemma step_inv s e : stale_aborted s -> stale_aborted (step s e).
Proof.
  intros Hinv. destruct e; simpl.
  - apply applyFilters_inv, Hinv.
  - unfold handleFilterChange.
    destruct (FilterChange.handleFilterChange _ _ _ _) as [[? ?]|]; auto.
    apply applyFilters_inv, Hinv.
  - apply handleFiltersClick_inv, Hinv.
  - unfold handleActiveFiltersClick.
    destruct (String.eqb tagName "A"); auto. destruct href; auto.
    apply applyFilters_inv, Hinv.
  - unfold handleHistoryChange. destruct st; auto.
    apply applyFilters_inv, Hinv.
  - apply resumeFetch_inv, Hinv.
  - apply resumeText_inv, Hinv.
Qed.

Lemma run_inv tr : forall s, stale_aborted s -> stale_aborted (run s tr).
Proof.
  induction tr as [|e tr IH]; intros s Hs; simpl; auto.
  apply IH, step_inv, Hs.
Qed.

Lemma init_inv path fl so sb sid fk rk btn pag :
  stale_aborted (init path fl so sb sid fk rk btn pag).
Proof.
  unfold stale_aborted, init, is_aborted. simpl.
  repeat split; intros; try contradiction; discriminate.
Qed.

Lemma stale_settlement s e c :
  stale_aborted s -> settles e = Some c ->
  (S c =? next_ctrl s) = false ->
  content (step s e) = content s /\
  (forall i, In i (pending s) -> inv_ctrl i = c -> is_aborted c s = true).
Proof.
  intros Hinv He Hc. apply Nat.eqb_neq in Hc.
  assert (Hab : forall i, In i (pending s) -> inv_ctrl i = c ->
                          is_aborted c s = true).
  { intros i Hi Hic. destruct Hinv as (H1 & H2 & _).
    destruct (H1 i Hi) as [Hcur|Hab]; [|rewrite <- Hic; exact Hab].
    rewrite Hcur in H2. congruence. }
  split; [|exact Hab].
  destruct e; simpl in He; try discriminate; inversion He; subst; simpl.
  - unfold resumeFetch.
    destruct (find_pending c AwaitFetch s) as [inv|] eqn:Hf; auto.
    apply find_pending_some in Hf as (Hin & Hic & _).
    replace (is_aborted c (drop_pending c s)) with true
      by (symmetry; apply (Hab inv Hin Hic)).
    rewrite finish_content. reflexivity.
  - unfold resumeText.
    destruct (find_pending c AwaitText s) as [inv|] eqn:Hf; auto.
    apply find_pending_some in Hf as (Hin & Hic & _).
    replace (is_aborted c (drop_pending c s)) with true
      by (symmetry; apply (Hab inv Hin Hic)).
    rewrite finish_content. reflexivity.
Qed.

Lemma finish_clears r :
  includes "is-loading" (results_classes (finish r)) = false.
Proof. destruct r as [[u|e] s]; apply includes_remove_class. Qed.

Lemma finish_warnings_throw e s :
  warnings (finish (Throw e, s)) = (warnings s ++ [e])%list.
Proof. reflexivity. Qed.

Lemma finish_warnings_normal s :
  warnings (finish (Normal tt, s)) = warnings s.
Proof. reflexivity. Qed.

(** A started call, seen from the state it leaves: the new invocation
    heads the pending list and holds a fresh, unaborted controller. *)
Lemma applyFilters_started p u s b :
  stale_aborted s -> closeBtn s = Some b ->
  let s1 := applyFilters p u s in
  let c := next_ctrl s in
  pending s1 = mkInvocation c (fetchUrl s p) p u AwaitFetch :: pending s /\
  is_aborted c s1 = false /\
  content s1 = content s /\ warnings s1 = warnings s /\
  (forall i, In i (pending s) -> inv_ctrl i <> c).
Proof.
  intros Hinv Hb. cbv zeta. unfold applyFilters.
  destruct (start_returns p u s b Hb)
    as (s' & -> & Hc & Hn & Ha & Hp & Hcont & Hw & _).
  destruct Hinv as (H1 & H2 & H3 & H4).
  simpl. rewrite Hp. repeat split; auto.
  - unfold is_aborted in *. simpl. rewrite Ha.
    destruct (applyFiltersFetchAbortController s) as [c0|]; simpl.
    + apply orb_false_iff. split.
      * apply Nat.eqb_neq. lia.
      * destruct (existsb (Nat.eqb (next_ctrl s)) (aborted s)) eqn:E; auto.
        specialize (H4 _ E). lia.
    + destruct (existsb (Nat.eqb (next_ctrl s)) (aborted s)) eqn:E; auto.
      specialize (H4 _ E). lia.
  - intros i Hi. specialize (H3 i Hi). lia.
Qed.

Lemma filter_drop_fresh c (l : list Invocation) :
  (forall i, In i l -> inv_ctrl i <> c) ->
  filter (fun i => negb (inv_ctrl i =? c)) l = l.
Proof.
  induction l as [|x l IH]; intros H; simpl; auto.
  assert (Hx : inv_ctrl x <> c) by (apply H; left; reflexivity).
  apply Nat.eqb_neq in Hx. rewrite Hx. simpl. f_equal.
  apply IH. intros i Hi. apply H. right. exact Hi.
Qed.

Lemma find_pending_head c st url p u l s :
  pending s = mkInvocation c url p u st :: l ->
  find_pending c st s = Some (mkInvocation c url p u st).
Proof.
  intros H. unfold find_pending. rewrite H. simpl.
  rewrite Nat.eqb_refl. destruct st; reflexivity.
Qed.

Lemma drop_pending_head c url p u st l s :
  pending s = mkInvocation c url p u st :: l ->
  (forall i, In i l -> inv_ctrl i <> c) ->
  drop_pending c s = set_pending l s.
Proof.
  intros H Hl. unfold drop_pending. rewrite H. simpl.
  rewrite Nat.eqb_refl. simpl. rewrite filter_drop_fresh; auto.
Qed.

(** The first settlement of a call that has just started. *)
Lemma resumeFetch_started p u s b fo :
  stale_aborted s -> closeBtn s = Some b ->
  let c := next_ctrl s in
  let s1 := set_pending (pending s) (applyFilters p u s) in
  resumeFetch c fo (applyFilters p u s) =
    match fo with
    | FetchRejected e => finish (Throw e, s1)
    | FetchResponse true =>
        set_pending
          (mkInvocation c (fetchUrl s p) p u AwaitText :: pending s) s1
    | FetchResponse false => finish (Normal tt, s1)
    end.
Proof.
  intros Hinv Hb. cbv zeta.
  destruct (applyFilters_started p u s b Hinv Hb)
    as (Hp & Hab & _ & _ & Hfresh).
  unfold resumeFetch.
  rewrite (find_pending_head _ _ _ _ _ _ _ Hp).
  rewrite (drop_pending_head _ _ _ _ _ _ _ Hp Hfresh).
  replace (is_aborted (next_ctrl s)
             (set_pending (pending s) (applyFilters p u s)))
    with false by (symmetry; exact Hab).
  destruct fo as [e|[|]]; reflexivity.
Qed.

Lemma resumeText_clears c o s :
  includes "is-loading" (results_classes s) = false ->
  includes "is-loading" (results_classes (resumeText c o s)) = false.
Proof.
  intros H. unfold resumeText.
  destruct (find_pending c AwaitText s); auto.
  destruct (is_aborted c (drop_pending c s)); [apply finish_clears|].
  destruct o; apply finish_clears.
Qed.

Lemma find_pending_fresh c st s :
  (forall i, In i (pending s) -> inv_ctrl i <> c) ->
  find_pending c st s = None.
Proof.
  intros H. unfold find_pending.
  induction (pending s) as [|x l IH]; simpl; auto.
  assert (Hx : inv_ctrl x <> c) by (apply H; left; reflexivity).
  apply Nat.eqb_neq in Hx. rewrite Hx. simpl.
  apply IH. intros i Hi. apply H. right. exact Hi.
Qed.

End FacetFiltersMachine.
Section FacetFiltersClaims.
Import Dom FacetFilters.

Variables (path : string) (filtering sorting sortByPresent : bool)
          (sectionId : option string) (formKids resultsKids : forest)
          (btn : option CloseBtn) (pag : option Pagination).

Let page0 : State :=
  init path filtering sorting sortByPresent sectionId formKids resultsKids
    btn pag.

(** C1. Whatever the page and whatever the sequence of [applyFilters] calls,
    clicks, history events and settlements (in any order), in the state [s]
    reached: a call that starts a new request leaves every request that was
    in flight aborted; and the settlement of a request [c] that is not the
    most recently started one changes neither the facets form, nor the
    results, nor the history, its signal having been aborted. *)
Theorem only_latest_fetch_mutates :
  forall (tr : list Ev),
    let s := run page0 tr in
    (forall p u i,
        next_ctrl (applyFilters p u s) = S (next_ctrl s) ->
        In i (pending s) ->
        is_aborted (inv_ctrl i) (applyFilters p u s) = true) /\
    (forall e c,
        settles e = Some c ->
        (S c =? next_ctrl s) = false ->
        content (step s e) = content s /\
        (forall i, In i (pending s) -> inv_ctrl i = c ->
                   is_aborted c s = true)).
Proof.
  intros tr s.
  assert (Hinv : stale_aborted s) by (apply run_inv, init_inv).
  split.
  - intros p u i Hn Hi.
    destruct (closeBtn s) as [b|] eqn:Hb.
    + unfold applyFilters in *.
      destruct (start_returns p u s b Hb)
        as (s' & Hs & Hc & _ & Ha & _).
      rewrite Hs in *. simpl in *. unfold is_aborted. simpl. rewrite Ha.
      destruct Hinv as (H1 & _).
      destruct (H1 i Hi) as [Hcur|Hab].
      * rewrite Hcur. simpl. rewrite Nat.eqb_refl. reflexivity.
      * unfold is_aborted in Hab.
        destruct (applyFiltersFetchAbortController s); simpl;
          rewrite ?Hab, ?orb_true_r; reflexivity.
    + unfold applyFilters in Hn.
      destruct (start_throws p u s Hb) as (s' & Hs & Hc & _).
      rewrite Hs in Hn.
      assert (Hk : control (finish (Throw (TypeError "closeBtn is null"), s'))
                   = control s) by (rewrite finish_control; exact Hc).
      apply (f_equal (fun x => snd (fst (fst x)))) in Hk. simpl in Hk, Hn.
      rewrite Hk in Hn. lia.
  - intros e c He Hc. apply stale_settlement; assumption.
Qed.

(** C5. [updateURL(p)] adds exactly one history entry, whose state holds
    [p]; the [popstate] event carrying that state calls [applyFilters] with
    [p] and [updateUrl = false]; and however the request of that call
    settles, no further entry is pushed. *)
Theorem history_roundtrip_single_push :
  forall (tr : list Ev) (p : string),
    let s := run page0 tr in
    let s1 := updateURL p s in
    history s1 =
      (history s ++
       [mkHistoryEntry p
          (pathname s ++ (if truthy p then "?" ++ p else p))])%list /\
    handleHistoryChange (StateObject (JStr p)) s1 = applyFilters p false s1 /\
    (forall fo to,
        let c := next_ctrl s1 in
        history
          (resumeText c to
             (resumeFetch c fo
                (handleHistoryChange (StateObject (JStr p)) s1)))
        = history s1).
Proof.
  intros tr p s s1.
  assert (Hinv : stale_aborted s) by (apply run_inv, init_inv).
  assert (Hinv1 : stale_aborted s1).
  { apply stale_aborted_control with s; [reflexivity|exact Hinv]. }
  assert (Hh : handleHistoryChange (StateObject (JStr p)) s1
               = applyFilters p false s1).
  { unfold handleHistoryChange. destruct (truthy p) eqn:E; auto.
    unfold truthy in E. apply negb_false_iff, String.eqb_eq in E.
    subst p. reflexivity. }
  split; [reflexivity|]. split; [exact Hh|].
  intros fo to c. rewrite Hh.
  destruct (closeBtn s1) as [b|] eqn:Hb.
  - destruct (applyFilters_started p false s1 b Hinv1 Hb)
      as (Hp & Hab & Hcont & _ & Hfresh).
    assert (Hhist : history (applyFilters p false s1) = history s1).
    { unfold content in Hcont. congruence. }
    unfold c. rewrite (resumeFetch_started p false s1 b fo Hinv1 Hb).
    destruct fo as [e|[|]].
    + unfold resumeText. rewrite find_pending_fresh; [exact Hhist|].
      exact Hfresh.
    + unfold resumeText, find_pending, drop_pending. simpl.
      rewrite Nat.eqb_refl. simpl.
      match goal with |- context [if ?b then _ else _] => destruct b end.
      * exact Hhist.
      * destruct to as [e|tmpl]; [exact Hhist|].
        set (s2 := set_pending _ _).
        pose proof (render_history_no_update
          (mkInvocation (next_ctrl s1) (fetchUrl s1 p) p false AwaitText)
          tmpl eq_refl s2) as Hr.
        destruct (render _ tmpl s2) as [[[]|e] s3]; simpl in *;
          rewrite Hr; exact Hhist.
    + unfold resumeText. rewrite find_pending_fresh; [exact Hhist|].
      exact Hfresh.
  - assert (Hk : control (applyFilters p false s1) = control s1).
    { unfold applyFilters.
      destruct (start_throws p false s1 Hb) as (s' & -> & Hc & _).
      rewrite finish_control. exact Hc. }
    assert (Hc0 : content (applyFilters p false s1) = content s1).
    { unfold applyFilters.
      destruct (start_throws p false s1 Hb) as (s' & -> & _ & Hc & _).
      rewrite finish_content. exact Hc. }
    assert (Hnone : forall st, find_pending c st (applyFilters p false s1)
                               = None).
    { intros st. apply find_pending_fresh.
      replace (pending (applyFilters p false s1)) with (pending s1)
        by (unfold control in Hk; congruence).
      intros i Hi.
      destruct Hinv1 as (_ & _ & H3 & _). specialize (H3 i Hi).
      unfold c. lia. }
    unfold resumeFetch. rewrite Hnone.
    unfold resumeText. rewrite Hnone.
    unfold content in Hc0. congruence.
Qed.

(** C7, as the code has it.  On a page with its drawer button, from any
    reachable state: if the fetch of a call throws, the facets form, the
    results and the history are as before the call, the thrown error is the
    one console warning, and the results are no longer marked as loading;
    if the response is not OK, the same holds except that nothing is
    logged; and when the response is OK, the results are no longer marked
    as loading once the body has settled, however it settles. *)
Theorem applyFilters_failure_atomic :
  forall (tr : list Ev) (p : string) (u : bool) (b : CloseBtn),
    let s := run page0 tr in
    closeBtn s = Some b ->
    let c := next_ctrl s in
    let s1 := applyFilters p u s in
    (forall e,
        let s' := resumeFetch c (FetchRejected e) s1 in
        content s' = content s /\
        warnings s' = (warnings s ++ [e])%list /\
        includes "is-loading" (results_classes s') = false) /\
    (let s' := resumeFetch c (FetchResponse false) s1 in
     content s' = content s /\
     warnings s' = warnings s /\
     includes "is-loading" (results_classes s') = false) /\
    (forall to,
        let s' := resumeText c to (resumeFetch c (FetchResponse true) s1) in
        includes "is-loading" (results_classes s') = false).
Proof.
  intros tr p u b s Hb c s1.
  assert (Hinv : stale_aborted s) by (apply run_inv, init_inv).
  destruct (applyFilters_started p u s b Hinv Hb)
    as (Hp & Hab & Hcont & Hw & Hfresh).
  unfold c, s1. repeat split.
  - rewrite (resumeFetch_started p u s b _ Hinv Hb).
    rewrite finish_content. exact Hcont.
  - rewrite (resumeFetch_started p u s b _ Hinv Hb).
    rewrite finish_warnings_throw. simpl. rewrite Hw. reflexivity.
  - rewrite (resumeFetch_started p u s b _ Hinv Hb). apply finish_clears.
  - rewrite (resumeFetch_started p u s b _ Hinv Hb).
    rewrite finish_content. exact Hcont.
  - rewrite (resumeFetch_started p u s b _ Hinv Hb).
    rewrite finish_warnings_normal. simpl. exact Hw.
  - rewrite (resumeFetch_started p u s b _ Hinv Hb). apply finish_clears.
  - intros to. rewrite (resumeFetch_started p u s b _ Hinv Hb).
    unfold resumeText, find_pending, drop_pending. simpl.
    rewrite Nat.eqb_refl. simpl.
    match goal with |- context [if ?b then _ else _] => destruct b end.
    + apply finish_clears.
    + destruct to; apply finish_clears.
Qed.

End FacetFiltersClaims.

Section FacetFiltersWitnesses.
Import Dom FacetFilters Examples.

Example latest_response_renders :
  let s := run page [Call "a=1" true; FetchSettled 0 (FetchResponse true);
                     Call "a=2" true; FetchSettled 1 (FetchResponse true)] in
  content (step s (TextSettled 1 (TextBody response))) <> content s /\
  history (step s (TextSettled 1 (TextBody response)))
  = [mkHistoryEntry "a=2" "/collections/x?a=2"].
Proof. split; [discriminate|reflexivity]. Qed.

Lemma only_latest_fetch_mutates_witness :
  let s := run page [Call "a=1" true; FetchSettled 0 (FetchResponse true);
                     Call "a=2" true; FetchSettled 1 (FetchResponse true)] in
  let e := TextSettled 0 (TextBody response) in
  settles e = Some 0 /\ (1 =? next_ctrl s) = false /\
  content (step s e) = content s /\
  is_aborted 0 (applyFilters "a=3" true s) = true.
Proof.
  cbv zeta.
  split; [reflexivity|]. split; [reflexivity|]. split.
  - apply (proj2 (only_latest_fetch_mutates "/collections/x" true false false
             (Some "template--1__main") (facetsContent 1 true false)
             liveResults (Some (mkCloseBtn None ["btn"] "Show 2 results"))
             (Some (mkPagination (Some "false") true 0))
             [Call "a=1" true; FetchSettled 0 (FetchResponse true);
              Call "a=2" true; FetchSettled 1 (FetchResponse true)])
           (TextSettled 0 (TextBody response)) 0); reflexivity.
  - reflexivity.
Defined.

Lemma applyFilters_failure_atomic_witness :
  closeBtn page = Some (mkCloseBtn None ["btn"] "Show 2 results") /\
  warnings (resumeFetch 0 (FetchRejected NetworkError)
              (applyFilters "a=1" true page)) = [NetworkError] /\
  content (resumeFetch 0 (FetchResponse false) (applyFilters "a=1" true page))
  = content page.
Proof.
  split; [reflexivity|].
  pose proof (applyFilters_failure_atomic "/collections/x" true false false
             (Some "template--1__main") (facetsContent 1 true false)
             liveResults (Some (mkCloseBtn None ["btn"] "Show 2 results"))
             (Some (mkPagination (Some "false") true 0))
             [] "a=1" true (mkCloseBtn None ["btn"] "Show 2 results")
             eq_refl) as (H1 & H2 & _).
  split.
  - exact (proj1 (proj2 (H1 NetworkError))).
  - exact (proj1 H2).
Defined.

(** C7 as stated fails where the response is not OK: [applyFilters] then
    skips its rendering branch without throwing, so its [catch] block, the
    only place that warns, is never entered. *)
Lemma applyFilters_non_ok_is_silent :
  let s' := resumeFetch 0 (FetchResponse false)
              (applyFilters "a=1" true page) in
  pending s' = [] /\ warnings page = [] /\
  ~ (exists w, warnings s' = (warnings page ++ [w])%list).
Proof.
  cbv zeta. split; [reflexivity|]. split; [reflexivity|].
  intros [w Hw]. discriminate Hw.
Qed.

End FacetFiltersWitnesses.
(** ** FacetFilters: the UI state carried over a render *)

Section ExpandedFilters.
Import Dom FacetFilters.
Local Open Scope list_scope.

Lemma unhide_fold hiddenElements : forall t,
  fold_left
    (fun t listItem =>
       match uid_of listItem with
       | Some h => classList_remove "js-hidden" h t
       | None => t
       end) hiddenElements t
  = writes_forest (unhide_writes hiddenElements) t.
Proof.
  induction hiddenElements as [|x l IH]; intros t; simpl; auto.
  rewrite IH. unfold unhide_writes. simpl.
  destruct (uid_of x); simpl; reflexivity.
Qed.

(** [expandFilter] is the sequence of its writes. *)
Lemma expandFilter_eq newFilter t :
  expandFilter newFilter t
  = writes_forest (expandFilter_writes newFilter t) t.
Proof.
  unfold expandFilter, expandFilter_writes.
  destruct (uid_of newFilter) as [u|]; auto.
  destruct (lookup u t) as [cur|]; auto.
  rewrite unhide_fold, writes_forest_app.
  destruct (querySelector (by_class "filter__more") (kids_of cur)) as [m|];
    auto.
  destruct (uid_of m); reflexivity.
Qed.

Lemma unhide_writes_keep l :
  keeps_open (unhide_writes l) = true /\
  keeps_all (unhide_writes l) = true /\
  keeps_class "filter__more" (unhide_writes l) = true.
Proof.
  unfold unhide_writes.
  induction l as [|x l (H1 & H2 & H3)]; simpl; auto.
  destruct (uid_of x); simpl; auto.
Qed.

Lemma keeps_class_app c ws1 ws2 :
  keeps_class c (ws1 ++ ws2) = keeps_class c ws1 && keeps_class c ws2.
Proof. apply forallb_app. Qed.

Lemma keeps_open_app ws1 ws2 :
  keeps_open (ws1 ++ ws2) = keeps_open ws1 && keeps_open ws2.
Proof. apply forallb_app. Qed.

Lemma expandFilter_writes_keep newFilter t :
  keeps_open (expandFilter_writes newFilter t) = true /\
  keeps_class "filter__more" (expandFilter_writes newFilter t) = true.
Proof.
  unfold expandFilter_writes.
  destruct (uid_of newFilter) as [u|]; auto.
  destruct (lookup u t) as [cur|]; auto.
  rewrite keeps_open_app, keeps_class_app.
  destruct (unhide_writes_keep
              (querySelectorAll (by_class "js-hidden") (kids_of cur)))
    as (-> & _ & ->).
  destruct (querySelector (by_class "filter__more") (kids_of cur)) as [m|];
    auto.
  destruct (uid_of m); auto.
Qed.

(** *** Copying the open state (lines 2157-2162) *)

(** Each step of the copy is at most one [SetOpen]. *)
Lemma copy_step_write t existingFilter :
  exists ws,
    match getElementById (id_of existingFilter) t with
    | Some target => set_open target (is_open existingFilter) t
    | None => t
    end = writes_forest ws t /\
    keeps_all ws = true /\ (forall c, keeps_class c ws = true).
Proof.
  destruct (getElementById (id_of existingFilter) t) as [target|].
  - unfold set_open. destruct (uid_of target) as [u|].
    + destruct (reflects_open target).
      * exists [SetOpen u (is_open existingFilter)]. auto.
      * exists []. auto.
    + exists []. auto.
  - exists []. auto.
Qed.

Lemma keeps_all_app ws1 ws2 :
  keeps_all (ws1 ++ ws2) = keeps_all ws1 && keeps_all ws2.
Proof. apply forallb_app. Qed.

Lemma copyOpenState_writes live : forall tmpl,
  exists ws,
    copyOpenState live tmpl = writes_forest ws tmpl /\
    keeps_all ws = true /\ (forall c, keeps_class c ws = true).
Proof.
  unfold copyOpenState.
  induction (querySelectorAll dd_details live) as [|e L IH]; intros tmpl.
  - exists []. auto.
  - simpl. destruct (copy_step_write tmpl e) as (ws1 & -> & A1 & C1).
    destruct (IH (writes_forest ws1 tmpl)) as (ws2 & -> & A2 & C2).
    exists (ws1 ++ ws2). rewrite writes_forest_app. split; auto.
    rewrite keeps_all_app, A1, A2. split; auto.
    intros c. rewrite keeps_class_app, C1, C2. reflexivity.
Qed.

(** One step of the copy, seen from the element of the fragment that has
    the id [g]. *)
Lemma copy_step_open t e T :
  NoDup (uids t) ->
  getElementById (id_of T) t = Some T ->
  has_tag "details" T = true ->
  (id_of e = id_of T -> is_open e = true) ->
  let t' := match getElementById (id_of e) t with
            | Some target => set_open target (is_open e) t
            | None => t
            end in
  (open_at (uid_of T) t \/ id_of e = id_of T) -> open_at (uid_of T) t'.
Proof.
  intros Hnd HT Htag Hopen t' Hpre.
  apply getElementById_some in HT as Hl. destruct Hl as (Hne & aT & HinT & _).
  destruct (String.eqb (id_of e) (id_of T)) eqn:E.
  - apply String.eqb_eq in E. unfold t'. rewrite E, HT.
    unfold set_open, reflects_open. rewrite Htag. simpl.
    destruct (uid_of T) as [uT|] eqn:EuT.
    + intros e' He' Hu.
      apply (In_write (SetOpen uT (is_open e))) in He'
        as (e0 & He0 & _ & ->).
      cbn [write_entry fst snd] in *. rewrite write_open.
      destruct (write_root (SetOpen uT (is_open e)) (snd e0)) as (Hu0 & _).
      rewrite Hu0 in Hu. apply has_uid_iff in Hu. rewrite Hu.
      apply Hopen, E.
    + apply nodes_in_elem in HinT as (u & ? & ? & ? & ? & ? & ->).
      discriminate.
  - apply String.eqb_neq in E. destruct Hpre as [Hpre|Hpre]; [|contradiction].
    unfold t'. destruct (getElementById (id_of e) t) as [target|] eqn:Ht;
      [|exact Hpre].
    apply getElementById_some in Ht as (_ & at' & Hint & Hid).
    unfold set_open. destruct (uid_of target) as [u'|] eqn:Eu'; [|exact Hpre].
    destruct (reflects_open target); [|exact Hpre].
    intros e' He' Hu.
    apply (In_write (SetOpen u' (is_open e))) in He' as (e0 & He0 & _ & ->).
    cbn [write_entry fst snd] in *. rewrite write_open.
    destruct (write_root (SetOpen u' (is_open e)) (snd e0)) as (Hu0 & _).
    rewrite Hu0 in Hu.
    destruct (has_uid u' (snd e0)) eqn:Hh; [|apply Hpre; auto].
    exfalso. apply has_uid_iff in Hh.
    assert (E1 : e0 = (at', target))
      by (eapply same_uid_same_entry; eauto; simpl; congruence).
    assert (E2 : e0 = (aT, T))
      by (eapply same_uid_same_entry; eauto).
    rewrite E1 in E2. inversion E2; subst. congruence.
Qed.

(** After the copy, the element of the fragment that has the id of an open
    filter of the live form is open, unless the live form also holds a
    closed filter with that id. *)
Lemma copyOpenState_open live : forall tmpl T,
  NoDup (uids tmpl) ->
  getElementById (id_of T) tmpl = Some T ->
  has_tag "details" T = true ->
  (forall e, In e (querySelectorAll dd_details live) ->
             id_of e = id_of T -> is_open e = true) ->
  (open_at (uid_of T) tmpl \/
   exists e, In e (querySelectorAll dd_details live) /\ id_of e = id_of T) ->
  open_at (uid_of T) (copyOpenState live tmpl).
Proof.
  unfold copyOpenState.
  induction (querySelectorAll dd_details live) as [|e L IH];
    intros tmpl T Hnd HT Htag Hall Hpre.
  - simpl. destruct Hpre as [H|[e [[] _]]]. exact H.
  - simpl.
    destruct (copy_step_write tmpl e) as (ws & Ew & Hka & Hkc).
    set (t' := match getElementById (id_of e) tmpl with
               | Some target => set_open target (is_open e) tmpl
               | None => tmpl
               end) in *.
    assert (HT' : getElementById (id_of T) t' = Some (writes_node ws T)).
    { rewrite Ew, getElementById_writes_all by exact Hka. rewrite HT.
      reflexivity. }
    destruct (writes_root ws T) as (Hu & Ht & Hi).
    rewrite <- Hu. rewrite <- Hi in HT'.
    apply IH.
    + rewrite Ew. apply NoDup_writes, Hnd.
    + exact HT'.
    + unfold has_tag in *. rewrite Ht. exact Htag.
    + intros e0 He0 Hid0. apply Hall; [right; exact He0|]. congruence.
    + rewrite Hu, Hi.
      destruct (String.eqb (id_of e) (id_of T)) eqn:E.
      * left. apply String.eqb_eq in E.
        apply (copy_step_open tmpl e T Hnd HT Htag); [|auto].
        intros _. apply Hall; auto. left. reflexivity.
      * apply String.eqb_neq in E.
        destruct Hpre as [Hpre|[e0 [[<-|He0] Hid0]]].
        -- left. apply (copy_step_open tmpl e T Hnd HT Htag);
             [intros Hc; contradiction|auto].
        -- contradiction.
        -- right. eauto.
Qed.

(** *** Un-hiding and removing (lines 2163-2171) *)

Lemma lookup_some u f cur :
  lookup u f = Some cur ->
  exists a, In (a, cur) (nodes_in f) /\ uid_of cur = Some u.
Proof.
  intros H. apply querySelector_some in H as [a [Hin Hu]].
  exists a. split; auto. apply has_uid_iff. exact Hu.
Qed.

Lemma lookup_none u f :
  lookup u f = None -> absent (Some u) f.
Proof.
  unfold lookup, querySelector. intros H e He Hu.
  destruct (find _ (nodes_in f)) eqn:E; [discriminate|].
  apply (find_none _ _ E) in He. apply has_uid_iff in Hu. congruence.
Qed.

Lemma absent_write u w f : absent u f -> absent u (write_forest w f).
Proof.
  intros H e' He'. apply In_write in He' as (e & He & _ & ->).
  simpl. destruct (write_root w (snd e)) as (-> & _). apply H, He.
Qed.

Lemma absent_writes u ws : forall f,
  absent u f -> absent u (writes_forest ws f).
Proof.
  induction ws as [|w ws IH]; intros f H; simpl; auto.
  apply IH, absent_write, H.
Qed.

Lemma absent_remove u f : absent (Some u) (remove u f).
Proof.
  intros e' He'. apply (In_write (Remove u)) in He' as (e & He & Hs & ->).
  simpl in *. apply andb_true_iff in Hs as [Hs _].
  apply negb_true_iff in Hs. intros Hu. apply has_uid_iff in Hu.
  rewrite has_uid_prune in Hu. congruence.
Qed.

Lemma shown_below_write u w f :
  shown_below u f -> shown_below u (write_forest w f).
Proof.
  intros H e' y' He' Hy' Hu.
  apply In_write in He' as (e & He & _ & ->).
  cbn [write_entry fst snd] in *.
  apply in_map_iff in Hy' as (y & <- & Hy).
  destruct (write_root w y) as (Eu & _). rewrite Eu in Hu.
  destruct (has_class "js-hidden" (write_node w (snd e))) eqn:E; auto.
  apply write_class_shrinks in E. rewrite (H e y He Hy Hu) in E.
  discriminate.
Qed.

Lemma shown_below_writes u ws : forall f,
  shown_below u f -> shown_below u (writes_forest ws f).
Proof.
  induction ws as [|w ws IH]; intros f H; simpl; auto.
  apply IH, shown_below_write, H.
Qed.

(** A removed class stays removed. *)
Lemma class_removed c u ws : forall n,
  In (RemoveClass c u) ws -> has_uid u n = true ->
  has_class c (writes_node ws n) = false.
Proof.
  induction ws as [|w ws IH]; intros n Hin Hu; [contradiction|].
  simpl. destruct Hin as [->|Hin].
  - destruct (has_class c (writes_node ws (write_node (RemoveClass c u) n)))
      eqn:E; auto.
    apply writes_class_shrinks in E. rewrite write_class, Hu in E.
    rewrite String.eqb_refl, andb_false_r in E. discriminate.
  - apply IH; auto. rewrite write_has_uid. exact Hu.
Qed.

Lemma In_unhide_writes l x u :
  In x l -> uid_of x = Some u ->
  In (RemoveClass "js-hidden" u) (unhide_writes l).
Proof.
  intros Hx Hu. unfold unhide_writes. apply in_flat_map.
  exists x. split; auto. rewrite Hu. left. reflexivity.
Qed.

(** After its turn, nothing below an expanded filter is hidden. *)
Lemma expandFilter_shows newFilter t :
  NoDup (uids t) -> shown_below (uid_of newFilter) (expandFilter newFilter t).
Proof.
  intros Hnd. rewrite expandFilter_eq. unfold expandFilter_writes.
  destruct (uid_of newFilter) as [u|] eqn:Eu.
  - destruct (lookup u t) as [cur|] eqn:El.
    + apply lookup_some in El as (ac & Hc & Huc).
      rewrite writes_forest_app. apply shown_below_writes.
      set (hidden := querySelectorAll (by_class "js-hidden") (kids_of cur)).
      intros e' y' He' Hy' Hu.
      apply In_writes in He' as ([a x] & He & ->).
      unfold writes_entry in *. cbn [fst snd] in *.
      apply in_map_iff in Hy' as (y & <- & Hy).
      destruct (writes_root (unhide_writes hidden) y) as (Ey & _).
      rewrite Ey in Hu.
      apply in_split in Hy as (pre & up & ->).
      destruct (entry_above _ _ _ _ _ He) as [Hy Hx].
      assert (E : (up, y) = (ac, cur))
        by (eapply same_uid_same_entry; eauto; simpl; congruence).
      inversion E; subst. clear E.
      destruct (has_class "js-hidden" x) eqn:Ehx.
      * destruct (nodes_in_elem _ _ _ Hx) as (ux & ? & ? & ? & ? & ? & ->).
        apply (class_removed "js-hidden" ux).
        -- match type of Hx with
           | In (_, ?X) _ => apply (In_unhide_writes hidden X ux)
           end; [|reflexivity].
           unfold hidden, querySelectorAll. apply in_map_iff.
           eexists (pre, _). split; [reflexivity|].
           apply filter_In. split; [exact Hx|exact Ehx].
        -- simpl. apply Nat.eqb_refl.
      * destruct (has_class "js-hidden"
                    (writes_node (unhide_writes hidden) x)) eqn:E; auto.
        apply writes_class_shrinks in E. congruence.
    + simpl. apply lookup_none in El. intros e y He Hy Hu.
      destruct e as [a x]. simpl in *.
      destruct (ancestor_listed _ _ _ _ He Hy) as [up Hup].
      exfalso. apply (El _ Hup). exact Hu.
  - simpl. intros e y He Hy Hu. destruct e as [a x]. simpl in *.
    destruct (ancestor_listed _ _ _ _ He Hy) as [up Hup].
    apply nodes_in_elem in Hup as (? & ? & ? & ? & ? & ? & ->). discriminate.
Qed.

(** After its turn, the first [.filter__more] an expanded filter had in
    the fetched fragment is gone, whatever was written before. *)
Lemma expandFilter_removes_more tmpl ws newFilter D0 aD M0 :
  NoDup (uids tmpl) ->
  keeps_class "filter__more" ws = true ->
  In (aD, D0) (nodes_in tmpl) ->
  querySelector (by_class "filter__more") (kids_of D0) = Some M0 ->
  uid_of newFilter = uid_of D0 ->
  absent (uid_of M0) (expandFilter newFilter (writes_forest ws tmpl)).
Proof.
  intros Hnd Hk HD HM HuD.
  set (t := writes_forest ws tmpl).
  assert (Hndt : NoDup (uids t)) by (apply NoDup_writes, Hnd).
  destruct (nodes_in_elem _ _ _ HD) as (u & tg & i & c & o & ks & ED).
  assert (Hu0 : uid_of D0 = Some u) by (subst D0; reflexivity).
  apply querySelector_some in HM as HM'. destruct HM' as (aM & HinM & _).
  pose proof (entry_below _ _ _ _ _ HD HinM) as HMt.
  (* an element of [t] with the identity of [M0] lies in the written
     content of the written [D0] *)
  assert (X : forall e', In e' (nodes_in t) -> uid_of (snd e') = uid_of M0 ->
              In (map (writes_node ws) aD, writes_node ws D0) (nodes_in t) /\
              In (map (writes_node ws) aM, snd e')
                 (nodes_in (kids_of (writes_node ws D0)))).
  { intros e' He' Hue'. pose proof He' as He''.
    apply In_writes in He'' as (e & He & ->).
    unfold writes_entry in Hue'. cbn [snd] in Hue'.
    destruct (writes_root ws (snd e)) as (Eu & _). rewrite Eu in Hue'.
    assert (E : e = (aM ++ D0 :: aD, M0))
      by (apply (same_uid_same_entry tmpl); auto).
    subst e. unfold writes_entry in He'. cbn [fst snd] in *.
    rewrite map_app in He'. cbn [map] in He'.
    apply entry_above in He'. exact He'. }
  rewrite expandFilter_eq. unfold expandFilter_writes.
  rewrite HuD, Hu0. fold t.
  destruct (lookup u t) as [cur|] eqn:El.
  - apply lookup_some in El as (ac & Hc & Huc).
    assert (Ecur : cur = writes_node ws D0).
    { pose proof Hc as Hc'. apply In_writes in Hc' as (e0 & He0 & E0).
      assert (e0 = (aD, D0)).
      { apply (same_uid_same_entry tmpl); auto. simpl.
        destruct (writes_root ws (snd e0)) as (Eu & _).
        pose proof (f_equal snd E0) as E1. simpl in E1.
        rewrite <- Eu, <- E1, Huc, Hu0. reflexivity. }
      subst e0. unfold writes_entry in E0. inversion E0. reflexivity. }
    assert (Ek : kids_of cur = writes_forest ws (kids_of D0))
      by (rewrite Ecur; apply writes_kids).
    rewrite writes_forest_app.
    destruct (first_with_class_tracked "filter__more" ws (kids_of D0) M0 Hk
                (NoDup_kids _ _ _ Hnd HD) HM) as [(M' & HM' & HuM')|Habs].
    + rewrite Ek, HM'. rewrite <- HuM'.
      destruct (uid_of M') as [m|] eqn:Em.
      * simpl. apply absent_remove.
      * apply querySelector_some in HM' as (a' & Hin' & _).
        apply nodes_in_elem in Hin' as (? & ? & ? & ? & ? & ? & ->).
        discriminate.
    + apply absent_writes, absent_writes.
      intros e' He' Hue'. destruct (X e' He' Hue') as [_ Hk'].
      rewrite <- Ecur, Ek in Hk'. apply (Habs _ Hk'). exact Hue'.
  - simpl. apply lookup_none in El.
    intros e' He' Hue'. destruct (X e' He' Hue') as [HD' _].
    apply (El _ HD'). simpl.
    destruct (writes_root ws D0) as (-> & _). exact Hu0.
Qed.

(** *** The open filter through the un-hiding *)

Lemma stands_write uT uF g w f :
  NoDup (uids f) ->
  keeps_open [w] = true -> keeps_class "filter__more" [w] = true ->
  (forall u, w = Remove u ->
             forall e, In e (nodes_in f) -> uid_of (snd e) = Some u ->
                       has_class "filter__more" (snd e) = true) ->
  stands uT uF g f -> stands uT uF g (write_forest w f).
Proof.
  intros Hnd Hko Hkc Hleg
    [(pre & Fm & up & m & Hin & HuT & Hid & Hop & HuF & Hno & Hg)
       (F & HF & HFu)].
  (* the filter and its ancestors survive *)
  assert (Hs : survives w (pre ++ Fm :: up, m) = true).
  { destruct w as [u v|c u|u]; auto. simpl.
    change (forallb (fun x => negb (has_uid u x)) (m :: pre ++ Fm :: up)
            = true).
    apply forallb_forall. intros x Hx.
    rewrite forallb_forall in Hno. specialize (Hno x Hx).
    destruct (has_uid u x) eqn:Ex; auto. exfalso.
    apply has_uid_iff in Ex.
    assert (Hl : exists a, In (a, x) (nodes_in f)).
    { destruct Hx as [<-|Hx]; [eauto|].
      eapply ancestor_listed; eauto. }
    destruct Hl as [a Ha].
    pose proof (Hleg u eq_refl (a, x) Ha Ex) as Hc. simpl in Hc.
    rewrite Hc in Hno. discriminate. }
  assert (Hclass : forall x, has_class "filter__more" (write_node w x)
                             = has_class "filter__more" x).
  { intros x. apply (writes_class_kept [w]). exact Hkc. }
  assert (Hopen : forall x, is_open (write_node w x) = is_open x).
  { intros x. apply (writes_open_kept [w]). exact Hko. }
  split.
  - exists (map (write_node w) pre), (write_node w Fm),
      (map (write_node w) up), (write_node w m).
    destruct (write_root w m) as (Em1 & _ & Em3).
    destruct (write_root w Fm) as (EF1 & _).
    rewrite Em1, Em3, EF1, Hopen. repeat split; auto.
    + apply In_write. exists (pre ++ Fm :: up, m). repeat split; auto.
      unfold write_entry. simpl. rewrite map_app. reflexivity.
    + replace (write_node w m
               :: map (write_node w) pre
                  ++ write_node w Fm :: map (write_node w) up)
        with (map (write_node w) (m :: pre ++ Fm :: up))
        by (simpl; rewrite map_app; reflexivity).
      rewrite forallb_forall in *. intros x' Hx'.
      apply in_map_iff in Hx' as (x & <- & Hx).
      rewrite Hclass. apply Hno, Hx.
    + apply (getElementById_write_kept w g f (pre ++ Fm :: up)); auto.
  - exists (write_node w F). destruct (write_root w F) as (-> & _).
    split; auto.
    apply getElementById_some in HF as HF'.
    destruct HF' as (_ & aF & HinF & _).
    destruct (entry_above _ _ _ _ _ Hin) as [HFm _].
    assert (E : (up, Fm) = (aF, F))
      by (eapply same_uid_same_entry; eauto; simpl; congruence).
    inversion E; subst. clear E.
    assert (HsF : survives w (aF, F) = true).
    { destruct w as [u v|c u|u]; auto. simpl in *.
      rewrite forallb_app in Hs. simpl in Hs.
      apply andb_true_iff in Hs as [_ Hs].
      apply andb_true_iff in Hs as [_ Hs]. exact Hs. }
    unfold getElementById in *. simpl in *.
    rewrite querySelector_write
      by (intros [a x]; simpl; apply write_has_id).
    unfold querySelector in HF.
    destruct (find _ (nodes_in f)) as [[a0 F0]|] eqn:Ef; [|discriminate].
    simpl in HF. inversion HF; subst F0.
    assert (a0 = aF).
    { apply find_some in Ef as [Hin0 _].
      assert (E : (a0, F) = (aF, F))
        by (eapply same_uid_same_entry; eauto).
      inversion E. reflexivity. }
    subst a0.
    rewrite (find_first_kept _ (survives w) _ _ Ef HsF). reflexivity.
Qed.

Lemma stands_writes uT uF g ws : forall f,
  NoDup (uids f) ->
  keeps_open ws = true -> keeps_class "filter__more" ws = true ->
  keeps_all ws = true ->
  stands uT uF g f -> stands uT uF g (writes_forest ws f).
Proof.
  induction ws as [|w ws IH]; intros f Hnd Ho Hc Ha Hst; simpl in *; auto.
  apply andb_true_iff in Ho as [Ho1 Ho2].
  apply andb_true_iff in Hc as [Hc1 Hc2].
  apply andb_true_iff in Ha as [Ha1 Ha2].
  apply IH; auto using NoDup_write.
  apply stands_write; auto.
  - simpl. rewrite Ho1. reflexivity.
  - simpl. rewrite Hc1. reflexivity.
  - intros u ->. discriminate.
Qed.

Lemma stands_expandFilter uT uF g newFilter t :
  NoDup (uids t) -> stands uT uF g t ->
  stands uT uF g (expandFilter newFilter t).
Proof.
  intros Hnd Hst. rewrite expandFilter_eq. unfold expandFilter_writes.
  destruct (uid_of newFilter) as [u|]; auto.
  destruct (lookup u t) as [cur|] eqn:El; auto.
  apply lookup_some in El as (ac & Hc & Huc).
  set (ws1 := unhide_writes
                (querySelectorAll (by_class "js-hidden") (kids_of cur))).
  destruct (unhide_writes_keep
              (querySelectorAll (by_class "js-hidden") (kids_of cur)))
    as (Ko & Ka & Kc). fold ws1 in Ko, Ka, Kc.
  rewrite writes_forest_app.
  assert (Hst1 : stands uT uF g (writes_forest ws1 t))
    by (apply stands_writes; auto).
  destruct (querySelector (by_class "filter__more") (kids_of cur))
    as [more|] eqn:Em; auto.
  destruct (uid_of more) as [m|] eqn:Eum; auto.
  change (stands uT uF g (write_forest (Remove m) (writes_forest ws1 t))).
  apply stands_write; auto using NoDup_writes.
  intros u0 E0 e He Hue. inversion E0; subst u0. clear E0.
  apply querySelector_some in Em as (am & Hm & Hcl).
  pose proof (entry_below _ _ _ _ _ Hc Hm) as Hmt.
  apply In_writes in He as (e0 & He0 & ->).
  unfold writes_entry in *. cbn [snd] in *.
  destruct (writes_root ws1 (snd e0)) as (Eu & _). rewrite Eu in Hue.
  assert (E : e0 = (am ++ cur :: ac, more))
    by (apply (same_uid_same_entry t); auto; simpl; congruence).
  subst e0. simpl. rewrite writes_class_kept by exact Kc. exact Hcl.
Qed.

Lemma NoDup_expandFilter newFilter t :
  NoDup (uids t) -> NoDup (uids (expandFilter newFilter t)).
Proof. rewrite expandFilter_eq. apply NoDup_writes. Qed.

(** *** The whole loop of lines 2163-2171 *)

Lemma restoreExpanded_fold expanded (I : forest -> Prop) L :
  (forall D t, I t -> I (expandFilter D t)) ->
  forall t, I t ->
  I (fold_left
       (fun t newFilter =>
          if includes (id_of newFilter) expanded
          then expandFilter newFilter t else t) L t).
Proof.
  intros Hstep. induction L as [|D L IH]; intros t Ht; simpl; auto.
  apply IH. destruct (includes (id_of D) expanded); auto.
Qed.

Lemma restoreExpanded_after expanded (I Q : forest -> Prop) L D :
  In D L -> includes (id_of D) expanded = true ->
  (forall D' t, I t -> I (expandFilter D' t)) ->
  (forall t, I t -> Q (expandFilter D t)) ->
  (forall D' t, I t -> Q t -> Q (expandFilter D' t)) ->
  forall t, I t ->
  Q (fold_left
       (fun t newFilter =>
          if includes (id_of newFilter) expanded
          then expandFilter newFilter t else t) L t).
Proof.
  intros HD HE HI Hest Hkeep.
  induction L as [|D' L IH]; intros t Ht; [contradiction|].
  simpl. destruct HD as [->|HD].
  - rewrite HE.
    apply (restoreExpanded_fold expanded (fun t => I t /\ Q t)).
    + intros D' t' [H1 H2]. split; auto.
    + split; auto.
  - apply IH; auto. destruct (includes (id_of D') expanded); auto.
Qed.

(** *** The swap *)

(** The form after [render]: the content of the [#facets] of the fragment
    as restored, when there is one; otherwise [render] throws at once. *)
Lemma render_form inv tmpl s :
  match getElementById "facets"
          (restoreExpanded (expanded s) (copyOpenState (form s) tmpl)) with
  | Some facets => form (snd (render inv tmpl s)) = kids_of facets
  | None => exists e, fst (render inv tmpl s) = Throw e
  end.
Proof.
  unfold render. rewrite bind_get. cbv beta zeta.
  destruct (getElementById "facets" _) as [facets|] eqn:E.
  - rewrite bind_deref_some, bind_modify.
    match goal with
    | |- form (snd (?m ?s0)) = _ =>
        assert (Hp : preserves form m); [|rewrite (Hp s0); reflexivity]
    end.
    preserve; try apply addListeners_preserves; try reflexivity.
    all: try (destruct (querySelector (by_tag "ul") (results _)); reflexivity).
    all: try (destruct (inv_updateUrl inv); reflexivity).
  - rewrite bind_deref_none. eexists. reflexivity.
Qed.

Lemma render_warnings inv tmpl : preserves warnings (render inv tmpl).
Proof.
  unfold render. preserve; try apply addListeners_preserves;
    try reflexivity.
  - destruct (querySelector (by_tag "ul") (results s)); reflexivity.
  - destruct (inv_updateUrl inv); reflexivity.
Qed.

Lemma app_one_neq {A} (l : list A) x : (l ++ [x]) <> l.
Proof.
  intros H. apply (f_equal (@List.length A)) in H.
  rewrite length_app in H. simpl in H. lia.
Qed.

(** A response rendered without a warning was rendered to the end. *)
Lemma resumeText_quiet c inv tmpl s :
  find_pending c AwaitText s = Some inv ->
  is_aborted c s = false ->
  warnings (resumeText c (TextBody tmpl) s) = warnings s ->
  fst (render inv tmpl (drop_pending c s)) = Normal tt /\
  form (resumeText c (TextBody tmpl) s)
  = form (snd (render inv tmpl (drop_pending c s))).
Proof.
  intros Hf Hab Hw. unfold resumeText in *. rewrite Hf in *.
  replace (is_aborted c (drop_pending c s)) with false in *
    by (symmetry; exact Hab).
  pose proof (render_warnings inv tmpl (drop_pending c s)) as Hr.
  destruct (render inv tmpl (drop_pending c s)) as [[[]|e] s1];
    simpl in *.
  - auto.
  - exfalso. rewrite Hr in Hw. exact (app_one_neq _ _ Hw).
Qed.

Lemma forallb_map {A B} (p : B -> bool) (h : A -> B) l :
  forallb p (map h l) = forallb (fun x => p (h x)) l.
Proof. induction l; simpl; congruence. Qed.

Lemma forallb_pointwise {A} (p q : A -> bool) l :
  (forall x, p x = q x) -> forallb p l = forallb q l.
Proof. intros H. induction l; simpl; congruence. Qed.

Lemma existsb_map {A B} (p : B -> bool) (h : A -> B) l :
  existsb p (map h l) = existsb (fun x => p (h x)) l.
Proof. induction l; simpl; congruence. Qed.

Lemma writes_has_tag ws t n : has_tag t (writes_node ws n) = has_tag t n.
Proof.
  unfold has_tag. destruct (writes_root ws n) as (_ & -> & _). reflexivity.
Qed.

Lemma writes_has_id ws i n : has_id i (writes_node ws n) = has_id i n.
Proof.
  unfold has_id. destruct (writes_root ws n) as (_ & _ & ->). reflexivity.
Qed.

(** Writes change neither tags nor ids, so [#facets details-disclosure >
    details] selects the same elements before and after. *)
Lemma facets_dd_details_writes ws e :
  facets_dd_details (fst (writes_entry ws e)) (snd (writes_entry ws e))
  = facets_dd_details (fst e) (snd e).
Proof.
  destruct e as [a n]. unfold facets_dd_details, writes_entry. simpl.
  rewrite writes_has_tag. destruct a as [|p up]; simpl; [reflexivity|].
  rewrite writes_has_tag, existsb_map. f_equal. f_equal.
  induction up as [|x up IH]; simpl; [reflexivity|].
  rewrite writes_has_id, IH. reflexivity.
Qed.

Lemma querySelectorAll_some sel f n :
  In n (querySelectorAll sel f) ->
  exists a, In (a, n) (nodes_in f) /\ sel a n = true.
Proof.
  unfold querySelectorAll. intros H. apply in_map_iff in H.
  destruct H as ([a x] & Hx & H). simpl in Hx. subst x.
  apply filter_In in H. exists a. exact H.
Qed.

(** Lines 2157-2171, for a group that is open in the live form. *)
Lemma restored_open live expanded tmpl G T F0 pre up :
  NoDup (uids tmpl) ->
  In G (querySelectorAll dd_details live) -> is_open G = true ->
  (forall G', In G' (querySelectorAll dd_details live) ->
              id_of G' = id_of G -> is_open G' = true) ->
  getElementById "facets" tmpl = Some F0 ->
  getElementById (id_of G) tmpl = Some T -> has_tag "details" T = true ->
  In (pre ++ F0 :: up, T) (nodes_in tmpl) ->
  forallb (fun x => negb (has_class "filter__more" x))
    (T :: pre ++ F0 :: up) = true ->
  let t := restoreExpanded expanded (copyOpenState live tmpl) in
  NoDup (uids t) /\ stands (uid_of T) (uid_of F0) (id_of G) t.
Proof.
  intros Hnd HG HGo Htwin HF0 HT Htag Hin Hcls t.
  destruct (getElementById_some _ _ _ HT) as (_ & _ & _ & HidT).
  destruct (copyOpenState_writes live tmpl) as (ws & E & Hall & Hkeep).
  assert (Hopen : open_at (uid_of T) (copyOpenState live tmpl)).
  { apply copyOpenState_open; auto.
    - rewrite HidT. exact HT.
    - intros e He Hid. apply Htwin; congruence.
    - right. exists G. split; [exact HG | congruence]. }
  subst t. unfold restoreExpanded.
  apply (restoreExpanded_fold expanded
           (fun t => NoDup (uids t) /\ stands (uid_of T) (uid_of F0) (id_of G) t)).
  { intros D t [H1 H2]. split.
    - apply NoDup_expandFilter; exact H1.
    - apply stands_expandFilter; assumption. }
  rewrite E in *. split; [apply NoDup_writes; exact Hnd|].
  assert (Hin' : In (writes_entry ws (pre ++ F0 :: up, T))
                    (nodes_in (writes_forest ws tmpl))).
  { rewrite nodes_in_writes_all by exact Hall. apply in_map. exact Hin. }
  split.
  - exists (map (writes_node ws) pre), (writes_node ws F0),
      (map (writes_node ws) up), (writes_node ws T).
    unfold writes_entry in Hin'. simpl in Hin'. rewrite map_app in Hin'.
    simpl in Hin'.
    destruct (writes_root ws T) as (HuT & _ & HiT).
    destruct (writes_root ws F0) as (HuF & _ & _).
    repeat split; auto.
    + congruence.
    + apply (Hopen _ Hin'). simpl. exact HuT.
    + change (writes_node ws T :: map (writes_node ws) pre ++
                writes_node ws F0 :: map (writes_node ws) up)
        with (writes_node ws T :: map (writes_node ws) pre ++
                map (writes_node ws) (F0 :: up)).
      rewrite <- map_app.
      change (forallb (fun x => negb (has_class "filter__more" x))
                (map (writes_node ws) (T :: pre ++ F0 :: up)) = true).
      rewrite forallb_map.
      rewrite (forallb_pointwise _
                 (fun x => negb (has_class "filter__more" x)));
        [exact Hcls|].
      intros x. rewrite writes_class_kept by apply Hkeep. reflexivity.
    + rewrite getElementById_writes_all by exact Hall. rewrite HT.
      reflexivity.
  - exists (writes_node ws F0).
    rewrite getElementById_writes_all by exact Hall. rewrite HF0.
    split; [reflexivity|]. apply writes_root.
Qed.

(** Lines 2163-2171, for a group whose id was recorded. *)
Lemma restored_expanded live expanded tmpl D :
  NoDup (uids tmpl) ->
  In D (querySelectorAll facets_dd_details tmpl) ->
  includes (id_of D) expanded = true ->
  let t := restoreExpanded expanded (copyOpenState live tmpl) in
  shown_below (uid_of D) t /\
  (forall M, querySelector (by_class "filter__more") (kids_of D) = Some M ->
             absent (uid_of M) t).
Proof.
  intros Hnd HD Hinc t.
  destruct (querySelectorAll_some _ _ _ HD) as (aD & HinD & _).
  destruct (copyOpenState_writes live tmpl) as (ws & E & Hall & Hkeep).
  assert (HD1 : In (writes_node ws D)
                   (querySelectorAll facets_dd_details
                      (copyOpenState live tmpl))).
  { rewrite E, querySelectorAll_writes_all;
      [apply in_map; exact HD | exact Hall | apply facets_dd_details_writes]. }
  destruct (writes_root ws D) as (HuD & _ & HiD).
  subst t. unfold restoreExpanded. split.
  - apply (restoreExpanded_after expanded (fun t => NoDup (uids t))
             (shown_below (uid_of D)) _ (writes_node ws D)); auto.
    + congruence.
    + intros D' t H. apply NoDup_expandFilter; exact H.
    + intros t H. rewrite <- HuD. apply expandFilter_shows; exact H.
    + intros D' t _ H. rewrite expandFilter_eq.
      apply shown_below_writes; exact H.
    + rewrite E. apply NoDup_writes; exact Hnd.
  - intros M HM.
    apply (restoreExpanded_after expanded
             (fun t => exists ws', t = writes_forest ws' tmpl /\
                                   keeps_class "filter__more" ws' = true)
             (absent (uid_of M)) _ (writes_node ws D)); auto.
    + congruence.
    + intros D' t (ws' & -> & Hk). rewrite expandFilter_eq.
      exists (ws' ++ expandFilter_writes D' (writes_forest ws' tmpl)).
      split; [symmetry; apply writes_forest_app|].
      rewrite keeps_class_app, Hk.
      destruct (expandFilter_writes_keep D' (writes_forest ws' tmpl))
        as (_ & ->). reflexivity.
    + intros t (ws' & -> & Hk).
      apply (expandFilter_removes_more tmpl ws' _ D aD M); auto.
    + intros D' t _ H. rewrite expandFilter_eq.
      apply absent_writes; exact H.
    + exists ws. split; [exact E | apply Hkeep].
Qed.

(** *** What [this.expanded] records *)

Lemma finish_expanded r : expanded (finish r) = expanded (snd r).
Proof. destruct r as [[u|e] s]; reflexivity. Qed.

Lemma render_expanded inv tmpl : preserves expanded (render inv tmpl).
Proof.
  unfold render. preserve; try apply addListeners_preserves;
    try reflexivity.
  - destruct (querySelector (by_tag "ul") (results s)); reflexivity.
  - destruct (inv_updateUrl inv); reflexivity.
Qed.

Lemma applyFilters_expanded p u s :
  expanded (applyFilters p u s) = expanded s.
Proof.
  unfold applyFilters, start, bind, modify, get, deref, ret, throw,
    new_controller, abort_current. simpl.
  destruct (closeBtn s); simpl;
    destruct (applyFiltersFetchAbortController s); reflexivity.
Qed.

Lemma resumeFetch_expanded c o s :
  expanded (resumeFetch c o s) = expanded s.
Proof.
  unfold resumeFetch. destruct (find_pending c AwaitFetch s); auto.
  destruct (is_aborted c (drop_pending c s)); [apply finish_expanded|].
  destruct o as [e|[|]]; try apply finish_expanded. reflexivity.
Qed.

Lemma resumeText_expanded c o s :
  expanded (resumeText c o s) = expanded s.
Proof.
  unfold resumeText. destruct (find_pending c AwaitText s); auto.
  destruct (is_aborted c (drop_pending c s)); [apply finish_expanded|].
  destruct o as [e|tmpl]; rewrite finish_expanded; [reflexivity|].
  apply (render_expanded _ tmpl (drop_pending c s)).
Qed.

Lemma includes_app_l x l l' :
  includes x l = true -> includes x (l ++ l') = true.
Proof.
  unfold includes. rewrite existsb_app. intros ->. reflexivity.
Qed.

(** A click never takes an id out of [this.expanded]. *)
Lemma handleFiltersClick_expanded u href s x :
  includes x (expanded s) = true ->
  includes x (expanded (handleFiltersClick u href s)) = true.
Proof.
  intros Hx. unfold handleFiltersClick.
  destruct (lookup u (form s)) as [target|]; auto.
  destruct (has_class "js-clear-filter" target).
  - destruct href as [p|]; [|exact Hx].
    destruct (has_class "js-show-more" target);
      [|rewrite applyFilters_expanded; exact Hx].
    destruct (closest _ _ _) as [filter|]; simpl;
      [|rewrite applyFilters_expanded; exact Hx].
    rewrite applyFilters_expanded.
    destruct (includes (id_of filter) (expanded s)); simpl;
      rewrite ?applyFilters_expanded; auto using includes_app_l.
  - destruct (has_class "js-show-more" target); [|exact Hx].
    destruct (closest _ _ _) as [filter|]; simpl; [|exact Hx].
    destruct (includes (id_of filter) (expanded s)); simpl;
      auto using includes_app_l.
Qed.

(** Lines 2074-2085: a click on a "show more" button records the id of the
    filter around it. *)
Lemma handleFiltersClick_records u s target filter :
  lookup u (form s) = Some target ->
  has_class "js-clear-filter" target = false ->
  has_class "js-show-more" target = true ->
  closest (has_class "filter") u (form s) = Some filter ->
  includes (id_of filter) (expanded (handleFiltersClick u None s)) = true.
Proof.
  intros Hl Hc Hm Hf. unfold handleFiltersClick.
  rewrite Hl, Hc, Hm, Hf. simpl.
  destruct (includes (id_of filter) (expanded s)) eqn:E; simpl; [exact E|].
  unfold includes. rewrite existsb_app. simpl.
  rewrite String.eqb_refl. apply orb_true_iff. right. reflexivity.
Qed.

(** Once recorded, an id stays recorded whatever happens next. *)
Lemma step_expanded s e x :
  includes x (expanded s) = true -> includes x (expanded (step s e)) = true.
Proof.
  intros Hx. destruct e; simpl.
  - rewrite applyFilters_expanded. exact Hx.
  - unfold handleFilterChange.
    destruct (FilterChange.handleFilterChange _ _ _ _) as [[? ?]|]; auto.
    rewrite applyFilters_expanded. exact Hx.
  - apply handleFiltersClick_expanded, Hx.
  - unfold handleActiveFiltersClick.
    destruct (String.eqb tagName "A"); auto. destruct href; auto.
    rewrite applyFilters_expanded. exact Hx.
  - unfold handleHistoryChange. destruct st; auto.
    rewrite applyFilters_expanded. exact Hx.
  - rewrite resumeFetch_expanded. exact Hx.
  - rewrite resumeText_expanded. exact Hx.
Qed.

Lemma run_expanded tr : forall s x,
  includes x (expanded s) = true -> includes x (expanded (run s tr)) = true.
Proof.
  induction tr as [|e tr IH]; intros s x Hx; simpl; auto.
  apply IH, step_expanded, Hx.
Qed.

(** *** Claim C4 *)

(** C4.  Expanded filter groups survive a filter-apply cycle.  Let the call
    of [applyFilters] under controller [c] wait for the body of its response,
    let the body parse to [tmpl], whose elements are distinct nodes, and let
    the call run to its end without a warning.  Then, in the form as the
    call leaves it:
    - for every group [G] of the live form that is open (and shares its id
      with no closed group), once the fragment has [G]'s id on a [details]
      element [T] inside its [#facets], outside any [.filter__more]: what
      [G]'s id finds in the new form is [T], and it is open;
    - for every group [D] of the fragment's [#facets] whose id is recorded in
      [this.expanded]: no element below [D] has the class [js-hidden], and
      the first [.filter__more] of [D] is not in the form. *)
Theorem expanded_filters_survive :
  forall (s : State) (c : nat) (inv : Invocation) (tmpl : forest),
    find_pending c AwaitText s = Some inv ->
    is_aborted c s = false ->
    NoDup (uids tmpl) ->
    let s' := resumeText c (TextBody tmpl) s in
    warnings s' = warnings s ->
    (forall G T F0 pre up,
        In G (querySelectorAll dd_details (form s)) -> is_open G = true ->
        (forall G', In G' (querySelectorAll dd_details (form s)) ->
                    id_of G' = id_of G -> is_open G' = true) ->
        getElementById "facets" tmpl = Some F0 ->
        getElementById (id_of G) tmpl = Some T ->
        has_tag "details" T = true ->
        In (pre ++ F0 :: up, T) (nodes_in tmpl) ->
        forallb (fun x => negb (has_class "filter__more" x))
          (T :: pre ++ F0 :: up) = true ->
        exists T',
          getElementById (id_of G) (form s') = Some T' /\
          uid_of T' = uid_of T /\ is_open T' = true) /\
    (forall D,
        In D (querySelectorAll facets_dd_details tmpl) ->
        includes (id_of D) (expanded s) = true ->
        (forall a x y,
            In (a, x) (nodes_in (form s')) -> In y a ->
            uid_of y = uid_of D -> has_class "js-hidden" x = false) /\
        (forall M a x,
            querySelector (by_class "filter__more") (kids_of D) = Some M ->
            In (a, x) (nodes_in (form s')) -> uid_of x <> uid_of M)).
Proof.
  intros s c inv tmpl Hf Hab Hnd s' Hw.
  destruct (resumeText_quiet c inv tmpl s Hf Hab Hw) as [Hok Hform].
  pose proof (render_form inv tmpl (drop_pending c s)) as Hr.
  change (form (drop_pending c s)) with (form s) in Hr.
  change (expanded (drop_pending c s)) with (expanded s) in Hr.
  remember (restoreExpanded (expanded s) (copyOpenState (form s) tmpl))
    as t eqn:Et.
  destruct (getElementById "facets" t) as [F|] eqn:EF;
    [|destruct Hr as [e He]; rewrite Hok in He; discriminate].
  assert (Hs' : form s' = kids_of F) by (unfold s'; rewrite Hform; exact Hr).
  destruct (getElementById_some _ _ _ EF) as (_ & aF & HinF & _).
  split.
  - intros G T F0 pre up HG HGo Htwin HF0 HT Htag Hin Hcls.
    destruct (restored_open (form s) (expanded s) tmpl G T F0 pre up
                Hnd HG HGo Htwin HF0 HT Htag Hin Hcls)
      as [Hnd2 [(pre2 & Fm & up2 & m & Hin2 & Hu & Hid & Hop & HuF & _ & Hg)
                  (F' & HF' & HuF')]].
    rewrite <- Et in *. rewrite EF in HF'. injection HF' as <-.
    destruct (entry_above _ _ _ _ _ Hin2) as [HFm Hm].
    assert (E : (up2, Fm) = (aF, F))
      by (apply (same_uid_same_entry t); auto; simpl; congruence).
    injection E as -> ->.
    exists m. rewrite Hs'. split; [|auto].
    apply (getElementById_below _ t aF F pre2 m); auto.
  - intros D HD Hinc.
    destruct (restored_expanded (form s) (expanded s) tmpl D Hnd HD Hinc)
      as [Hshown Habs].
    rewrite <- Et in *. split.
    + intros a x y Hx Hy Hu. rewrite Hs' in Hx.
      pose proof (entry_below _ _ _ _ _ HinF Hx) as Hx'.
      apply (Hshown _ y Hx'); simpl; auto.
      apply in_or_app. left. exact Hy.
    + intros M a x HM Hx. rewrite Hs' in Hx.
      pose proof (entry_below _ _ _ _ _ HinF Hx) as Hx'.
      apply (Habs M HM _ Hx').
Qed.

End ExpandedFilters.
Section ExpandedFiltersWitnesses.
Import Dom FacetFilters Examples.

(** The shopper shows more colours, then applies a filter: the response is
    rendered with the colour group open, its second colour shown and its
    "show more" block gone. *)
Lemma expanded_filters_survive_witness :
  let s := run page [FiltersClick 17 None; Call "a=1" true;
                     FetchSettled 0 (FetchResponse true)] in
  let s' := resumeText 0 (TextBody response) s in
  expanded s = ["filter-color"] /\
  (exists T',
      getElementById "filter-color" (form s') = Some T' /\
      uid_of T' = Some 112 /\ is_open T' = true) /\
  (forall a x y,
      In (a, x) (nodes_in (form s')) -> In y a ->
      uid_of y = Some 112 -> has_class "js-hidden" x = false) /\
  (forall a x, In (a, x) (nodes_in (form s')) -> uid_of x <> Some 116).
Proof.
  cbv zeta.
  set (s := run page [FiltersClick 17 None; Call "a=1" true;
                      FetchSettled 0 (FetchResponse true)]).
  split; [reflexivity|].
  assert (Hnd : NoDup (uids response)).
  { vm_compute. repeat (constructor; [simpl; intuition discriminate|]).
    constructor. }
  destruct (expanded_filters_survive s 0
              (mkInvocation 0 "/collections/x?a=1&section_id=template--1__main"
                 "a=1" true AwaitText)
              response eq_refl eq_refl Hnd eq_refl) as [Hopen Hrec].
  set (G := nth 0 (querySelectorAll dd_details (form s)) (Text "")).
  set (F0 := nth 0 response (Text "")).
  set (filters := nth 0 (kids_of F0) (Text "")).
  set (dd := nth 0 (kids_of filters) (Text "")).
  set (T := nth 0 (kids_of dd) (Text "")).
  set (M := nth 1 (kids_of T) (Text "")).
  split; [|split].
  - apply (Hopen G T F0 [dd; filters] []).
    + vm_compute. left. reflexivity.
    + reflexivity.
    + intros G' HG'. vm_compute in HG'.
      destruct HG' as [<-|[<-|[]]]; [reflexivity|discriminate].
    + reflexivity.
    + reflexivity.
    + reflexivity.
    + vm_compute. do 3 right. left. reflexivity.
    + reflexivity.
  - apply (Hrec T); [vm_compute; left; reflexivity | reflexivity].
  - intros a x. apply (proj2 (Hrec T (or_introl eq_refl) eq_refl) M a x).
    reflexivity.
Defined.

End ExpandedFiltersWitnesses.

(** ** CustomPagination *)

Section PaginationProps.
Import CustomPagination.

Lemma finally_spec s :
  exists c s',
    finally s = (c, s') /\
    ready s' = true /\
    beyond_finally s' = beyond_finally s /\
    match pagination s with
    | Some _ => c = Normal tt
    | None => c = Throw (TypeError "this.pagination is null")
    end.
Proof.
  unfold finally, isTraditional, bind, modify, get, deref, ret, throw.
  simpl. destruct (pagination s) as [p|] eqn:Hp; simpl.
  - destruct (data_is "traditional" (pg_style p)); simpl;
      do 2 eexists; (split; [reflexivity|]); repeat split;
      unfold ready, beyond_finally; simpl; rewrite ?Hp; simpl;
      destruct (loadMoreButton s); reflexivity.
  - do 2 eexists. split; [reflexivity|]. repeat split;
      unfold ready, beyond_finally; simpl; rewrite ?Hp;
      destruct (loadMoreButton s); reflexivity.
Qed.

Lemma catch_pagination r : pagination (catch r) = pagination (snd r).
Proof.
  destruct r as [[u|e] s]; simpl; auto.
  unfold clearTimer. simpl. destruct (intersectingTimer s); reflexivity.
Qed.

Lemma catch_flight r :
  pending (catch r) = pending (snd r) /\ results (catch r) = results (snd r)
  /\ fetched (catch r) = fetched (snd r)
  /\ settled (catch r) = settled (snd r).
Proof.
  destruct r as [[u|e] s]; simpl; auto.
  unfold clearTimer. simpl. destruct (intersectingTimer s); auto.
Qed.

(** However its [try] block ended, a call leaves the instance ready and
    the suspended calls, the results and the requests as they were. *)
Lemma finish_spec r :
  ready (finish r) = true /\
  isFetching (finish r) = false /\
  pending (finish r) = pending (snd r) /\
  results (finish r) = results (snd r) /\
  fetched (finish r) = fetched (snd r) /\
  settled (finish r) =
    (settled (snd r) ++
     [match pagination (snd r) with
      | Some _ => Normal tt
      | None => Throw (TypeError "this.pagination is null")
      end])%list.
Proof.
  unfold finish.
  destruct (finally_spec (catch r)) as (c & s' & -> & Hr & Hb & Hc).
  destruct (catch_flight r) as (Hp & Hres & Hf & Hs).
  rewrite catch_pagination in Hc.
  assert (Hp' : pending s' = pending (catch r))
    by (unfold beyond_finally in Hb; congruence).
  assert (Hres' : results s' = results (catch r))
    by (unfold beyond_finally in Hb; congruence).
  assert (Hf' : fetched s' = fetched (catch r))
    by (unfold beyond_finally in Hb; congruence).
  assert (Hs' : settled s' = settled (catch r))
    by (unfold beyond_finally in Hb; congruence).
  unfold ready in *. simpl.
  apply andb_true_iff in Hr as [Hr1 Hr3].
  apply andb_true_iff in Hr1 as [Hr1 Hr2].
  repeat split.
  - rewrite Hr1, Hr2, Hr3. reflexivity.
  - apply negb_true_iff. exact Hr1.
  - congruence.
  - congruence.
  - congruence.
  - rewrite Hs', Hs. destruct (pagination (snd r)); subst c; reflexivity.
Qed.

Lemma start_spec s :
  match start s with
  | (Normal inv, s') =>
      inv = mkInvocation (next_ctrl s) AwaitFetch /\
      pending s' = pending s /\ isFetching s' = true /\
      results s' = results s /\
      exists b, loadMoreButton s = Some b /\
                fetched s' = (fetched s ++ [b_href b])%list
  | (Throw e, s') =>
      pending s' = pending s /\ results s' = results s /\
      fetched s' = fetched s
  end.
Proof.
  unfold start, isTraditional, bind, modify, get, deref, ret, throw. simpl.
  destruct (loadMoreButton s) as [b|] eqn:Hb; simpl; auto.
  destruct (pagination s) as [p|] eqn:Hp; simpl; auto.
  destruct (data_is "traditional" (pg_style p)); simpl;
    repeat split; eauto.
Qed.

Lemma checkResponse_state ok status s : snd (checkResponse ok status s) = s.
Proof.
  unfold checkResponse, bind, get, throw, ret. simpl.
  destruct ok; simpl; auto. destruct (data_is "true" (pause s)); auto.
Qed.

Ltac render_cases :=
  repeat match goal with
  | |- context [clearTimer ?s] =>
      unfold clearTimer; destruct (intersectingTimer s); reflexivity
  end.

Lemma render_pending page : preserves pending (render page).
Proof.
  unfold render. preserve; try reflexivity; render_cases.
Qed.

Lemma render_fetched page : preserves fetched (render page).
Proof.
  unfold render. preserve; try reflexivity; render_cases.
Qed.

Lemma loadMore_guard s :
  isFetching s = true \/ data_is "false" (pause s) = false ->
  loadMore s = s.
Proof.
  unfold loadMore. intros [H|H]; rewrite H; simpl; auto.
  rewrite andb_false_r. reflexivity.
Qed.

Lemma loadMore_flight s : single_flight s -> single_flight (loadMore s).
Proof.
  intros Hinv. unfold loadMore.
  destruct (negb (isFetching s) && data_is "false" (pause s)) eqn:G; auto.
  apply andb_true_iff in G as [G _]. apply negb_true_iff in G.
  destruct Hinv as [[Hp _]|(i & _ & Hf)]; [|congruence].
  pose proof (start_spec s) as Hs.
  destruct (start s) as [[inv|e] s'].
  - destruct Hs as (_ & Hp' & Hf' & _). right. exists inv. simpl.
    rewrite Hp', Hp. auto.
  - destruct Hs as (Hp' & _).
    destruct (finish_spec (Throw e, s')) as (_ & Hf & Hpe & _).
    left. simpl in Hpe. rewrite Hpe, Hp', Hp. auto.
Qed.

Lemma cp_find_pending_some c st s i :
  find_pending c st s = Some i ->
  In i (pending s) /\ i = mkInvocation c st.
Proof.
  unfold find_pending. intros H. apply find_some in H as [Hin Hb].
  apply andb_true_iff in Hb as [Hc Hs]. apply Nat.eqb_eq in Hc.
  split; auto. destruct i as [ic ist]. simpl in *. subst.
  destruct ist, st; simpl in Hs; congruence.
Qed.

(** With a single suspended call, resuming it empties the list. *)
Lemma drop_only c st s i :
  single_flight s -> find_pending c st s = Some i ->
  pending s = [mkInvocation c st] /\ isFetching s = true /\
  pending (drop_pending c s) = [].
Proof.
  intros Hinv Hf. apply cp_find_pending_some in Hf as [Hin ->].
  destruct Hinv as [[Hp _]|(j & Hp & Hfe)].
  - rewrite Hp in Hin. contradiction.
  - rewrite Hp in Hin. destruct Hin as [Hj|[]]. subst j.
    unfold drop_pending. rewrite Hp. simpl. rewrite Nat.eqb_refl.
    auto.
Qed.

Lemma resumeFetch_flight c o s :
  single_flight s -> single_flight (resumeFetch c o s).
Proof.
  intros Hinv. unfold resumeFetch.
  destruct (find_pending c AwaitFetch s) as [inv|] eqn:Hf; auto.
  destruct (drop_only c _ s inv Hinv Hf) as (Hp & Hfe & Hd).
  assert (Hfin : forall r, pending (snd r) = [] -> single_flight (finish r)).
  { intros r Hr. destruct (finish_spec r) as (_ & H1 & H2 & _).
    left. rewrite H2, Hr. auto. }
  destruct (is_aborted c (drop_pending c s)); [apply Hfin; exact Hd|].
  destruct o as [e|ok status]; [apply Hfin; exact Hd|].
  pose proof (checkResponse_state ok status (drop_pending c s)) as Hc.
  destruct (checkResponse ok status (drop_pending c s)) as [[u|e] s'];
    simpl in Hc; subst s'.
  - right. exists (mkInvocation c AwaitText). split; [|exact Hfe].
    change (mkInvocation c AwaitText :: pending (drop_pending c s)
            = [mkInvocation c AwaitText]).
    rewrite Hd. reflexivity.
  - apply Hfin. exact Hd.
Qed.

Lemma resumeText_flight c o s :
  single_flight s -> single_flight (resumeText c o s).
Proof.
  intros Hinv. unfold resumeText.
  destruct (find_pending c AwaitText s) as [inv|] eqn:Hf; auto.
  destruct (drop_only c _ s inv Hinv Hf) as (Hp & Hfe & Hd).
  assert (Hfin : forall r, pending (snd r) = [] -> single_flight (finish r)).
  { intros r Hr. destruct (finish_spec r) as (_ & H1 & H2 & _).
    left. rewrite H2, Hr. auto. }
  destruct (is_aborted c (drop_pending c s)); [apply Hfin; exact Hd|].
  destruct o as [e|page]; apply Hfin; [exact Hd|].
  rewrite render_pending. exact Hd.
Qed.

Lemma single_flight_same s s' :
  pending s' = pending s -> isFetching s' = isFetching s ->
  single_flight s -> single_flight s'.
Proof. unfold single_flight. intros -> ->. auto. Qed.

Lemma clearTimer_flight s : single_flight s -> single_flight (clearTimer s).
Proof.
  apply single_flight_same; unfold clearTimer;
    destruct (intersectingTimer s); reflexivity.
Qed.

Lemma intersections_flight entries : forall s,
  single_flight s -> single_flight (fold_left onIntersection entries s).
Proof.
  induction entries as [|b entries IH]; intros s Hs; simpl; auto.
  apply IH. unfold onIntersection. destruct b.
  - eapply single_flight_same; [| |apply loadMore_flight, Hs]; reflexivity.
  - apply clearTimer_flight, Hs.
Qed.

Lemma init_flight v s : single_flight s -> single_flight (init v s).
Proof.
  apply single_flight_same; unfold init;
    destruct (v_pagination v) as [p|]; try reflexivity;
    destruct (data_truthy (pg_isMore p)); try reflexivity; simpl;
    destruct (infiniteScroll s); reflexivity.
Qed.

Lemma step_flight s e : single_flight s -> single_flight (step s e).
Proof.
  intros Hs. unfold step. destruct (enabled s e); auto.
  destruct e; try (apply loadMore_flight, Hs).
  - apply intersections_flight, Hs.
  - eapply single_flight_same; [| |exact Hs]; unfold handleResultClick;
      destruct (controller s); reflexivity.
  - eapply single_flight_same; [| |exact Hs]; reflexivity.
  - apply init_flight. eapply single_flight_same; [| |exact Hs];
      unfold destroy, disconnect, clearTimer;
      destruct (intersectingTimer s); reflexivity.
  - apply resumeFetch_flight, Hs.
  - apply resumeText_flight, Hs.
Qed.

Lemma run_flight tr : forall s, single_flight s -> single_flight (run s tr).
Proof.
  induction tr as [|e tr IH]; intros s Hs; simpl; auto.
  apply IH, step_flight, Hs.
Qed.

Lemma construct_flight infinite pauseAttr n v :
  single_flight (construct infinite pauseAttr n v).
Proof. unfold construct. apply init_flight. left. auto. Qed.

Lemma not_in_filter_neq t l :
  existsb (Nat.eqb t) (filter (fun x => negb (x =? t)) l) = false.
Proof.
  induction l as [|x l IH]; simpl; auto.
  destruct (x =? t) eqn:E; simpl; auto.
  rewrite IH, orb_false_r. rewrite Nat.eqb_sym. exact E.
Qed.

(** What the [finally] block keeps of a [try] block that ended normally. *)
Lemma finish_normal u s :
  let s' := finish (Normal u, s) in
  whenPaginatedOnly s' = whenPaginatedOnly s /\
  intersectingTimer s' = intersectingTimer s /\
  timers s' = timers s /\
  observer s' = observer s /\
  option_map pg_attached (pagination s') =
    option_map pg_attached (pagination s) /\
  option_map (fun b => (b_attached b, b_bound b)) (loadMoreButton s') =
    option_map (fun b => (b_attached b, b_bound b)) (loadMoreButton s).
Proof.
  unfold finish. simpl.
  destruct (finally_spec s) as (c & s' & -> & _ & Hb & _).
  unfold beyond_finally in Hb. simpl. repeat split; congruence.
Qed.

(** The last-page branch of [render], lines 165-170. *)
Lemma render_exhausted page np pg r rs s :
  results s = r :: rs ->
  page_pagination page = Some np ->
  data_truthy (np_isMore np) = false ->
  pagination s = Some pg ->
  render page s =
    (Normal tt,
     set_whenPaginatedOnly 0
       (disconnect
          (clearTimer
             (on_button
                (fun b => mkButton (b_href b) (b_loading b) (b_ariaDisabled b)
                            (b_bound b) false)
                (on_pagination
                   (fun p => mkPaginationEl (pg_style p) (pg_isMore p)
                               (pg_loading p) false)
                   (set_results (results s ++ page_results page)%list s)))))).
Proof.
  intros Hr Hp Hm Hpg.
  unfold render, bind, get, modify, deref, ret, throw.
  assert (Hl : exists x, last (map Some (results s)) None = Some x).
  { rewrite Hr. clear. revert r. induction rs as [|y rs IH]; intros r.
    - exists r. reflexivity.
    - destruct (IH y) as [x Hx]. exists x. exact Hx. }
  destruct Hl as [x ->]. simpl. rewrite Hp. simpl. rewrite Hm, Hpg.
  reflexivity.
Qed.

(** *** Timers left behind *)

Lemma cleared_idem h l : cleared_of h (cleared_of h l) = cleared_of h l.
Proof.
  destruct h as [t|]; simpl; [|reflexivity].
  induction l as [|x l IH]; simpl; [reflexivity|].
  destruct (negb (x =? t)) eqn:E; simpl; [rewrite E, IH|]; auto.
Qed.

Lemma cleared_held h l :
  (forall t, In t l -> h = Some t) -> cleared_of h l = [].
Proof.
  induction l as [|x l IH]; intros H.
  - destruct h; reflexivity.
  - pose proof (H x (or_introl eq_refl)) as Hx. subst h. simpl.
    rewrite Nat.eqb_refl. simpl. apply IH.
    intros t Ht. apply H. right. exact Ht.
Qed.

Lemma cleared_In h l t : In t (cleared_of h l) -> In t l.
Proof.
  destruct h as [t0|]; simpl; [|auto].
  intros H. apply filter_In in H. tauto.
Qed.

Lemma clearTimer_timing s :
  intersectingTimer (clearTimer s) = intersectingTimer s /\
  timers (clearTimer s) = cleared_of (intersectingTimer s) (timers s) /\
  observer (clearTimer s) = observer s.
Proof.
  unfold clearTimer. destruct (intersectingTimer s) eqn:E; simpl;
    rewrite ?E; auto.
Qed.

Lemma quieter_refl s : quieter s s.
Proof. unfold quieter. auto. Qed.

Lemma quieter_same s s' :
  intersectingTimer s' = intersectingTimer s -> timers s' = timers s ->
  observer s' = observer s -> quieter s s'.
Proof. unfold quieter. auto. Qed.

Lemma quieter_trans s1 s2 s3 :
  quieter s1 s2 -> quieter s2 s3 -> quieter s1 s3.
Proof.
  unfold quieter. intros (Hi & Ht & Ho) (Hi' & Ht' & Ho').
  rewrite Hi in *. split; [congruence|].
  assert (Hc : timers s3 = timers s2 \/
               timers s3 = cleared_of (intersectingTimer s1) (timers s1)).
  { destruct Ht' as [Ht'|Ht']; [auto|]. right.
    destruct Ht as [Ht|Ht]; rewrite Ht in Ht'; [exact Ht'|].
    rewrite cleared_idem in Ht'. exact Ht'. }
  split.
  - destruct Hc as [Hc|Hc]; [|auto].
    destruct Ht as [Ht|Ht]; [left|right]; congruence.
  - destruct Ho' as [Ho'|Ho'].
    + destruct Ho as [Ho|Ho]; [left; congruence|].
      right. destruct Hc as [Hc|Hc]; congruence.
    + right. destruct Hc as [Hc|Hc]; [|exact Hc].
      destruct Ht as [Ht|Ht]; rewrite Ht in Ho';
        rewrite ?cleared_idem in Ho'; congruence.
Qed.

Lemma quieter_clearTimer s : quieter s (clearTimer s).
Proof.
  destruct (clearTimer_timing s) as (Hi & Ht & Ho).
  unfold quieter. auto.
Qed.

(** The end of a call starts no timer and leaves the observer alone. *)
Lemma finish_quieter c s :
  quieter s (finish (c, s)) /\ observer (finish (c, s)) = observer s.
Proof.
  unfold finish.
  destruct (finally_spec (catch (c, s))) as (c' & s1 & -> & _ & Hb & _).
  assert (Hi : intersectingTimer s1 = intersectingTimer (catch (c, s)))
    by (unfold beyond_finally in Hb; congruence).
  assert (Ht : timers s1 = timers (catch (c, s)))
    by (unfold beyond_finally in Hb; congruence).
  assert (Ho : observer s1 = observer (catch (c, s)))
    by (unfold beyond_finally in Hb; congruence).
  assert (Hc : quieter s (catch (c, s)) /\
               observer (catch (c, s)) = observer s).
  { destruct c as [u|e]; simpl; [split; [apply quieter_refl|reflexivity]|].
    destruct (clearTimer_timing (set_log (log s ++ [e])%list s))
      as (Hi' & Ht' & Ho').
    split; [|exact Ho']. unfold quieter. rewrite Hi', Ht', Ho'. auto. }
  destruct Hc as [(Hci & Hct & Hco) Hobs].
  cbn [observer set_settled]. split; [|congruence].
  unfold quieter. cbn [intersectingTimer timers observer set_settled].
  rewrite Hi, Ht, Ho. auto.
Qed.

Lemma start_timing s :
  intersectingTimer (snd (start s)) = intersectingTimer s /\
  timers (snd (start s)) = timers s /\
  observer (snd (start s)) = observer s.
Proof.
  unfold start, isTraditional, bind, modify, get, deref, ret, throw. simpl.
  destruct (loadMoreButton s) as [b|]; simpl; auto.
  destruct (pagination s) as [p|]; simpl; auto.
  destruct (data_is "traditional" (pg_style p)); simpl; auto.
Qed.

Lemma loadMore_quieter s :
  quieter s (loadMore s) /\ observer (loadMore s) = observer s.
Proof.
  unfold loadMore.
  destruct (negb (isFetching s) && data_is "false" (pause s));
    [|split; [apply quieter_refl|reflexivity]].
  destruct (start_timing s) as (Hi & Ht & Ho).
  destruct (start s) as [[inv|e] s1]; simpl in Hi, Ht, Ho.
  - split; [|exact Ho]. apply quieter_same; assumption.
  - destruct (finish_quieter (Throw e) s1) as [Hq Hobs].
    split; [|congruence].
    apply (quieter_trans s s1); [apply quieter_same; assumption|exact Hq].
Qed.

Lemma render_quieter page s : quieter s (snd (render page s)).
Proof.
  unfold render, bind, get, modify, deref, ret, throw.
  destruct (last (map Some (results s)) None); simpl;
    [|apply quieter_refl].
  destruct (page_pagination page) as [np|]; simpl;
    [|apply quieter_same; reflexivity].
  destruct (data_truthy (np_isMore np)); simpl.
  - destruct (pagination s) as [pg|]; simpl;
      [|apply quieter_same; reflexivity].
    destruct (loadMoreButton s); simpl; [|apply quieter_same; reflexivity].
    destruct (pg_attached pg); simpl; [|apply quieter_same; reflexivity].
    destruct (np_button np); simpl; apply quieter_same; reflexivity.
  - destruct (pagination s); simpl; [|apply quieter_same; reflexivity].
    unfold quieter, clearTimer. simpl.
    destruct (intersectingTimer s) eqn:E; simpl; rewrite ?E; simpl; auto.
Qed.

Lemma resumeFetch_quieter c o s : quieter s (resumeFetch c o s).
Proof.
  unfold resumeFetch.
  destruct (find_pending c AwaitFetch s); [|apply quieter_refl].
  assert (Hd : quieter s (drop_pending c s))
    by (apply quieter_same; reflexivity).
  apply (quieter_trans _ _ _ Hd).
  generalize (drop_pending c s). intros s0.
  destruct (if is_aborted c s0 then FetchRejected (AbortError "") else o)
    as [e|ok status].
  - apply finish_quieter.
  - pose proof (checkResponse_state ok status s0) as Hs.
    destruct (checkResponse ok status s0) as [[u|e] s1]; simpl in Hs;
      subst s1.
    + apply quieter_same; reflexivity.
    + apply finish_quieter.
Qed.

Lemma resumeText_quieter c o s : quieter s (resumeText c o s).
Proof.
  unfold resumeText.
  destruct (find_pending c AwaitText s); [|apply quieter_refl].
  assert (Hd : quieter s (drop_pending c s))
    by (apply quieter_same; reflexivity).
  apply (quieter_trans _ _ _ Hd).
  generalize (drop_pending c s). intros s0.
  destruct (if is_aborted c s0 then TextRejected (AbortError "") else o)
    as [e|page].
  - apply finish_quieter.
  - pose proof (render_quieter page s0) as Hr.
    destruct (render page s0) as [r s1]. simpl in Hr.
    apply (quieter_trans _ _ _ Hr). apply finish_quieter.
Qed.

Lemma quieter_ok prev s s' :
  timers_ok prev s -> quieter s s' -> timers_ok prev s'.
Proof.
  unfold timers_ok, quieter, holds_timers.
  intros [Hh Hr] (Hi & Ht & Ho).
  pose proof (cleared_held _ _ Hh) as Hc.
  split.
  - intros t Hin. rewrite Hi. apply Hh.
    destruct Ht as [Ht|Ht]; rewrite Ht in Hin; [exact Hin|].
    rewrite Hc in Hin. destruct Hin.
  - destruct Hr as [Hr|[Hp Hob]].
    + left. destruct Ht as [Ht|Ht]; congruence.
    + destruct Ho as [Ho|Ho]; [|left; congruence].
      destruct Ht as [Ht|Ht]; [|left; congruence].
      right. split; congruence.
Qed.

Lemma last_cons {A} (x : A) l d : last (x :: l) d = last l x.
Proof.
  revert x d. induction l as [|y l IH]; intros x d; [reflexivity|].
  change (last (x :: y :: l) d) with (last (y :: l) d).
  rewrite (IH y d), (IH y x). reflexivity.
Qed.

(** The callback of a connected observer, on entries that alternate. *)
Lemma intersections_ok entries : forall prev s,
  observer s = Some true ->
  timers_ok prev s ->
  alternates prev entries = true ->
  timers_ok (last (map Some entries) prev) (fold_left onIntersection entries s).
Proof.
  induction entries as [|e entries IH]; intros prev s Hob Hok Ha;
    [exact Hok|].
  simpl in Ha. apply andb_true_iff in Ha as [Hne Ha].
  assert (Hstep : timers_ok (Some e) (onIntersection s e) /\
                  observer (onIntersection s e) = Some true).
  { unfold onIntersection. destruct e.
    - destruct (loadMore_quieter s) as [Hq Hobs].
      pose proof (quieter_ok prev s _ Hok Hq) as [_ Hr].
      assert (Hts : timers (loadMore s) = []).
      { destruct Hr as [Hr|[Hp _]]; [exact Hr|].
        subst prev. discriminate Hne. }
      split; [|simpl; congruence].
      unfold timers_ok, holds_timers. simpl. rewrite Hts. split.
      + intros t [<-|[]]. reflexivity.
      + right. split; [reflexivity|congruence].
    - destruct (clearTimer_timing s) as (Hi & Ht & Ho).
      split; [|congruence].
      destruct Hok as [Hh _]. unfold timers_ok, holds_timers.
      rewrite Ht, (cleared_held _ _ Hh). split; [intros t []|auto]. }
  destruct Hstep as [Hok' Hob'].
  change (fold_left onIntersection (e :: entries) s)
    with (fold_left onIntersection entries (onIntersection s e)).
  replace (last (map Some (e :: entries)) prev)
    with (last (map Some entries) (Some e)).
  - apply IH; assumption.
  - symmetry. apply last_cons.
Qed.

Lemma reload_ok v s : holds_timers s -> timers_ok None (init v (destroy s)).
Proof.
  intros Hh.
  destruct (clearTimer_timing s) as (Hi & Ht & _).
  assert (Hts : timers (init v (destroy s)) = []).
  { unfold init, destroy. rewrite <- (cleared_held _ _ Hh), <- Ht.
    destruct (v_pagination v) as [p|]; [|reflexivity].
    destruct (data_truthy (pg_isMore p)); [|reflexivity].
    simpl. destruct (infiniteScroll _); reflexivity. }
  unfold timers_ok, holds_timers. rewrite Hts.
  split; [intros t []|auto].
Qed.

(** One event of an orderly trace. *)
Lemma step_ok prev s e rest :
  timers_ok prev s ->
  orderly prev (e :: rest) = true ->
  exists prev', timers_ok prev' (step s e) /\ orderly prev' rest = true.
Proof.
  intros Hok Hor. unfold step.
  destruct (enabled s e) eqn:En.
  - destruct e; simpl in Hor.
    + exists prev. split; [|exact Hor].
      apply (quieter_ok _ _ _ Hok), loadMore_quieter.
    + exists prev. split; [|exact Hor].
      apply (quieter_ok _ _ _ Hok), loadMore_quieter.
    + exists prev. split; [|exact Hor].
      apply (quieter_ok _ _ _ Hok), loadMore_quieter.
    + apply andb_true_iff in Hor as [Ha Hor].
      exists (last (map Some entries) prev). split; [|exact Hor].
      apply intersections_ok; [|exact Hok|exact Ha].
      simpl in En. destruct (observer s) as [[]|]; congruence.
    + exists prev. split; [|exact Hor].
      apply (quieter_ok _ _ _ Hok). unfold handleResultClick.
      destruct (controller s); apply quieter_same; reflexivity.
    + exists prev. split; [|exact Hor].
      apply (quieter_ok _ _ _ Hok), quieter_same; reflexivity.
    + exists None. split; [|exact Hor]. apply reload_ok, Hok.
    + exists prev. split; [|exact Hor].
      apply (quieter_ok _ _ _ Hok), resumeFetch_quieter.
    + exists prev. split; [|exact Hor].
      apply (quieter_ok _ _ _ Hok), resumeText_quieter.
  - assert (Hkeep : forall prev',
              (timers s = [] -> timers_ok prev' s)).
    { intros prev' Hts. destruct Hok as [Hh _]. split; auto. }
    destruct e; simpl in Hor; simpl in En; try discriminate En.
    + exists prev. auto.
    + exists prev. auto.
    + apply andb_true_iff in Hor as [_ Hor].
      exists (last (map Some entries) prev). split; [|exact Hor].
      apply Hkeep. destruct Hok as [_ [Hts|[_ Hob]]]; [exact Hts|].
      rewrite Hob in En. discriminate En.
Qed.

(** As long as the entries of its observers alternate, an element holds
    every timer that runs. *)
Lemma run_ok tr : forall prev s,
  timers_ok prev s -> orderly prev tr = true -> holds_timers (run s tr).
Proof.
  induction tr as [|e tr IH]; intros prev s Hok Hor.
  - exact (proj1 Hok).
  - destruct (step_ok prev s e tr Hok Hor) as (prev' & Hok' & Hor').
    change (run s (e :: tr)) with (run (step s e) tr).
    apply (IH prev'); assumption.
Qed.

Lemma construct_ok infinite pauseAttr n v :
  timers_ok None (construct infinite pauseAttr n v).
Proof.
  assert (Hts : timers (construct infinite pauseAttr n v) = []).
  { unfold construct, init.
    destruct (v_pagination v) as [p|]; [|reflexivity].
    destruct (data_truthy (pg_isMore p)); [|reflexivity].
    destruct infinite; reflexivity. }
  unfold timers_ok, holds_timers. rewrite Hts. split; [intros t []|auto].
Qed.

End PaginationProps.

Section PaginationClaims.
Import CustomPagination Examples.

(** C8, as the code has it.  In every state an element can reach: at most
    one [loadMore] call is suspended; [loadMore()] leaves the state as it
    is (no fetch, no change) unless [isFetching] is false and the pause
    attribute is ['false']; and a response that arrives while the pause
    attribute is ['true'] ends the call without a result appended. *)
Theorem loadMore_single_flight :
  forall (infinite : bool) (pauseAttr : option string) (n : nat) (v : View)
         (tr : list Ev),
    let s := run (construct infinite pauseAttr n v) tr in
    List.length (pending s) <= 1 /\
    (isFetching s = true \/ data_is "false" (pause s) = false ->
     loadMore s = s) /\
    (forall c o,
        data_is "true" (pause s) = true ->
        find_pending c AwaitFetch s = Some (mkInvocation c AwaitFetch) ->
        let s' := resumeFetch c o s in
        results s' = results s /\ pending s' = [] /\
        isFetching s' = false).
Proof.
  intros infinite pauseAttr n v tr s.
  assert (Hinv : single_flight s) by (apply run_flight, construct_flight).
  split; [|split].
  - destruct Hinv as [[-> _]|(i & -> & _)]; simpl; lia.
  - apply loadMore_guard.
  - intros c o Hpause Hf. cbv zeta. unfold resumeFetch. rewrite Hf.
    destruct (drop_only c _ s _ Hinv Hf) as (Hp & Hfe & Hd).
    assert (Hfin : forall r, snd r = drop_pending c s ->
              results (finish r) = results s /\ pending (finish r) = [] /\
              isFetching (finish r) = false).
    { intros r Hr. destruct (finish_spec r) as (_ & H1 & H2 & H3 & _).
      rewrite H1, H2, H3, Hr, Hd. auto. }
    destruct (is_aborted c (drop_pending c s)); [apply Hfin; reflexivity|].
    destruct o as [e|ok status]; [apply Hfin; reflexivity|].
    unfold checkResponse, bind, get, throw, ret. simpl.
    destruct ok; simpl; [|apply Hfin; reflexivity].
    rewrite Hpause. apply Hfin. reflexivity.
Qed.

Lemma loadMore_single_flight_witness :
  let s := run paginated [LoadMore; SetPause "true"] in
  data_is "true" (pause s) = true /\
  find_pending 0 AwaitFetch s = Some (mkInvocation 0 AwaitFetch) /\
  results (resumeFetch 0 (FetchResponse true "200") s) = results s /\
  loadMore s = s.
Proof.
  cbv zeta.
  destruct (loadMore_single_flight true (Some "false") 1
              (mkView
                 (Some (mkPaginationEl (Some "modern") (Some "true")
                          false true))
                 (Some "/collections/x?page=2")
                 ["<li>Shirt</li>"; "<li>Hat</li>"])
              [LoadMore; SetPause "true"]) as (_ & Hg & Hd).
  split; [reflexivity|]. split; [reflexivity|]. split.
  - exact (proj1 (Hd 0 (FetchResponse true "200") eq_refl eq_refl)).
  - apply Hg. left. reflexivity.
Defined.

(** C8 as stated fails when the pause attribute is back to ['false'] by
    the time the response arrives, as after a completed [applyFilters]: the
    attribute was set to ['true'] while the fetch was in flight, and the
    results of the response are appended all the same. *)
Lemma paused_then_resumed_response_is_appended :
  let s1 := run paginated [LoadMore; SetPause "true"] in
  pending s1 = [mkInvocation 0 AwaitFetch] /\
  pause s1 = Some "true" /\
  results (run s1 [SetPause "false";
                   FetchSettled 0 (FetchResponse true "200");
                   TextSettled 0 (TextBody lastPage)])
  = ["<li>Shirt</li>"; "<li>Hat</li>"; "<li>Scarf</li>"] /\
  results s1 = ["<li>Shirt</li>"; "<li>Hat</li>"].
Proof. repeat split. Qed.

(** C2, as the code has it.  When the body of a [loadMore] response
    arrives whose pagination element has no (or an empty)
    [data-is-more-results], the results are appended, the live pagination
    control leaves the document, no pagination-only element is left, the
    interval timer held by the element no longer runs, the observer
    delivers nothing and the load-more link can no longer be clicked.
    When the element holds every running timer, no timer at all runs
    afterwards; it does in every state reached from the constructor by a
    trace in which the entries of each observer alternate. *)
Theorem exhaustion_removes_triggers :
  forall (s : State) (c : nat) (page : Page) (np : NewPagination)
         (pg : PaginationEl) (r : string) (rs : list string),
    find_pending c AwaitText s = Some (mkInvocation c AwaitText) ->
    is_aborted c s = false ->
    results s = r :: rs ->
    page_pagination page = Some np ->
    data_truthy (np_isMore np) = false ->
    pagination s = Some pg ->
    let s' := resumeText c (TextBody page) s in
    results s' = (results s ++ page_results page)%list /\
    option_map pg_attached (pagination s') = Some false /\
    whenPaginatedOnly s' = 0 /\
    (forall t, intersectingTimer s' = Some t -> enabled s' (Tick t) = false) /\
    (forall entries, enabled s' (Intersection entries) = false) /\
    enabled s' ClickLoadMore = false /\
    (holds_timers s -> forall t, enabled s' (Tick t) = false) /\
    (forall infinite pauseAttr n v tr,
        s = run (construct infinite pauseAttr n v) tr ->
        orderly None tr = true ->
        forall t, enabled s' (Tick t) = false).
Proof.
  intros s c page np pg r rs Hf Hab Hr Hp Hm Hpg. cbv zeta.
  assert (Hreach : forall infinite pauseAttr n v tr,
             s = run (construct infinite pauseAttr n v) tr ->
             orderly None tr = true -> holds_timers s).
  { intros infinite pauseAttr n v tr -> Hor.
    apply (run_ok tr None); [apply construct_ok|exact Hor]. }
  unfold resumeText. rewrite Hf.
  replace (is_aborted c (drop_pending c s)) with false
    by (symmetry; exact Hab).
  assert (Hr0 : results (drop_pending c s) = r :: rs) by exact Hr.
  assert (Hpg0 : pagination (drop_pending c s) = Some pg) by exact Hpg.
  assert (Hh0 : holds_timers s -> holds_timers (drop_pending c s))
    by (intros H; exact H).
  change (results s) with (results (drop_pending c s)).
  revert Hr0 Hpg0 Hh0. generalize (drop_pending c s). intros s0 Hr0 Hpg0 Hh0.
  rewrite (render_exhausted page np pg r rs s0 Hr0 Hp Hm Hpg0).
  set (s1 := set_whenPaginatedOnly 0 _).
  destruct (finish_normal tt s1) as (Hw & Hit & Hts & Hob & Hpa & Hbu).
  destruct (finish_spec (Normal tt, s1)) as (_ & _ & _ & Hres & _).
  set (s' := finish (Normal tt, s1)) in *.
  assert (Hs1 : results s1 = (results s0 ++ page_results page)%list /\
                option_map pg_attached (pagination s1) = Some false /\
                whenPaginatedOnly s1 = 0 /\
                (forall t, intersectingTimer s1 = Some t ->
                           existsb (Nat.eqb t) (timers s1) = false) /\
                match observer s1 with Some b => b | None => false end
                = false /\
                option_map (fun b => (b_attached b, b_bound b))
                  (loadMoreButton s1)
                = option_map (fun b => (false, b_bound b))
                    (loadMoreButton s0)).
  { unfold s1, clearTimer. simpl.
    destruct (intersectingTimer s0) as [t0|] eqn:Ht0; simpl;
      rewrite ?Hpg0, ?Ht0; simpl; repeat split;
      try (destruct (observer s0); reflexivity);
      try (destruct (loadMoreButton s0); reflexivity).
    - intros t Ht. inversion Ht; subst. apply not_in_filter_neq.
    - intros t Ht. discriminate. }
  assert (S7 : holds_timers s0 -> timers s1 = []).
  { intros Hh. unfold s1.
    cbn [timers set_whenPaginatedOnly disconnect set_observer].
    rewrite (proj1 (proj2 (clearTimer_timing _))).
    apply cleared_held. exact Hh. }
  destruct Hs1 as (S1 & S2 & S3 & S4 & S5 & S6).
  assert (Hnone : holds_timers s -> forall t, enabled s' (Tick t) = false).
  { intros Hh t. simpl. rewrite Hts, (S7 (Hh0 Hh)). reflexivity. }
  split; [rewrite Hres; exact S1|].
  split; [rewrite Hpa; exact S2|].
  split; [rewrite Hw; exact S3|].
  split.
  { intros t Ht. simpl. rewrite Hts. apply S4. rewrite <- Hit. exact Ht. }
  split; [intros entries; simpl; rewrite Hob; exact S5|].
  split.
  { simpl. rewrite S6 in Hbu.
    destruct (loadMoreButton s') as [b'|]; [|reflexivity].
    destruct (loadMoreButton s0) as [b|]; [|discriminate].
    simpl in Hbu. inversion Hbu as [[Ha Hbd]]. rewrite Ha. reflexivity. }
  split; [exact Hnone|].
  intros infinite pauseAttr n v tr Hs Hor.
  exact (Hnone (Hreach infinite pauseAttr n v tr Hs Hor)).
Qed.

Lemma exhaustion_removes_triggers_witness :
  let s := run paginated [Intersection [true];
                          FetchSettled 0 (FetchResponse true "200")] in
  let s' := resumeText 0 (TextBody lastPage) s in
  find_pending 0 AwaitText s = Some (mkInvocation 0 AwaitText) /\
  timers s = [1] /\
  results s' = ["<li>Shirt</li>"; "<li>Hat</li>"; "<li>Scarf</li>"] /\
  enabled s' (Tick 1) = false /\
  enabled s' ClickLoadMore = false /\
  enabled s' (Tick 0) = false /\
  enabled s' (Tick 2) = false.
Proof.
  cbv zeta. split; [reflexivity|]. split; [reflexivity|].
  destruct (exhaustion_removes_triggers
              (run paginated [Intersection [true];
                              FetchSettled 0 (FetchResponse true "200")])
              0 lastPage (mkNewPagination None None)
              (mkPaginationEl (Some "modern") (Some "true") false true)
              "<li>Shirt</li>" ["<li>Hat</li>"]
              eq_refl eq_refl eq_refl eq_refl eq_refl eq_refl)
    as (H1 & _ & _ & H4 & _ & H6 & H7 & H8).
  split; [exact H1|]. split; [apply H4; reflexivity|].
  split; [exact H6|]. split.
  - apply H7.
    assert (Et : timers (run paginated
                           [Intersection [true];
                            FetchSettled 0 (FetchResponse true "200")])
                 = [1]) by (vm_compute; reflexivity).
    assert (Ei : intersectingTimer
                   (run paginated
                      [Intersection [true];
                       FetchSettled 0 (FetchResponse true "200")])
                 = Some 1) by (vm_compute; reflexivity).
    intros t Ht. rewrite Et in Ht. rewrite Ei.
    destruct Ht as [<-|[]]. reflexivity.
  - unfold paginated in H8.
    apply (H8 true (Some "false") 1
             (mkView
                (Some (mkPaginationEl (Some "modern") (Some "true")
                         false true))
                (Some "/collections/x?page=2")
                ["<li>Shirt</li>"; "<li>Hat</li>"])
             [Intersection [true];
              FetchSettled 0 (FetchResponse true "200")]);
      reflexivity.
Defined.

(** A timer left behind outlives the exhaustion.  When the observer's
    callback runs on two intersecting entries with no other between them,
    the id of the first interval timer is overwritten; the last page
    clears the second timer only, and the next tick of the first fetches
    the removed link's URL again and appends its results again. *)
Lemma timer_left_behind_refetches :
  let s := run paginated [Intersection [true; true];
                          FetchSettled 0 (FetchResponse true "200");
                          TextSettled 0 (TextBody lastPage)] in
  orderly None [Intersection [true; true]] = false /\
  intersectingTimer s = Some 2 /\
  timers s = [1] /\
  enabled s (Tick 1) = true /\
  results (run s [Tick 1; FetchSettled 1 (FetchResponse true "200");
                  TextSettled 1 (TextBody lastPage)])
  = ["<li>Shirt</li>"; "<li>Hat</li>"; "<li>Scarf</li>"; "<li>Scarf</li>"].
Proof. repeat split. Qed.

(** C2 as stated fails in its last part: [loadMore] has no guard for the
    exhausted state.  Called again after the last page has been rendered,
    it requests the URL of the removed link once more, and the results of
    that response are appended a second time. *)
Lemma loadMore_after_exhaustion_fetches :
  let s := run paginated [LoadMore;
                          FetchSettled 0 (FetchResponse true "200");
                          TextSettled 0 (TextBody lastPage)] in
  option_map pg_attached (pagination s) = Some false /\
  fetched s = ["/collections/x?page=2"] /\
  fetched (step s LoadMore)
  = ["/collections/x?page=2"; "/collections/x?page=2"] /\
  results (run s [LoadMore; FetchSettled 1 (FetchResponse true "200");
                  TextSettled 1 (TextBody lastPage)])
  = ["<li>Shirt</li>"; "<li>Hat</li>"; "<li>Scarf</li>"; "<li>Scarf</li>"].
Proof. repeat split. Qed.

(** Every call that passes the guard leaves the instance ready, and its
    promise is fulfilled when the element has a pagination control. *)
Lemma finish_ready (r : Completion unit * State) :
  ready (finish r) = true /\
  (pagination (snd r) <> None ->
   settled (finish r) = (settled (snd r) ++ [Normal tt])%list).
Proof.
  destruct (finish_spec r) as (Hr & _ & _ & _ & _ & Hs).
  split; [exact Hr|]. intros Hp. rewrite Hs.
  destruct (pagination (snd r)); congruence.
Qed.

(** C10, at an input where the code departs from it: an element without
    pagination control (a collection that fits one page).  [loadMore()]
    finds no load-more link, logs that, and its [finally] block then throws
    when it reads [this.pagination.dataset]: the promise of the call is
    rejected, although the instance is left ready. *)
Theorem loadMore_rejects_without_pagination :
  pagination singlePage = None /\
  log (step singlePage LoadMore) = [Error "No 'Load more' button found."] /\
  settled (step singlePage LoadMore)
  = [Throw (TypeError "this.pagination is null")] /\
  ready (step singlePage LoadMore) = true.
Proof. repeat split. Qed.

End PaginationClaims.
(** ** CartDrawer *)

Section CartDrawerProps.
Import CartDrawer Examples.

(** A failing [try] block has written nothing. *)
Lemma refresh_try_throws env d s e s' :
  refresh_try env d s = (Throw e, s') -> s' = s.
Proof.
  unfold refresh_try.
  destruct (env_cartItems env) as [[u|e0]|], d;
    try (intros H; inversion H; reflexivity);
    destruct (getSectionsToRender env); try (intros H; inversion H; reflexivity);
    destruct (env_fetch env); try (intros H; inversion H; reflexivity);
    destruct (env_json env); try (intros H; inversion H; reflexivity);
    destruct (renderContents env a1 s) as [[?|?] ?]; discriminate.
Qed.

(** On a drawer as constructed, every failure caught by [refresh] ends in
    a rejected promise and no event. *)
Lemma refresh_failure_rejects env d drawerKids bubbleKids e s' :
  refresh_try env d (construct drawerKids bubbleKids) = (Throw e, s') ->
  fst (refresh env d (construct drawerKids bubbleKids))
  = Throw (TypeError "this.errorMsg is undefined") /\
  dispatched (snd (refresh env d (construct drawerKids bubbleKids))) = [].
Proof.
  intros H. unfold refresh. rewrite H.
  apply refresh_try_throws in H. subst s'. split; reflexivity.
Qed.

(** Had [errorMsg] been set, a caught failure would be reported as the
    specification says. *)
Lemma refresh_failure_with_errorMsg env d s e s' msg :
  errorMsg s = Some msg ->
  refresh_try env d s = (Throw e, s') ->
  fst (refresh env d s) = Normal tt /\
  dispatched (snd (refresh env d s))
  = (dispatched s ++ [mkCustomEvent "on:cart:error" true msg])%list.
Proof.
  intros Hm H. unfold refresh. rewrite H.
  apply refresh_try_throws in H. subst s'.
  unfold refresh_catch. simpl. rewrite Hm. split; reflexivity.
Qed.

(** A render error never reaches the [catch] block: the promise of
    [renderContents] is not awaited. *)
Lemma render_error_is_unhandled env s sections i e s' :
  env_cartItems env = None ->
  env_section env = Some i ->
  env_fetch env = Normal tt ->
  env_json env = Normal sections ->
  renderContents env sections s = (Throw e, s') ->
  fst (refresh env false s) = Normal tt /\
  dispatched (snd (refresh env false s)) = dispatched s' /\
  unhandled (snd (refresh env false s)) = (unhandled s' ++ [e])%list.
Proof.
  intros Hc Hs Hf Hj Hr. unfold refresh, refresh_try, getSectionsToRender.
  rewrite Hc, Hs, Hf, Hj, Hr. simpl. auto.
Qed.

(** C3, at an input where the code departs from it: the fetch of a
    refresh fails.  The [catch] block logs the error and then reads
    [this.errorMsg.textContent] to build the event; [this.errorMsg] is
    undefined on a cart drawer, so the block throws: the promise returned
    by [refresh] is rejected and no event is dispatched. *)
Theorem refresh_rejects_when_fetch_fails :
  refresh_try offline false drawer = (Throw NetworkError, drawer) /\
  fst (refresh offline false drawer)
  = Throw (TypeError "this.errorMsg is undefined") /\
  console (snd (refresh offline false drawer)) = [NetworkError] /\
  dispatched (snd (refresh offline false drawer)) = [].
Proof. repeat split. Qed.

End CartDrawerProps.
(** ** FacetFilters: what a request leaves behind *)

Section FacetFiltersControls.
Import Dom FacetFilters.
Local Open Scope list_scope.

Variables (path : string) (filtering sorting sortByPresent : bool)
          (sectionId : option string) (formKids resultsKids : forest)
          (btn : option CloseBtn) (pag : option Pagination).

Let page0 : State :=
  init path filtering sorting sortByPresent sectionId formKids resultsKids
    btn pag.

(** Lines 2122-2132, seen from the drawer button and the pagination. *)
Lemma start_ui p u s b :
  closeBtn s = Some b ->
  closeBtn (snd (start p u s))
  = Some (mkCloseBtn (Some "true") (add_class "is-loading" (cb_classes b))
            (cb_innerText b)) /\
  customPagination (snd (start p u s))
  = option_map (set_pause "true") (customPagination s).
Proof.
  intros H. unfold start, bind, modify, get, deref, ret, throw. simpl.
  rewrite H. simpl. unfold new_controller, abort_current. simpl.
  destruct (applyFiltersFetchAbortController s); simpl; rewrite H;
    split; reflexivity.
Qed.

Lemma finish_ui r :
  closeBtn (finish r) = closeBtn (snd r) /\
  customPagination (finish r) = customPagination (snd r).
Proof. destruct r as [[u|e] s]; split; reflexivity. Qed.

(** The state a render leaves when it runs to its end. *)
Lemma render_success inv tmpl s :
  fst (render inv tmpl s) = Normal tt ->
  exists facets button fr,
    let t := restoreExpanded (expanded s) (copyOpenState (form s) tmpl) in
    getElementById "facets" t = Some facets /\
    querySelector (by_class "js-close-drawer-mob") t = Some button /\
    getElementById "filter-results" t = Some fr /\
    form (snd (render inv tmpl s)) = kids_of facets /\
    results (snd (render inv tmpl s))
    = restoreResultsClass
        (match querySelector (by_tag "ul") (results s) with
         | Some ul => classes_of ul
         | None => currentResultsClass s
         end) (kids_of fr) /\
    closeBtn (snd (render inv tmpl s))
    = option_map
        (fun b => mkCloseBtn None (remove_class "is-loading" (cb_classes b))
                    (textContent button)) (closeBtn s) /\
    customPagination (snd (render inv tmpl s))
    = option_map (fun p => set_pause "false" (reload p)) (customPagination s) /\
    history (snd (render inv tmpl s))
    = (if inv_updateUrl inv then history (updateURL (inv_params inv) s)
       else history s) /\
    dispatched (snd (render inv tmpl s))
    = dispatched s ++ ["on:facet-filters:updated"].
Proof.
  cbv zeta.
  remember (render inv tmpl s) as r eqn:Er.
  unfold render in Er. rewrite bind_get in Er. cbv beta zeta in Er.
  set (t := restoreExpanded (expanded s) (copyOpenState (form s) tmpl)) in *.
  destruct (getElementById "facets" t) as [facets|] eqn:E1;
    [|rewrite bind_deref_none in Er; subst r; discriminate].
  rewrite bind_deref_some, bind_modify in Er.
  destruct (querySelector (by_class "js-close-drawer-mob") t)
    as [button|] eqn:E2;
    [|rewrite bind_deref_none in Er; subst r; discriminate].
  rewrite bind_deref_some, !bind_modify in Er.
  destruct (getElementById "filter-results" t) as [fr|] eqn:E3;
    [|rewrite bind_deref_none in Er; subst r; discriminate].
  rewrite bind_deref_some, !bind_modify in Er.
  remember (set_results _ _) as s3 eqn:E4 in Er.
  pose proof (addListeners_preserves (fun x => x) s3) as HA. simpl in HA.
  unfold bind at 1 in Er.
  destruct (addListeners s3) as [[[]|e] s4]; simpl in HA; subst s4;
    [|subst r; discriminate].
  rewrite !bind_modify in Er. unfold modify in Er. subst r.
  intros _. exists facets, button, fr. subst s3. simpl.
  destruct (querySelector (by_tag "ul") (results s)) as [ul|];
    destruct (inv_updateUrl inv); simpl;
    destruct (closeBtn s) as [b|];
    destruct (customPagination s) as [[pa [] rl]|];
    simpl; repeat split; assumption.
Qed.

(** A response that is rendered without a warning was rendered to the
    end, and the call then ran its [finally] block. *)
Lemma resumeText_rendered c inv tmpl s :
  find_pending c AwaitText s = Some inv ->
  is_aborted c s = false ->
  warnings (resumeText c (TextBody tmpl) s) = warnings s ->
  fst (render inv tmpl (drop_pending c s)) = Normal tt /\
  resumeText c (TextBody tmpl) s
  = finish (render inv tmpl (drop_pending c s)).
Proof.
  intros Hf Hab Hw.
  destruct (resumeText_quiet c inv tmpl s Hf Hab Hw) as [Hok _].
  split; [exact Hok|].
  unfold resumeText. rewrite Hf.
  replace (is_aborted c (drop_pending c s)) with false
    by (symmetry; exact Hab).
  reflexivity.
Qed.

(** X1.  A request that fails leaves the controls as [applyFilters]
    disabled them.  From any reachable state of a page with its drawer
    button and a pagination element: when the fetch of a call rejects, or
    its response is not OK, the button is still [aria-disabled] and
    [is-loading], and the pagination still has
    [data-pause-infinite-scroll="true"]. *)
Theorem failed_request_leaves_controls_disabled :
  forall (tr : list Ev) (p : string) (u : bool) (b : CloseBtn)
         (pg : Pagination) (fo : FetchOutcome),
    let s := run page0 tr in
    closeBtn s = Some b ->
    customPagination s = Some pg ->
    fo <> FetchResponse true ->
    let s' := resumeFetch (next_ctrl s) fo (applyFilters p u s) in
    closeBtn s'
    = Some (mkCloseBtn (Some "true") (add_class "is-loading" (cb_classes b))
              (cb_innerText b)) /\
    customPagination s' = Some (set_pause "true" pg).
Proof.
  intros tr p u b pg fo s Hb Hpg Hfo s'.
  assert (Hinv : stale_aborted s) by (apply run_inv, init_inv).
  destruct (start_ui p u s b Hb) as [Hc Hp]. rewrite Hpg in Hp.
  assert (Ha : closeBtn (applyFilters p u s)
               = Some (mkCloseBtn (Some "true")
                         (add_class "is-loading" (cb_classes b))
                         (cb_innerText b)) /\
               customPagination (applyFilters p u s)
               = Some (set_pause "true" pg)).
  { unfold applyFilters.
    destruct (start_returns p u s b Hb) as (s1 & E & _).
    rewrite E in *. simpl in *. auto. }
  unfold s'. rewrite (resumeFetch_started p u s b fo Hinv Hb).
  destruct fo as [e|[|]]; [|congruence|];
    match goal with
    | |- context [finish ?r] => destruct (finish_ui r) as [-> ->]
    end; exact Ha.
Qed.

(** X2.  A response rendered to the end re-enables the controls.  When
    the body of the response of a call arrives and is rendered without a
    warning: the drawer button has lost [aria-disabled] and [is-loading]
    and carries the label of the fetched button, the pagination element
    was reloaded and has [data-pause-infinite-scroll="false"], one
    [on:facet-filters:updated] event was dispatched, and a history entry
    was pushed exactly if the call was made with [updateUrl] set. *)
Theorem rendered_response_reenables_controls :
  forall (s : State) (c : nat) (inv : Invocation) (tmpl : forest),
    find_pending c AwaitText s = Some inv ->
    is_aborted c s = false ->
    let s' := resumeText c (TextBody tmpl) s in
    warnings s' = warnings s ->
    (exists button,
        querySelector (by_class "js-close-drawer-mob")
          (restoreExpanded (expanded s) (copyOpenState (form s) tmpl))
        = Some button /\
        closeBtn s'
        = option_map
            (fun b => mkCloseBtn None
                        (remove_class "is-loading" (cb_classes b))
                        (textContent button)) (closeBtn s)) /\
    customPagination s'
    = option_map (fun p => set_pause "false" (reload p)) (customPagination s) /\
    dispatched s' = dispatched s ++ ["on:facet-filters:updated"] /\
    history s'
    = (if inv_updateUrl inv
       then history s ++
            [mkHistoryEntry (inv_params inv)
               (pathname s ++
                (if truthy (inv_params inv) then "?" ++ inv_params inv
                 else inv_params inv))%string]
       else history s).
Proof.
  intros s c inv tmpl Hf Hab s' Hw.
  destruct (resumeText_rendered c inv tmpl s Hf Hab Hw) as [Hok E].
  destruct (render_success inv tmpl (drop_pending c s) Hok)
    as (facets & button & fr & _ & Hq & _ & _ & _ & Hc & Hp & Hh & Hd).
  unfold s'. rewrite E.
  destruct (finish_ui (render inv tmpl (drop_pending c s))) as [-> ->].
  assert (Hfin : forall r, dispatched (finish r) = dispatched (snd r) /\
                           history (finish r) = history (snd r))
    by (intros [[?|?] ?]; split; reflexivity).
  destruct (Hfin (render inv tmpl (drop_pending c s))) as [-> ->].
  split; [exists button; split; [exact Hq|exact Hc]|].
  split; [exact Hp|]. split; [exact Hd|].
  rewrite Hh. destruct (inv_updateUrl inv); reflexivity.
Qed.

(** [setAttribute('class', cls)] on the first [ul], lines 2186-2188. *)
Lemma restoreResultsClass_first_ul cls res ul' :
  cls <> [] ->
  querySelector (by_tag "ul") (restoreResultsClass cls res) = Some ul' ->
  classes_of ul' = cls.
Proof.
  intros Hne. unfold restoreResultsClass.
  destruct (querySelector (by_tag "ul") res) as [newUl|] eqn:E;
    [|congruence].
  destruct cls as [|c0 cls]; [contradiction|].
  apply querySelector_some in E as E'. destruct E' as (a & Hin & _).
  destruct (nodes_in_elem _ _ _ Hin) as (u & t & i & c & o & ks & ->).
  simpl. unfold set_class_attr, querySelector in *.
  rewrite nodes_in_update, find_map.
  rewrite (find_ext_in _ (fun an => by_tag "ul" (fst an) (snd an))).
  - destruct (find _ (nodes_in res)) as [[a0 n0]|]; [|discriminate].
    simpl in E. injection E as ->. simpl. rewrite Nat.eqb_refl. simpl.
    intros H. injection H as <-. reflexivity.
  - intros [a0 n0] _. unfold by_tag, has_tag. simpl.
    destruct (update_root u (fun co => (c0 :: cls, snd co)) n0)
      as (_ & -> & _). reflexivity.
Qed.

(** X3.  The CSS class of the results list survives the swap.  When a
    response is rendered without a warning and the first [ul] of the
    results had a non-empty class before, the first [ul] of the new
    results, if there is one, has exactly that class, whatever class the
    server rendered. *)
Theorem render_keeps_results_class :
  forall (s : State) (c : nat) (inv : Invocation) (tmpl : forest)
         (ul ul' : node),
    find_pending c AwaitText s = Some inv ->
    is_aborted c s = false ->
    let s' := resumeText c (TextBody tmpl) s in
    warnings s' = warnings s ->
    querySelector (by_tag "ul") (results s) = Some ul ->
    classes_of ul <> [] ->
    querySelector (by_tag "ul") (results s') = Some ul' ->
    classes_of ul' = classes_of ul.
Proof.
  intros s c inv tmpl ul ul' Hf Hab s' Hw Hul Hne Hul'.
  destruct (resumeText_rendered c inv tmpl s Hf Hab Hw) as [Hok E].
  destruct (render_success inv tmpl (drop_pending c s) Hok)
    as (facets & button & fr & _ & _ & _ & _ & Hr & _).
  unfold s' in Hul'. rewrite E in Hul'.
  assert (Hres : results (finish (render inv tmpl (drop_pending c s)))
                 = results (snd (render inv tmpl (drop_pending c s)))).
  { pose proof (finish_content (render inv tmpl (drop_pending c s))) as H.
    unfold content in H. congruence. }
  rewrite Hres, Hr in Hul'.
  change (results (drop_pending c s)) with (results s) in Hul'.
  rewrite Hul in Hul'.
  apply (restoreResultsClass_first_ul _ _ _ Hne Hul').
Qed.

(** *** this.expanded *)

Lemma handleFiltersClick_expanded_cases u href s :
  expanded (handleFiltersClick u href s) = expanded s \/
  exists g, includes g (expanded s) = false /\
            expanded (handleFiltersClick u href s) = expanded s ++ [g].
Proof.
  unfold handleFiltersClick.
  destruct (lookup u (form s)) as [target|]; auto.
  destruct (has_class "js-clear-filter" target).
  - destruct href as [p|]; auto.
    destruct (has_class "js-show-more" target);
      [|left; apply applyFilters_expanded].
    destruct (closest _ _ _) as [filter|]; simpl;
      [|left; apply applyFilters_expanded].
    rewrite applyFilters_expanded.
    destruct (includes (id_of filter) (expanded s)) eqn:E; simpl;
      rewrite ?applyFilters_expanded; eauto.
  - destruct (has_class "js-show-more" target); auto.
    destruct (closest _ _ _) as [filter|]; simpl; auto.
    destruct (includes (id_of filter) (expanded s)) eqn:E; simpl; eauto.
Qed.

Lemma NoDup_push (l : list string) g :
  NoDup l -> includes g l = false -> NoDup (l ++ [g]).
Proof.
  intros Hnd Hg. apply NoDup_app; [exact Hnd | repeat constructor; auto |].
  intros x Hx [E|[]]. subst x. unfold includes in Hg.
  assert (E : existsb (String.eqb g) l = true).
  { apply existsb_exists. exists g. split; [exact Hx|apply String.eqb_refl]. }
  congruence.
Qed.

Lemma step_expanded_NoDup s e :
  NoDup (expanded s) -> NoDup (expanded (step s e)).
Proof.
  intros H. destruct e; simpl.
  - rewrite applyFilters_expanded. exact H.
  - unfold handleFilterChange.
    destruct (FilterChange.handleFilterChange _ _ _ _) as [[? ?]|]; auto.
    rewrite applyFilters_expanded. exact H.
  - destruct (handleFiltersClick_expanded_cases target href s)
      as [->|(g & Hg & ->)]; [exact H|].
    apply NoDup_push; assumption.
  - unfold handleActiveFiltersClick.
    destruct (String.eqb tagName "A"); auto. destruct href; auto.
    rewrite applyFilters_expanded. exact H.
  - unfold handleHistoryChange. destruct st; auto.
    rewrite applyFilters_expanded. exact H.
  - rewrite resumeFetch_expanded. exact H.
  - rewrite resumeText_expanded. exact H.
Qed.

(** X4.  [this.expanded] never holds an id twice, and never loses one:
    whatever the clicks, filter changes, history events and responses, the
    recorded ids are distinct, and an id recorded at some point is still
    recorded after any further events. *)
Theorem expanded_ids_distinct_and_kept :
  forall (tr tr' : list Ev),
    NoDup (expanded (run page0 tr)) /\
    (forall g, includes g (expanded (run page0 tr)) = true ->
               includes g (expanded (run (run page0 tr) tr')) = true).
Proof.
  intros tr tr'. split.
  - unfold run. generalize page0 (NoDup_nil string : NoDup (expanded page0)).
    induction tr as [|e tr IH]; intros s Hs; simpl; [exact Hs|].
    apply IH, step_expanded_NoDup, Hs.
  - intros g. apply run_expanded.
Qed.

(** *** A click on "show more" *)

Lemma closest_some p u f x :
  closest p u f = Some x ->
  p x = true /\ exists a, In (a, x) (nodes_in f).
Proof.
  unfold closest.
  destruct (find _ (nodes_in f)) as [[anc n]|] eqn:E; [|discriminate].
  intros H. apply find_some in H as [Hx Hp]. split; [exact Hp|].
  apply find_some in E as [Hin _].
  destruct Hx as [<-|Hx]; [eauto|].
  apply (ancestor_listed f anc n x Hin Hx).
Qed.

(** X5.  A click on a "show more" button reveals its filter for good: on
    a form whose elements are distinct nodes, after the click on a
    [.js-show-more] element [u] (that is no [.js-clear-filter]) inside a
    [.filter] element, the clicked element is no longer in the form, no
    [li] below that filter has the class [js-hidden], and the filter's id
    is recorded in [this.expanded]. *)
Theorem show_more_click_reveals_filter :
  forall (s : State) (u : nat) (href : option string) (target filter : node),
    NoDup (uids (form s)) ->
    lookup u (form s) = Some target ->
    has_class "js-clear-filter" target = false ->
    has_class "js-show-more" target = true ->
    closest (has_class "filter") u (form s) = Some filter ->
    let s' := handleFiltersClick u href s in
    absent (Some u) (form s') /\
    (forall a x y,
        In (a, x) (nodes_in (form s')) -> In y a ->
        uid_of y = uid_of filter -> has_tag "li" x = true ->
        has_class "js-hidden" x = false) /\
    includes (id_of filter) (expanded s') = true.
Proof.
  intros s u href target filter Hnd Hl Hc Hm Hf s'.
  destruct (closest_some _ _ _ _ Hf) as (_ & af & Hfin).
  destruct (nodes_in_elem _ _ _ Hfin) as (fu & ft & fi & fc & fo & fk & ->).
  set (f1 := remove u (form s)).
  set (lis := match lookup fu f1 with
              | Some cur => querySelectorAll (by_tag "li") (kids_of cur)
              | None => []
              end).
  assert (Hform : form s' = writes_forest (unhide_writes lis) f1).
  { unfold s', handleFiltersClick. rewrite Hl, Hc, Hm, Hf. cbn [uid_of].
    cbv zeta. cbn [form set_form].
    fold f1. fold lis. rewrite <- unhide_fold.
    destruct (includes _ _); reflexivity. }
  assert (Hnd1 : NoDup (uids f1))
    by (apply (NoDup_write (Remove u)), Hnd).
  split; [|split].
  - rewrite Hform. apply absent_writes, absent_remove.
  - rewrite Hform. intros a x y Hx Hy Hu Hli.
    apply In_writes in Hx as ([a0 x0] & Hx0 & E).
    unfold writes_entry in E. cbn [fst snd] in E.
    injection E as -> ->.
    apply in_map_iff in Hy as (y0 & <- & Hy0).
    destruct (writes_root (unhide_writes lis) y0) as (Ey & _).
    rewrite Ey in Hu. cbn [uid_of] in Hu.
    rewrite writes_has_tag in Hli.
    apply in_split in Hy0 as (pre & up & ->).
    destruct (entry_above _ _ _ _ _ Hx0) as [Hy0 Hx0'].
    destruct (lookup fu f1) as [cur|] eqn:Ecur.
    + apply lookup_some in Ecur as (ac & Hcur & Hucur).
      assert (E : (up, y0) = (ac, cur))
        by (apply (same_uid_same_entry f1); auto; simpl; congruence).
      injection E as -> ->.
      destruct (nodes_in_elem _ _ _ Hx0') as (ux & ? & ? & ? & ? & ? & Ex).
      apply (class_removed "js-hidden" ux).
      * apply (In_unhide_writes lis x0 ux); [|subst x0; reflexivity].
        unfold lis, querySelectorAll. apply in_map_iff.
        exists (pre, x0). split; [reflexivity|].
        apply filter_In. split; [exact Hx0'|exact Hli].
      * subst x0. simpl. apply Nat.eqb_refl.
    + apply lookup_none in Ecur. exfalso.
      apply (Ecur _ Hy0). exact Hu.
  - unfold s', handleFiltersClick. rewrite Hl, Hc, Hm, Hf. cbv zeta.
    cbn [expanded set_form id_of].
    destruct (includes fi (expanded s)) eqn:E; cbn [expanded set_form];
      [exact E|].
    cbn [expanded set_expanded set_form].
    unfold includes. rewrite existsb_app. simpl.
    rewrite String.eqb_refl. apply orb_true_iff. right. reflexivity.
Qed.

End FacetFiltersControls.

Section FacetFiltersControlsWitnesses.
Import Dom FacetFilters Examples.

Lemma failed_request_leaves_controls_disabled_witness :
  let s' := resumeFetch 0 (FetchRejected NetworkError)
              (applyFilters "a=1" true page) in
  closeBtn s' = Some (mkCloseBtn (Some "true") ["btn"; "is-loading"]
                        "Show 2 results") /\
  customPagination s' = Some (mkPagination (Some "true") true 0).
Proof.
  apply (failed_request_leaves_controls_disabled "/collections/x" true false
           false (Some "template--1__main") (facetsContent 1 true false)
           liveResults (Some (mkCloseBtn None ["btn"] "Show 2 results"))
           (Some (mkPagination (Some "false") true 0))
           [] "a=1" true (mkCloseBtn None ["btn"] "Show 2 results")
           (mkPagination (Some "false") true 0)
           (FetchRejected NetworkError));
    [reflexivity | reflexivity | discriminate].
Defined.

Lemma rendered_response_reenables_controls_witness :
  let s := run page [Call "a=1" true; FetchSettled 0 (FetchResponse true)] in
  let s' := resumeText 0 (TextBody response) s in
  closeBtn s = Some (mkCloseBtn (Some "true") ["btn"; "is-loading"]
                       "Show 2 results") /\
  customPagination s' = Some (mkPagination (Some "false") true 1) /\
  dispatched s' = ["on:facet-filters:updated"] /\
  history s' = [mkHistoryEntry "a=1" "/collections/x?a=1"].
Proof.
  cbv zeta. split; [reflexivity|].
  apply (rendered_response_reenables_controls
           (run page [Call "a=1" true; FetchSettled 0 (FetchResponse true)])
           0 (mkInvocation 0 "/collections/x?a=1&section_id=template--1__main"
                "a=1" true AwaitText)
           response); reflexivity.
Defined.

Lemma render_keeps_results_class_witness :
  let s := run page [Call "a=1" true; FetchSettled 0 (FetchResponse true)] in
  let s' := resumeText 0 (TextBody response) s in
  option_map classes_of (querySelector (by_tag "ul") (results s'))
  = Some ["grid"; "grid--4"] /\
  classes_of (nth 0 (results s') (Text "")) = ["grid"; "grid--4"].
Proof.
  cbv zeta. split; [reflexivity|].
  apply (render_keeps_results_class
           (run page [Call "a=1" true; FetchSettled 0 (FetchResponse true)])
           0 (mkInvocation 0 "/collections/x?a=1&section_id=template--1__main"
                "a=1" true AwaitText)
           response (nth 0 liveResults (Text "")));
    try reflexivity.
  discriminate.
Defined.

Lemma show_more_click_reveals_filter_witness :
  let s' := handleFiltersClick 17 None page in
  absent (Some 17) (form s') /\
  includes "filter-color" (expanded s') = true.
Proof.
  cbv zeta.
  assert (Hnd : NoDup (uids (form page))).
  { vm_compute. repeat (constructor; [simpl; intuition discriminate|]).
    constructor. }
  destruct (show_more_click_reveals_filter page 17 None
              (Elem 17 "button" "" ["js-show-more"] false [Text "Show more"])
              (nth 0 (kids_of (colorFilter 11 true)) (Text ""))
              Hnd eq_refl eq_refl eq_refl eq_refl) as (H1 & _ & H3).
  split; [exact H1|exact H3].
Defined.

End FacetFiltersControlsWitnesses.

(** ** FacetFilters.handleFilterChange: the sort order *)

Section SortOrder.
Import FilterChange.

Lemma In_set_same name value : forall (p : URLSearchParams.t),
  In (name, value) (URLSearchParams.set name value p) /\
  (forall w, In (name, w) (URLSearchParams.set name value p) -> w = value).
Proof.
  induction p as [|[k v] p [IH1 IH2]]; simpl.
  - split; [left; reflexivity|]. intros w [E|[]]. congruence.
  - destruct (String.eqb k name) eqn:E.
    + apply String.eqb_eq in E. subst k. split; [left; reflexivity|].
      intros w [H|H]; [congruence|].
      apply In_delete in H as [_ H]. simpl in H. congruence.
    + split; [right; exact IH1|].
      intros w [H|H]; [|apply IH2, H].
      apply String.eqb_neq in E. congruence.
Qed.

Lemma filter_delete name (p : URLSearchParams.t) :
  filter (fun kv => String.eqb (fst kv) name) (URLSearchParams.delete name p)
  = [].
Proof.
  unfold URLSearchParams.delete.
  induction p as [|[k w] p IH]; simpl; [reflexivity|].
  destruct (String.eqb k name) eqn:E; simpl; [exact IH|].
  rewrite E. exact IH.
Qed.

(** X6.  The desktop sort selection wins.  With sorting enabled, a
    [change] event from the desktop [custom-select] whose detail selects the
    non-empty value [v], on a page with at least one mobile sort option:
    the parameters passed on hold [sort_by] exactly once, with the value
    [v], whatever [sort_by] values the form held, and every mobile option
    ends up checked exactly if its value is [v]. *)
Theorem desktop_sort_selection_wins :
  forall (formData : list (string * string)) (o : SortOption)
         (opts : list SortOption) (evt : Event) (v : string),
    target_tagName evt = "CUSTOM-SELECT" ->
    detail evt = Some (JStr v) ->
    v <> "" ->
    exists p,
      filterParams true formData (o :: opts) evt
      = Normal (p, map (fun x => mkSortOption (opt_value x)
                                   (String.eqb (opt_value x) v)) (o :: opts)) /\
      In ("sort_by", v) p /\
      (forall w, In ("sort_by", w) p -> w = v) /\
      List.length (filter (fun kv => String.eqb (fst kv) "sort_by") p) = 1.
Proof.
  intros fd o opts evt v Ht Hd Hv.
  unfold filterParams, syncSortBy. rewrite Ht, Hd. simpl String.eqb.
  cbv iota. cbn [js_to_string].
  set (q := URLSearchParams.set "sort_by" v fd).
  destruct (In_set_same "sort_by" v fd) as [H1 H2]. fold q in H1, H2.
  exists (removeParams (emptyParams q) q).
  assert (Hin : In ("sort_by", v) (removeParams (emptyParams q) q)).
  { apply strip_spec. split; [exact H1|].
    intros H. apply H2 in H. congruence. }
  assert (Hall : forall w, In ("sort_by", w) (removeParams (emptyParams q) q)
                           -> w = v).
  { intros w H. apply strip_spec in H as [H _]. apply H2, H. }
  split; [reflexivity|]. split; [exact Hin|]. split; [exact Hall|].
  (* [set] leaves one tuple under the name, and stripping keeps it *)
  assert (Hone : forall (p : URLSearchParams.t),
            List.length (filter (fun kv => String.eqb (fst kv) "sort_by")
                           (URLSearchParams.set "sort_by" v p)) = 1).
  { induction p as [|[k w] p IH]; simpl; [reflexivity|].
    destruct (String.eqb k "sort_by") eqn:E; simpl; rewrite E; simpl.
    - rewrite filter_delete. reflexivity.
    - exact IH. }
  assert (Hkeep : forall names (p : URLSearchParams.t),
            ~ In "sort_by" names ->
            filter (fun kv => String.eqb (fst kv) "sort_by")
              (removeParams names p)
            = filter (fun kv => String.eqb (fst kv) "sort_by") p).
  { unfold removeParams. induction names as [|n names IH]; intros p Hn;
      simpl; [reflexivity|].
    rewrite IH by (intros H; apply Hn; right; exact H).
    unfold URLSearchParams.delete.
    induction p as [|[k w] p IHp]; simpl; [reflexivity|].
    destruct (String.eqb k n) eqn:E; simpl.
    - apply String.eqb_eq in E. subst k.
      destruct (String.eqb n "sort_by") eqn:E'; [|exact IHp].
      apply String.eqb_eq in E'. subst n. exfalso. apply Hn. left.
      reflexivity.
    - destruct (String.eqb k "sort_by"); [f_equal|]; exact IHp. }
  rewrite Hkeep; [apply Hone|].
  intros H. apply In_emptyParams in H. apply H2 in H. congruence.
Qed.

(** X7.  With sorting enabled, a form without a [sort_by] field sends
    [sort_by=null]: [searchParams.get('sort_by')] is [null], no option
    supplies a value (the event is not from the desktop select, or there
    is no mobile option), and [set('sort_by', null)] stores the string
    ["null"], which is not stripped. *)
Theorem missing_sort_by_is_sent_as_null :
  forall (formData : list (string * string)) (opts : list SortOption)
         (evt : Event),
    URLSearchParams.get "sort_by" formData = None ->
    target_tagName evt <> "CUSTOM-SELECT" \/ opts = [] ->
    exists p,
      filterParams true formData opts evt = Normal (p, opts) /\
      In ("sort_by", "null") p.
Proof.
  intros fd opts evt Hg Hcase.
  unfold filterParams. rewrite Hg.
  assert (Hs : syncSortBy opts evt JNull = Normal (opts, JNull)).
  { unfold syncSortBy. destruct Hcase as [Ht| ->].
    - apply String.eqb_neq in Ht. rewrite Ht. reflexivity.
    - destruct (String.eqb _ _); reflexivity. }
  rewrite Hs. cbn [js_to_string].
  set (q := URLSearchParams.set "sort_by" "null" fd).
  destruct (In_set_same "sort_by" "null" fd) as [H1 H2]. fold q in H1, H2.
  exists (removeParams (emptyParams q) q). split; [reflexivity|].
  apply strip_spec. split; [exact H1|].
  intros H. apply H2 in H. discriminate.
Qed.

Lemma desktop_sort_selection_wins_witness :
  exists p,
    filterParams true [("sort_by", "price"); ("q", ""); ("sort_by", "")]
      [mkSortOption "title" true; mkSortOption "best" false]
      (mkEvent "CUSTOM-SELECT" (Some (JStr "best")))
    = Normal (p, [mkSortOption "title" false; mkSortOption "best" true]) /\
    In ("sort_by", "best") p /\
    (forall w, In ("sort_by", w) p -> w = "best") /\
    List.length (filter (fun kv => String.eqb (fst kv) "sort_by") p) = 1.
Proof.
  apply (desktop_sort_selection_wins
           [("sort_by", "price"); ("q", ""); ("sort_by", "")]
           (mkSortOption "title" true) [mkSortOption "best" false]
           (mkEvent "CUSTOM-SELECT" (Some (JStr "best"))) "best");
    [reflexivity | reflexivity | discriminate].
Defined.

Lemma missing_sort_by_is_sent_as_null_witness :
  exists p,
    filterParams true [("filter.v.option.color", "Red")] []
      (mkEvent "INPUT" None) = Normal (p, []) /\
    In ("sort_by", "null") p.
Proof.
  apply (missing_sort_by_is_sent_as_null
           [("filter.v.option.color", "Red")] [] (mkEvent "INPUT" None));
    [reflexivity | left; discriminate].
Defined.

End SortOrder.

(** ** CustomPagination: results, failures, the next page *)

Section PaginationMore.
Import CustomPagination.
Local Open Scope list_scope.

Lemma render_results page s :
  results (snd (render page s)) = results s \/
  results (snd (render page s)) = results s ++ page_results page.
Proof.
  unfold render, bind, get, modify, deref, ret, throw.
  destruct (last (map Some (results s)) None); simpl; auto.
  destruct (page_pagination page) as [np|]; simpl; auto.
  destruct (data_truthy (np_isMore np)); simpl.
  - destruct (pagination s) as [pg|]; simpl; auto.
    destruct (loadMoreButton s); simpl; auto.
    destruct (pg_attached pg); simpl; auto.
    destruct (np_button np); simpl; auto.
  - destruct (pagination s); simpl; auto.
    right. unfold clearTimer. simpl.
    destruct (intersectingTimer s); reflexivity.
Qed.

Lemma loadMore_results s : results (loadMore s) = results s.
Proof.
  unfold loadMore. destruct (negb (isFetching s) && _); auto.
  pose proof (start_spec s) as H.
  destruct (start s) as [[inv|e] s1].
  - destruct H as (_ & _ & _ & H & _). exact H.
  - destruct (finish_spec (Throw e, s1)) as (_ & _ & _ & -> & _).
    destruct H as (_ & H & _). exact H.
Qed.

Lemma clearTimer_results s : results (clearTimer s) = results s.
Proof. unfold clearTimer. destruct (intersectingTimer s); reflexivity. Qed.

Lemma intersections_results entries : forall s,
  results (fold_left onIntersection entries s) = results s.
Proof.
  induction entries as [|b entries IH]; intros s; simpl; auto.
  rewrite IH. unfold onIntersection. destruct b.
  - simpl. apply loadMore_results.
  - apply clearTimer_results.
Qed.

Lemma step_results s e :
  (forall v, e <> Reload v) ->
  exists l, results (step s e) = results s ++ l.
Proof.
  intros Hre.
  assert (Hsame : forall s', results s' = results s ->
                             exists l, results s' = results s ++ l).
  { intros s' ->. exists []. symmetry. apply app_nil_r. }
  unfold step. destruct (enabled s e); [|apply Hsame; reflexivity].
  destruct e.
  - apply Hsame, loadMore_results.
  - apply Hsame, loadMore_results.
  - apply Hsame, loadMore_results.
  - apply Hsame, intersections_results.
  - apply Hsame. unfold handleResultClick.
    destruct (controller s); reflexivity.
  - apply Hsame. reflexivity.
  - exfalso. apply (Hre v). reflexivity.
  - apply Hsame. unfold resumeFetch.
    destruct (find_pending c AwaitFetch s); auto.
    destruct (is_aborted c (drop_pending c s)).
    + destruct (finish_spec (Throw (AbortError ""), drop_pending c s))
        as (_ & _ & _ & -> & _). reflexivity.
    + destruct o as [e|ok status].
      * destruct (finish_spec (Throw e, drop_pending c s))
          as (_ & _ & _ & -> & _). reflexivity.
      * pose proof (checkResponse_state ok status (drop_pending c s)) as H.
        destruct (checkResponse ok status (drop_pending c s))
          as [[u|e] s1]; simpl in H; subst s1; [reflexivity|].
        destruct (finish_spec (Throw e, drop_pending c s))
          as (_ & _ & _ & -> & _). reflexivity.
  - unfold resumeText.
    destruct (find_pending c AwaitText s); [|apply Hsame; reflexivity].
    destruct (is_aborted c (drop_pending c s)).
    + apply Hsame.
      destruct (finish_spec (Throw (AbortError ""), drop_pending c s))
        as (_ & _ & _ & -> & _). reflexivity.
    + destruct o as [e|page].
      * apply Hsame.
        destruct (finish_spec (Throw e, drop_pending c s))
          as (_ & _ & _ & -> & _). reflexivity.
      * destruct (finish_spec (render page (drop_pending c s)))
          as (_ & _ & _ & -> & _).
        destruct (render_results page (drop_pending c s)) as [->| ->];
          [apply Hsame; reflexivity|].
        exists (page_results page). reflexivity.
Qed.

(** X8.  Results are only ever appended.  Whatever the sequence of calls,
    clicks, timer ticks, intersection entries, pause changes and
    settlements, as long as the element is not reloaded, the results it
    held at the start are still there, in order, at the head of its
    results. *)
Theorem results_only_grow :
  forall (tr : list Ev) (s : State),
    Forall (fun e => forall v, e <> Reload v) tr ->
    exists l, results (run s tr) = results s ++ l.
Proof.
  induction tr as [|e tr IH]; intros s Hre; simpl.
  - exists []. symmetry. apply app_nil_r.
  - inversion Hre as [|? ? He Htr]; subst.
    destruct (step_results s e He) as [l1 H1].
    destruct (IH (step s e) Htr) as [l2 H2].
    exists (l1 ++ l2).
    change (run s (e :: tr)) with (run (step s e) tr).
    rewrite H2, H1. symmetry. apply app_assoc.
Qed.

(** *** Failures *)

Lemma finish_throw e s :
  let s' := finish (Throw e, s) in
  log s' = log s ++ [e] /\
  results s' = results s /\
  ready s' = true /\
  (forall t, intersectingTimer s' = Some t -> enabled s' (Tick t) = false).
Proof.
  cbv zeta. unfold finish.
  destruct (finally_spec (catch (Throw e, s))) as (c & s1 & -> & Hr & Hb & _).
  assert (Hlog : log s1 = log (catch (Throw e, s)))
    by (unfold beyond_finally in Hb; congruence).
  assert (Hres : results s1 = results (catch (Throw e, s)))
    by (unfold beyond_finally in Hb; congruence).
  assert (Hti : intersectingTimer s1 = intersectingTimer (catch (Throw e, s)))
    by (unfold beyond_finally in Hb; congruence).
  assert (Hts : timers s1 = timers (catch (Throw e, s)))
    by (unfold beyond_finally in Hb; congruence).
  assert (Hc : log (catch (Throw e, s)) = log s ++ [e] /\
               results (catch (Throw e, s)) = results s /\
               forall t, intersectingTimer (catch (Throw e, s)) = Some t ->
                         existsb (Nat.eqb t) (timers (catch (Throw e, s)))
                         = false).
  { unfold catch, clearTimer. cbn [intersectingTimer set_log].
    destruct (intersectingTimer s) as [t0|] eqn:Et; repeat split;
      intros t Ht; cbn in Ht.
    - injection Ht as <-. cbn. apply not_in_filter_neq.
    - congruence. }
  destruct Hc as (Hc1 & Hc2 & Hc3).
  cbn [log results set_settled intersectingTimer timers enabled].
  rewrite Hlog, Hres, Hti, Hts. repeat split; auto.
Qed.

(** X9.  A click on a link inside a result cancels the page load in
    flight.  When a [loadMore] call is suspended under the controller the
    element holds, after [handleResultClick] its fetch, and the read of its
    body, reject whatever the network delivers: nothing is appended, one
    [AbortError] is logged, and the element is ready again. *)
Theorem result_click_cancels_page_load :
  forall (s : State) (c : nat) (st : Stage),
    find_pending c st s = Some (mkInvocation c st) ->
    controller s = Some c ->
    let cancelled (s' : State) :=
      results s' = results s /\
      log s' = log s ++ [AbortError ""] /\
      ready s' = true in
    (st = AwaitFetch ->
     forall o, cancelled (resumeFetch c o (handleResultClick s))) /\
    (st = AwaitText ->
     forall o, cancelled (resumeText c o (handleResultClick s))).
Proof.
  intros s c st Hf Hc cancelled.
  assert (Hab : is_aborted c (drop_pending c (handleResultClick s)) = true).
  { unfold handleResultClick. rewrite Hc. unfold is_aborted. simpl.
    rewrite Nat.eqb_refl. reflexivity. }
  assert (Hfind : find_pending c st (handleResultClick s)
                  = Some (mkInvocation c st)).
  { unfold handleResultClick. rewrite Hc. exact Hf. }
  assert (Hfin : cancelled (finish (Throw (AbortError ""),
                                    drop_pending c (handleResultClick s)))).
  { destruct (finish_throw (AbortError "")
                (drop_pending c (handleResultClick s)))
      as (Hl & Hr & Hrd & _).
    split; [|split; [|exact Hrd]].
    - rewrite Hr. unfold handleResultClick. rewrite Hc. reflexivity.
    - rewrite Hl. unfold handleResultClick. rewrite Hc. reflexivity. }
  split; intros -> o.
  - unfold resumeFetch. rewrite Hfind, Hab. exact Hfin.
  - unfold resumeText. rewrite Hfind, Hab. exact Hfin.
Qed.

(** X10.  A failed page load is logged once and stops the polling.  When
    the fetch of a suspended [loadMore] call (not aborted) rejects with
    [e], or its response is not OK: nothing is appended, exactly that error
    (or [Error(status)]) is logged, the interval timer the element holds no
    longer fires, and the element is ready again. *)
Theorem failed_page_load_stops_polling :
  forall (s : State) (c : nat) (o : FetchOutcome) (e : Err),
    find_pending c AwaitFetch s = Some (mkInvocation c AwaitFetch) ->
    is_aborted c s = false ->
    (o = FetchRejected e \/
     exists status, o = FetchResponse false status /\ e = Error status) ->
    let s' := resumeFetch c o s in
    results s' = results s /\
    log s' = log s ++ [e] /\
    (forall t, intersectingTimer s' = Some t -> enabled s' (Tick t) = false) /\
    ready s' = true.
Proof.
  intros s c o e Hf Hab Ho s'.
  assert (E : s' = finish (Throw e, drop_pending c s)).
  { unfold s', resumeFetch. rewrite Hf.
    replace (is_aborted c (drop_pending c s)) with false
      by (symmetry; exact Hab).
    destruct Ho as [->|(status & -> & ->)]; reflexivity. }
  rewrite E.
  destruct (finish_throw e (drop_pending c s)) as (Hl & Hr & Hrd & Ht).
  rewrite Hl, Hr. repeat split; auto.
Qed.

(** *** The next page *)

(** X11.  After a page with more results, the next call asks for the page
    after it.  When the body of a [loadMore] response arrives (the call not
    aborted, the element holding results, its attached pagination and a
    load-more link) and the fetched pagination has
    [data-is-more-results] and a load-more link with the URL [h]: the
    results of the page are appended, the element's load-more link is the
    new one, bound and not loading, and the next [loadMore()] (with the
    pause attribute at ['false']) requests [h]. *)
Theorem next_page_follows :
  forall (s : State) (c : nat) (page : Page) (np : NewPagination)
         (pg : PaginationEl) (old : Button) (r : string) (rs : list string)
         (h : string),
    find_pending c AwaitText s = Some (mkInvocation c AwaitText) ->
    is_aborted c s = false ->
    results s = r :: rs ->
    pagination s = Some pg -> pg_attached pg = true ->
    loadMoreButton s = Some old ->
    page_pagination page = Some np ->
    data_truthy (np_isMore np) = true ->
    np_button np = Some h ->
    data_is "false" (pause s) = true ->
    let s' := resumeText c (TextBody page) s in
    results s' = results s ++ page_results page /\
    loadMoreButton s' = Some (mkButton h false None true true) /\
    fetched (loadMore s') = fetched s ++ [h].
Proof.
  intros s c page np pg old r rs h Hf Hab Hr Hpg Hatt Hb Hp Hm Hh Hpause s'.
  assert (Hl : exists x, last (map Some (results s)) None = Some x).
  { rewrite Hr. clear. revert r. induction rs as [|y rs IH]; intros r.
    - exists r. reflexivity.
    - destruct (IH y) as [x Hx]. exists x. exact Hx. }
  destruct Hl as [x Hx].
  assert (E : s' =
    finish (Normal tt,
      set_loadMoreButton (Some (mkButton h false None true true))
        (set_results (results s ++ page_results page) (drop_pending c s)))).
  { unfold s', resumeText. rewrite Hf.
    replace (is_aborted c (drop_pending c s)) with false
      by (symmetry; exact Hab).
    f_equal.
    unfold render, bind, get, modify, deref, ret, throw.
    cbn [results drop_pending set_pending pagination loadMoreButton].
    rewrite Hx. cbn. rewrite Hp. cbn. rewrite Hm, Hpg. cbn.
    rewrite Hb. cbn. rewrite Hatt, Hh. reflexivity. }
  rewrite E. clear E.
  remember (drop_pending c s) as s0 eqn:E0.
  assert (Hpg0 : pagination s0 = Some pg) by (subst s0; exact Hpg).
  assert (Hpause0 : pause s0 = pause s) by (subst s0; reflexivity).
  assert (Hfetched0 : fetched s0 = fetched s) by (subst s0; reflexivity).
  clear E0.
  unfold finish, catch, finally, bind, get, modify, deref, ret, throw,
    isTraditional.
  cbn. rewrite Hpg0. cbn.
  destruct (data_is "traditional" (pg_style pg)); cbn;
    (split; [reflexivity|]); (split; [reflexivity|]);
    unfold loadMore; cbn; rewrite Hpause0, Hpause; cbn;
    unfold start, bind, get, modify, deref, ret, throw, isTraditional;
    cbn; rewrite ?Hpg0; cbn;
    destruct (data_is "traditional" (pg_style pg)); cbn;
    rewrite Hfetched0; reflexivity.
Qed.

End PaginationMore.

Section PaginationMoreWitnesses.
Import CustomPagination Examples.

Lemma results_only_grow_witness :
  exists l,
    results (run paginated [LoadMore;
                            FetchSettled 0 (FetchResponse true "200");
                            TextSettled 0 (TextBody lastPage); LoadMore])
    = (results paginated ++ l)%list.
Proof.
  apply (results_only_grow
           [LoadMore; FetchSettled 0 (FetchResponse true "200");
            TextSettled 0 (TextBody lastPage); LoadMore] paginated).
  repeat constructor; discriminate.
Defined.

Lemma result_click_cancels_page_load_witness :
  let s := run paginated [LoadMore] in
  controller s = Some 0 /\
  results (resumeFetch 0 (FetchResponse true "200") (handleResultClick s))
  = ["<li>Shirt</li>"; "<li>Hat</li>"] /\
  log (resumeFetch 0 (FetchResponse true "200") (handleResultClick s))
  = [AbortError ""].
Proof.
  cbv zeta. split; [reflexivity|].
  destruct (result_click_cancels_page_load (run paginated [LoadMore]) 0
              AwaitFetch eq_refl eq_refl) as [H _].
  destruct (H eq_refl (FetchResponse true "200")) as (H1 & H2 & _).
  split; [exact H1|exact H2].
Defined.

Lemma failed_page_load_stops_polling_witness :
  let s := run paginated [Intersection [true]] in
  let s' := resumeFetch 0 (FetchResponse false "500") s in
  timers s = [1] /\ intersectingTimer s = Some 1 /\
  log s' = [Error "500"] /\
  enabled s' (Tick 1) = false.
Proof.
  cbv zeta. split; [reflexivity|]. split; [reflexivity|].
  destruct (failed_page_load_stops_polling
              (run paginated [Intersection [true]]) 0
              (FetchResponse false "500") (Error "500") eq_refl eq_refl
              (or_intror (ex_intro _ "500" (conj eq_refl eq_refl))))
    as (_ & H2 & H3 & _).
  split; [exact H2|]. apply H3. reflexivity.
Defined.

Lemma next_page_follows_witness :
  let s := run paginated [LoadMore;
                          FetchSettled 0 (FetchResponse true "200")] in
  let page := mkPage ["<li>Scarf</li>"]
                (Some (mkNewPagination (Some "true")
                         (Some "/collections/x?page=3"))) in
  let s' := resumeText 0 (TextBody page) s in
  results s' = ["<li>Shirt</li>"; "<li>Hat</li>"; "<li>Scarf</li>"] /\
  fetched (loadMore s')
  = ["/collections/x?page=2"; "/collections/x?page=3"].
Proof.
  cbv zeta.
  destruct (next_page_follows
              (run paginated [LoadMore;
                              FetchSettled 0 (FetchResponse true "200")])
              0
              (mkPage ["<li>Scarf</li>"]
                 (Some (mkNewPagination (Some "true")
                          (Some "/collections/x?page=3"))))
              (mkNewPagination (Some "true") (Some "/collections/x?page=3"))
              (mkPaginationEl (Some "modern") (Some "true") false true)
              (mkButton "/collections/x?page=2" true (Some "true") true true)
              "<li>Shirt</li>" ["<li>Hat</li>"] "/collections/x?page=3"
              eq_refl eq_refl eq_refl eq_refl eq_refl eq_refl eq_refl
              eq_refl eq_refl eq_refl) as (H1 & _ & H3).
  split; [exact H1|exact H3].
Defined.

End PaginationMoreWitnesses.

(** ** CartDrawer: rendering *)

Section CartDrawerMore.
Import Dom CartDrawer.
Local Open Scope list_scope.

(** X12.  A render error escapes [refresh].  When the sections were
    fetched and parsed but [renderContents] then throws (a script fails to
    load, or a section lacks the element to take), the promise of
    [refresh] is fulfilled all the same, nothing is logged and no
    [on:cart:error] event is dispatched: [renderContents] is called
    without [await], so its rejection is handled by nobody. *)
Theorem render_failure_escapes_refresh :
  forall (env : Env) (d : bool) (s s1 : State) (i : string)
         (sections : string -> option forest) (e : Err),
    env_cartItems env = None \/ d = true ->
    env_section env = Some i ->
    env_fetch env = Normal tt ->
    env_json env = Normal sections ->
    renderContents env sections s = (Throw e, s1) ->
    fst (refresh env d s) = Normal tt /\
    console (snd (refresh env d s)) = console s1 /\
    dispatched (snd (refresh env d s)) = dispatched s1 /\
    unhandled (snd (refresh env d s)) = unhandled s1 ++ [e].
Proof.
  intros env d s s1 i sections e Hc Hs Hf Hj Hr.
  assert (E : refresh_try env d s =
              (Normal tt,
               mkState (errorMsg s1) (scriptsLoaded s1) (drawerHtml s1)
                 (bubbleHtml s1) (console s1) (dispatched s1)
                 (unhandled s1 ++ [e]))).
  { unfold refresh_try, getSectionsToRender.
    destruct Hc as [Hc| ->].
    - rewrite Hc, Hs, Hf, Hj, Hr. destruct d; reflexivity.
    - rewrite Hs, Hf, Hj, Hr. destruct (env_cartItems env); reflexivity. }
  unfold refresh. rewrite E. repeat split.
Qed.

(** [s.replace(pat, '')] on a string that starts with [pat]. *)
Lemma prefix_app pat s : String.prefix pat (pat ++ s)%string = true.
Proof.
  induction pat as [|c pat IH]; simpl; [destruct s; reflexivity|].
  destruct (Ascii.ascii_dec c c); [exact IH|contradiction].
Qed.

Lemma substring_all s : String.substring 0 (String.length s) s = s.
Proof. induction s as [|c s IH]; simpl; [reflexivity|]. rewrite IH. reflexivity. Qed.

Lemma substring_skip pat s n :
  String.substring (String.length pat) n (pat ++ s)%string
  = String.substring 0 n s.
Proof. induction pat as [|c pat IH]; simpl; [reflexivity|exact IH]. Qed.

Lemma length_app_string (a b : string) :
  String.length (a ++ b)%string = String.length a + String.length b.
Proof. induction a as [|c a IH]; simpl; [reflexivity|]. rewrite IH. reflexivity. Qed.

Lemma remove_first_eq pat s :
  remove_first pat s
  = if String.prefix pat s
    then String.substring (String.length pat)
           (String.length s - String.length pat) s
    else match s with
         | EmptyString => EmptyString
         | String c r => String c (remove_first pat r)
         end.
Proof. destruct s; reflexivity. Qed.

Lemma remove_first_prefix pat s :
  remove_first pat (pat ++ s)%string = s.
Proof.
  rewrite remove_first_eq, prefix_app, substring_skip, length_app_string.
  replace (String.length pat + String.length s - String.length pat)
    with (String.length s) by lia.
  apply substring_all.
Qed.

(** X13.  The section to fetch is the id of the drawer's section wrapper
    without its [shopify-section-] prefix: for a wrapper with the id
    [shopify-section-<name>], whatever [<name>] is (also one that contains
    the prefix again), [getSectionsToRender] asks for the section
    [<name>], to be rendered into [#cart-drawer], and for the
    [cart-icon-bubble] section. *)
Theorem section_name_is_wrapper_id_without_prefix :
  forall (env : Env) (name : string),
    env_section env = Some ("shopify-section-" ++ name)%string ->
    getSectionsToRender env
    = Normal [mkSection "cart-drawer" name (by_tag "cart-drawer");
              mkSection "cart-icon-bubble" "cart-icon-bubble"
                (by_class "shopify-section")].
Proof.
  intros env name H. unfold getSectionsToRender. rewrite H.
  rewrite remove_first_prefix. reflexivity.
Qed.

Lemma renderSection_scripts sections sec s :
  scriptsLoaded (snd (renderSection sections sec s)) = scriptsLoaded s.
Proof.
  unfold renderSection.
  destruct (String.eqb (sec_id sec) "cart-drawer");
    [destruct (drawerHtml s)|destruct (bubbleHtml s)]; try reflexivity;
    destruct (getElementHTML _ _); reflexivity.
Qed.

Lemma renderSections_scripts sections secs : forall s,
  scriptsLoaded (snd (renderSections sections secs s)) = scriptsLoaded s.
Proof.
  induction secs as [|sec secs IH]; intros s; simpl; [reflexivity|].
  pose proof (renderSection_scripts sections sec s) as H.
  destruct (renderSection sections sec s) as [[u|e] s1]; simpl in H.
  - rewrite IH. exact H.
  - exact H.
Qed.

(** X14.  The cart scripts are loaded once.  After a [renderContents]
    whose script loading succeeded (whether or not the rendering that
    follows throws), every later [renderContents] on the drawer skips the
    loading: it runs the same whether the scripts could still be loaded or
    not. *)
Theorem cart_scripts_are_loaded_once :
  forall (env env' : Env) (sections sections' : string -> option forest)
         (s s1 : State) (r : Completion unit) (how : Completion unit),
    env_scripts env = Normal tt ->
    renderContents env sections s = (r, s1) ->
    env' = mkEnv (env_cartItems env) (env_section env) (env_fetch env)
             (env_json env) how ->
    scriptsLoaded s1 = true /\
    renderContents env' sections' s1 = renderContents env sections' s1.
Proof.
  intros env env' sections sections' s s1 r how Hs Hr ->.
  assert (H1 : scriptsLoaded s1 = true).
  { apply (f_equal snd) in Hr. simpl in Hr. subst s1.
    unfold renderContents. rewrite Hs.
    destruct (scriptsLoaded s) eqn:El;
      destruct (getSectionsToRender env); simpl;
      rewrite ?renderSections_scripts; auto. }
  split; [exact H1|].
  unfold renderContents, getSectionsToRender. rewrite H1. reflexivity.
Qed.

End CartDrawerMore.

Section CartDrawerMoreWitnesses.
Import Dom CartDrawer Examples.

(** A cart section whose markup has no [cart-drawer] element. *)
Lemma render_failure_escapes_refresh_witness :
  let env := mkEnv None (Some "shopify-section-cart-drawer") (Normal tt)
               (Normal (fun _ => Some [Text "sold out"])) (Normal tt) in
  fst (refresh env false drawer) = Normal tt /\
  dispatched (snd (refresh env false drawer)) = [] /\
  unhandled (snd (refresh env false drawer))
  = [TypeError "querySelector(selector) is null"].
Proof.
  cbv zeta.
  destruct (render_failure_escapes_refresh
              (mkEnv None (Some "shopify-section-cart-drawer") (Normal tt)
                 (Normal (fun _ => Some [Text "sold out"])) (Normal tt))
              false drawer
              (mkState None true (Some [Text "old drawer"])
                 (Some [Text "old bubble"]) [] [] [])
              "shopify-section-cart-drawer"
              (fun _ => Some [Text "sold out"])
              (TypeError "querySelector(selector) is null")
              (or_introl eq_refl) eq_refl eq_refl eq_refl eq_refl)
    as (H1 & _ & H3 & H4).
  split; [exact H1|]. split; [exact H3|exact H4].
Defined.

Lemma section_name_is_wrapper_id_without_prefix_witness :
  getSectionsToRender
    (mkEnv None (Some "shopify-section-shopify-section-x") (Normal tt)
       (Normal (fun _ => None)) (Normal tt))
  = Normal [mkSection "cart-drawer" "shopify-section-x"
              (by_tag "cart-drawer");
            mkSection "cart-icon-bubble" "cart-icon-bubble"
              (by_class "shopify-section")].
Proof.
  apply (section_name_is_wrapper_id_without_prefix
           (mkEnv None (Some "shopify-section-shopify-section-x") (Normal tt)
              (Normal (fun _ => None)) (Normal tt))
           "shopify-section-x").
  reflexivity.
Defined.

Lemma cart_scripts_are_loaded_once_witness :
  let env := mkEnv None (Some "shopify-section-cart-drawer") (Normal tt)
               (Normal (fun _ => None)) (Normal tt) in
  let env' := mkEnv None (Some "shopify-section-cart-drawer") (Normal tt)
                (Normal (fun _ => None)) (Throw NetworkError) in
  let s1 := snd (renderContents env (fun _ => None) drawer) in
  scriptsLoaded s1 = true /\
  renderContents env' (fun _ => None) s1
  = renderContents env (fun _ => None) s1.
Proof.
  cbv zeta.
  apply (cart_scripts_are_loaded_once
           (mkEnv None (Some "shopify-section-cart-drawer") (Normal tt)
              (Normal (fun _ => None)) (Normal tt))
           _ (fun _ => None) (fun _ => None) drawer _
           (fst (renderContents
                   (mkEnv None (Some "shopify-section-cart-drawer")
                      (Normal tt) (Normal (fun _ => None)) (Normal tt))
                   (fun _ => None) drawer))
           (Throw NetworkError));
    reflexivity.
Defined.

End CartDrawerMoreWitnesses.

(** ** debounce *)

Section DebounceProps.
Import Debounce.
Local Open Scope list_scope.

Variable A : Type.
Variable wait : nat.

Lemma scheduled_init time : scheduled wait (init (A:=A) time).
Proof.
  unfold scheduled, init. simpl. repeat split; try contradiction.
  left. reflexivity.
Qed.

Lemma clearTimeout_scheduled (s : State A) :
  scheduled wait s -> clearTimeout (t s) (timers s) = [].
Proof.
  intros (_ & _ & [->|(tm & l & tau & -> & -> & _)]).
  - destruct (t s); reflexivity.
  - simpl. rewrite Nat.eqb_refl. reflexivity.
Qed.

Lemma invoke_scheduled args (s : State A) :
  scheduled wait s -> scheduled wait (invoke wait args s).
Proof.
  intros Hs. pose proof (clearTimeout_scheduled s Hs) as Hc.
  destruct Hs as (H1 & H2 & H3).
  unfold scheduled, invoke. cbn [timers next_id now invocations t].
  rewrite Hc. simpl. split; [|split].
  - intros tm [<-|[]]. simpl. lia.
  - intros tau a Hin. apply in_app_or in Hin as [Hin|[E|[]]].
    + apply (H2 tau a Hin).
    + injection E as <- _. lia.
  - right. exists (mkTimer (next_id s) (now s + wait) args),
      (invocations s), (now s). repeat split.
Qed.

Lemma fire_scheduled id (s : State A) :
  scheduled wait s -> scheduled wait (fire id s).
Proof.
  intros Hs. unfold fire.
  destruct (find _ (timers s)) as [tm|] eqn:Ef; [|exact Hs].
  destruct (tm_due tm <=? now s); [|exact Hs].
  destruct Hs as (H1 & H2 & H3).
  unfold scheduled. cbn [timers next_id now invocations t].
  split; [|split; [exact H2|]].
  - intros x Hx. apply filter_In in Hx as [Hx _]. apply H1, Hx.
  - left. destruct H3 as [E|(tm0 & l & tau & E & _)]; rewrite E in *.
    + reflexivity.
    + simpl in Ef. destruct (tm_id tm0 =? id) eqn:Eid; [|discriminate].
      cbn [filter]. rewrite Eid. reflexivity.
Qed.

Lemma advance_scheduled d (s : State A) :
  scheduled wait s -> scheduled wait (advance d s).
Proof.
  intros (H1 & H2 & H3). unfold scheduled, advance.
  cbn [timers next_id now invocations t]. split; [exact H1|].
  split; [|exact H3].
  intros tau a Hin. specialize (H2 tau a Hin). lia.
Qed.

Lemma run_scheduled tr : forall (s : State A),
  scheduled wait s -> scheduled wait (run wait s tr).
Proof.
  induction tr as [|e tr IH]; intros s Hs; simpl; auto.
  apply IH. destruct e; simpl.
  - apply invoke_scheduled, Hs.
  - apply advance_scheduled, Hs.
  - apply fire_scheduled, Hs.
Qed.

(** X15.  A debounced function runs only with the latest arguments, and
    only after the wait.  Whatever the invocations, the passing of time
    and the timers the browser ran before: at most one timer is pending,
    and when the browser runs a timer, either nothing happens (no such
    timer, or not yet due) or [fn] is called once, with the arguments of
    the most recent invocation, at least [wait] after that invocation,
    and no timer is left. *)
Theorem debounced_call_is_latest_and_late :
  forall (time : nat) (tr : list (Ev A)) (id : nat),
    let s := run wait (init time) tr in
    List.length (timers s) <= 1 /\
    (fire id s = s \/
     exists l tau a,
       invocations s = l ++ [(tau, a)] /\
       tau + wait <= now s /\
       calls (fire id s) = calls s ++ [(now s, a)] /\
       timers (fire id s) = []).
Proof.
  intros time tr id s.
  assert (Hs : scheduled wait s) by (apply run_scheduled, scheduled_init).
  destruct Hs as (H1 & H2 & [E|(tm & l & tau & E & Ht & Hi & Hd)]).
  - rewrite E. split; [simpl; lia|]. left. unfold fire. rewrite E.
    reflexivity.
  - rewrite E. split; [simpl; lia|]. unfold fire. rewrite E. simpl.
    destruct (tm_id tm =? id) eqn:Eid; [|left; reflexivity].
    destruct (tm_due tm <=? now s) eqn:Edue; [|left; reflexivity].
    right. exists l, tau, (tm_args tm).
    apply Nat.leb_le in Edue. simpl. repeat split; auto. lia.
Qed.

(** The state during a burst. *)
Lemma fires_early ids : forall (s : State A),
  (forall tm, In tm (timers s) -> now s < tm_due tm) ->
  fold_left (step wait) (map (Fire (A:=A)) ids) s = s.
Proof.
  induction ids as [|id ids IH]; intros s Hs; simpl; [reflexivity|].
  assert (E : fire id s = s).
  { unfold fire. destruct (find _ (timers s)) as [tm|] eqn:Ef; auto.
    apply find_some in Ef as [Hin _]. specialize (Hs tm Hin).
    apply Nat.leb_gt in Hs. rewrite Hs. reflexivity. }
  rewrite E. apply IH, Hs.
Qed.

Lemma burst_state rounds : forall (s : State A),
  scheduled wait s ->
  Forall (fun r => snd (fst r) < wait) rounds ->
  (forall tm, In tm (timers s) -> now s < tm_due tm) ->
  let s' := run wait s (burst rounds) in
  calls s' = calls s /\
  (forall tm, In tm (timers s') -> now s' < tm_due tm) /\
  (forall a d ids rest, rounds = rest ++ [(a, d, ids)] ->
     exists id tau,
       timers s' = [mkTimer id (tau + wait) a] /\ now s' = tau + d).
Proof.
  induction rounds as [|[[a d] ids] rounds IH]; intros s Hs Hr Hearly;
    cbv zeta.
  - simpl. repeat split; auto.
    intros a d ids rest E. destruct rest; discriminate.
  - inversion Hr as [|? ? Hd Hrest]; subst. simpl in Hd.
    cbn [burst]. unfold run. rewrite fold_left_app.
    cbn [fold_left step].
    set (s1 := advance d (invoke wait a s)).
    assert (Hs1 : scheduled wait s1)
      by (apply advance_scheduled, invoke_scheduled, Hs).
    assert (Ht1 : timers s1 = [mkTimer (next_id s) (now s + wait) a]).
    { unfold s1, advance, invoke. cbn [timers].
      rewrite (clearTimeout_scheduled s Hs). reflexivity. }
    assert (Hearly1 : forall tm, In tm (timers s1) -> now s1 < tm_due tm).
    { rewrite Ht1. intros tm [<-|[]]. unfold s1. simpl. lia. }
    rewrite (fires_early ids s1 Hearly1).
    destruct (IH s1 Hs1 Hrest Hearly1) as (Hc & He & Hl).
    fold (run wait s1 (burst rounds)).
    split; [rewrite Hc; reflexivity|]. split; [exact He|].
    intros a' d' ids' rest E.
    destruct rest as [|r rest].
    + simpl in E. injection E as E1 E2 E3 E4. subst a' d' ids' rounds.
      exists (next_id s), (now s). simpl. split; [exact Ht1|reflexivity].
    + simpl in E. injection E as _ E.
      apply (Hl a' d' ids' rest E).
Qed.

(** X16.  As long as it keeps being invoked, a debounced function is not
    triggered.  In a series of invocations in which each is followed by
    less than [wait] of quiet before the next, [fn] is never called,
    however often the browser looks at its timers; once the last
    invocation is followed by [wait] of quiet, the one pending timer calls
    [fn], with the arguments of that last invocation. *)
Theorem burst_triggers_once_after_quiet :
  forall (time : nat) (rounds : list (A * nat * list nat))
         (a : A) (d : nat) (ids : list nat) (d' : nat),
    Forall (fun r => snd (fst r) < wait) (rounds ++ [(a, d, ids)]) ->
    wait <= d + d' ->
    let s := run wait (init time) (burst (rounds ++ [(a, d, ids)])) in
    calls s = [] /\
    exists id,
      t s = Some id /\
      calls (fire id (advance d' s)) = [(now s + d', a)].
Proof.
  intros time rounds a d ids d' Hr Hw s.
  destruct (burst_state (rounds ++ [(a, d, ids)]) (init time)
              (scheduled_init time) Hr) as (Hc & _ & Hl).
  { simpl. contradiction. }
  fold s in Hc, Hl. split; [exact Hc|].
  destruct (Hl a d ids rounds eq_refl) as (id & tau & Ht & Hn).
  assert (Hs : scheduled wait s) by (apply run_scheduled, scheduled_init).
  destruct Hs as (_ & _ & [E|(tm & l & tau' & E & Hts & _)]);
    [rewrite E in Ht; discriminate|].
  rewrite Ht in E. injection E as <-. simpl in Hts.
  exists id. split; [exact Hts|].
  unfold fire, advance. cbn [timers now calls]. rewrite Ht.
  cbn [find tm_id tm_due tm_args]. rewrite Nat.eqb_refl.
  assert (Hle : (tau + wait <=? now s + d') = true)
    by (apply Nat.leb_le; lia).
  simpl. rewrite Hle. simpl. rewrite Hc. reflexivity.
Qed.

End DebounceProps.

Section DebounceWitnesses.
Import Debounce.

(** Three keystrokes 100 ms apart on a handler debounced by 500 ms. *)
Lemma burst_triggers_once_after_quiet_witness :
  let s := run 500 (init 0)
             (burst [("r", 100, [1]); ("re", 100, [2]);
                            ("red", 100, [3; 1])]) in
  calls s = [] /\
  exists id,
    t s = Some id /\
    calls (fire id (advance 400 s)) = [(700, "red")].
Proof.
  apply (burst_triggers_once_after_quiet string 500 0
           [("r", 100, [1]); ("re", 100, [2])] "red" 100 [3; 1] 400).
  - repeat constructor.
  - simpl. lia.
Defined.

End DebounceWitnesses.

(** ** ProductInventory *)

Section InventoryProps.
Import ProductInventory.

Lemma updateInventory_hidden d st count avail policy s :
  hidden (snd (updateInventory d st count avail policy s))
  = negb (visible d (levelOf d count avail policy)).
Proof.
  unfold updateInventory.
  destruct (visible d (levelOf d count avail policy)); [|reflexivity].
  rewrite bind_modify, bind_get. cbn [inventoryNotice].
  destruct (inventoryNotice s).
  - rewrite bind_deref_some, bind_modify. unfold modify. cbn.
    destruct (urgencyMessage s); reflexivity.
  - rewrite bind_deref_none. reflexivity.
Qed.

(** X17.  With [data-show-notice="low"] the notice is shown for low stock
    only: after [updateInventory] the element is visible exactly if the
    count is a positive number that does not exceed the very-low or the
    low threshold; for a count of zero or less, for [NaN] and for a
    backordered, in-stock or sold-out variant it is hidden, whatever the
    other settings. *)
Theorem low_notice_shows_only_low_stock :
  forall (d : Dataset) (st : Strings) (count : JsNum.Num) (avail : bool)
         (policy : option string) (s : State),
    showNotice d = Some "low" ->
    hidden (snd (updateInventory d st count avail policy s))
    = negb (JsNum.lt (Some 0%Z) count &&
            (JsNum.le count (thresholdVeryLow d) ||
             JsNum.le count (thresholdLow d))).
Proof.
  intros d st count avail policy s Hn.
  rewrite updateInventory_hidden. f_equal.
  unfold visible, levelOf. rewrite Hn. cbn [data_is String.eqb Ascii.eqb
    Bool.eqb orb andb].
  destruct count as [n|]; [|reflexivity].
  cbn [JsNum.le JsNum.lt].
  destruct (Z.leb n 0) eqn:E0.
  - assert (Hlt : Z.ltb 0 n = false)
      by (apply Z.ltb_ge; apply Z.leb_le; exact E0).
    rewrite Hlt.
    destruct (data_is "continue" policy), avail;
      destruct (showNoStockBackordered d) as [v|]; try reflexivity;
      cbn; destruct (String.eqb v "false"); reflexivity.
  - assert (Hlt : Z.ltb 0 n = true)
      by (apply Z.ltb_lt; apply Z.leb_gt; exact E0).
    rewrite Hlt.
    destruct (thresholdVeryLow d) as [vl|], (thresholdLow d) as [lo|];
      cbn; repeat match goal with
                  | |- context [Z.leb ?a ?b] => destruct (Z.leb a b)
                  end; reflexivity.
Qed.

(** X18.  With [data-show-count="always"] a sold-out variant reads "only
    0 left".  When the notice is always shown with its count, for a count
    of zero or less (a safe integer) on a variant that is not available
    and does not continue selling: the level is [none], and the notice is
    the [onlyXLeft] string with the count in it, not the [noStock]
    string. *)
Theorem sold_out_notice_shows_count :
  forall (d : Dataset) (st : Strings) (n : Z) (policy : option string)
         (s : State) (old : string),
    showNotice d = Some "always" ->
    showCount d = Some "always" ->
    (n <= 0)%Z ->
    JsNum.isSafeInteger n = true ->
    policy <> Some "continue" ->
    inventoryNotice s = Some old ->
    let r := updateInventory d st (Some n) false policy s in
    fst r = Normal tt /\
    hidden (snd r) = false /\
    inventoryLevel (snd r) = Some "none" /\
    inventoryNotice (snd r)
    = Some (replace_first "[quantity]" (JsNum.toString (Some n))
              (onlyXLeft st)).
Proof.
  intros d st n policy s old Hn Hc Hle _ Hp Ho.
  assert (Hl : levelOf d (Some n) false policy = NoStock).
  { unfold levelOf. cbn [JsNum.le].
    apply Z.leb_le in Hle. rewrite Hle.
    destruct policy as [p|]; cbn; [|reflexivity].
    destruct (String.eqb p "continue") eqn:E; [|reflexivity].
    apply String.eqb_eq in E. congruence. }
  cbv zeta. unfold updateInventory. rewrite Hl.
  unfold visible, noticeText. rewrite Hn, Hc. cbn.
  rewrite Ho. cbn. destruct (urgencyMessage s); repeat split.
Qed.

(** X19.  A variant that the inventory data does not list makes
    [handleVariantChange] throw before it has written anything; and when
    the picker reports no variant, an element with its notice child ends
    up hidden, whatever its settings say about showing it. *)
Theorem variant_change_edge_cases :
  forall (d : Dataset) (st : Strings) (variantInventory : list Variant)
         (s : State),
    (forall i,
        (forall v, In v variantInventory -> v_id v <> i) ->
        handleVariantChange d st variantInventory (Some i) s
        = (Throw (TypeError "inventory is undefined"), s)) /\
    (forall old,
        inventoryNotice s = Some old ->
        fst (handleVariantChange d st variantInventory None s) = Normal tt /\
        hidden (snd (handleVariantChange d st variantInventory None s))
        = true).
Proof.
  intros d st vi s. split.
  - intros i Hi. unfold handleVariantChange.
    assert (E : find (fun v => Z.eqb (v_id v) i) vi = None).
    { destruct (find _ vi) as [v|] eqn:Ef; [|reflexivity].
      apply find_some in Ef as [Hin Hv]. apply Z.eqb_eq in Hv.
      exfalso. apply (Hi v Hin Hv). }
    rewrite E. apply bind_deref_none.
  - intros old Ho. unfold handleVariantChange, updateInventory.
    destruct (visible d _).
    + unfold bind, modify, get, deref, ret. cbn. rewrite Ho. cbn.
      destruct (urgencyMessage s); split; reflexivity.
    + split; reflexivity.
Qed.

End InventoryProps.

Section InventoryWitnesses.
Import ProductInventory.

Lemma sold_out_notice_shows_count_witness :
  let d := mkDataset (Some 2%Z) (Some 5%Z) (Some "always") None
             (Some "always") None None None None None in
  let st := mkStrings "Only [quantity] left" "Very low stock" "Low stock"
              "In stock" "Sold out" in
  let r := updateInventory d st (Some 0%Z) false (Some "deny")
             (mkState true None (Some "") None) in
  inventoryLevel (snd r) = Some "none" /\
  inventoryNotice (snd r) = Some "Only 0 left".
Proof.
  cbv zeta.
  destruct (sold_out_notice_shows_count
              (mkDataset (Some 2%Z) (Some 5%Z) (Some "always") None
                 (Some "always") None None None None None)
              (mkStrings "Only [quantity] left" "Very low stock" "Low stock"
                 "In stock" "Sold out")
              0%Z (Some "deny") (mkState true None (Some "") None) ""
              eq_refl eq_refl (Z.le_refl 0) eq_refl
              ltac:(discriminate) eq_refl) as (_ & _ & H3 & H4).
  split; [exact H3|exact H4].
Defined.

Lemma low_notice_shows_only_low_stock_witness :
  let d := mkDataset (Some 2%Z) (Some 5%Z) (Some "low") None None
             None None None None None in
  let st := mkStrings "Only [quantity] left" "Very low stock" "Low stock"
              "In stock" "Sold out" in
  let s := mkState true None (Some "") None in
  hidden (snd (updateInventory d st (Some 4%Z) true None s)) = false /\
  hidden (snd (updateInventory d st (Some 0%Z) false None s)) = true /\
  hidden (snd (updateInventory d st None true None s)) = true.
Proof.
  cbv zeta. split; [|split];
    rewrite (low_notice_shows_only_low_stock
               (mkDataset (Some 2%Z) (Some 5%Z) (Some "low") None None
                  None None None None None) _ _ _ _ _ eq_refl);
    reflexivity.
Defined.

Lemma variant_change_edge_cases_witness :
  let d := mkDataset (Some 2%Z) (Some 5%Z) (Some "always") None None
             None None None None None in
  let st := mkStrings "Only [quantity] left" "Very low stock" "Low stock"
              "In stock" "Sold out" in
  let s := mkState false (Some "low") (Some "Low stock") None in
  handleVariantChange d st [mkVariant 7%Z (Some 3%Z) true None] (Some 8%Z) s
  = (Throw (TypeError "inventory is undefined"), s) /\
  hidden (snd (handleVariantChange d st [mkVariant 7%Z (Some 3%Z) true None]
                 None s)) = true.
Proof.
  cbv zeta.
  destruct (variant_change_edge_cases
              (mkDataset (Some 2%Z) (Some 5%Z) (Some "always") None None
                 None None None None None)
              (mkStrings "Only [quantity] left" "Very low stock" "Low stock"
                 "In stock" "Sold out")
              [mkVariant 7%Z (Some 3%Z) true None]
              (mkState false (Some "low") (Some "Low stock") None))
    as [H1 H2].
  split.
  - apply H1. intros v [<-|[]]. discriminate.
  - apply (H2 "Low stock" eq_refl).
Defined.

End InventoryWitnesses.

(** ** Numbers read back, and the shaking cart icon *)

Section NumberRoundTrip.








End NumberRoundTrip.

Section CartShake.
Import StoreHeader.








(** X21.  Without a readable frequency the icon shakes on every page.
    When [data-shake-frequency] is missing or does not start with a
    number, [parseInt] gives [NaN], the comparison is false whatever is
    stored, the class stays and the stored count is reset to [0]. *)
Theorem unreadable_frequency_always_shakes :
  forall (attr : option string) (st : Storage),
    JsNum.parseInt (match attr with Some v => v | None => "undefined" end)
    = None ->
    snd (countPage attr st) = true /\
    storage_get "shake-page-count" (fst (countPage attr st)) = Some "0" /\
    (forall k, k <> "cc-shake-page-count" ->
               getItem k (fst (countPage attr st)) = getItem k st).
Proof.
  intros attr st Hp. unfold countPage. rewrite Hp.
  assert (Hlt : forall a, JsNum.lt a None = false) by (intros [z|]; reflexivity).
  rewrite Hlt. cbn [fst snd]. split; [reflexivity|]. split.
  - unfold storage_get, storage_set, getItem, setItem.
    rewrite String.eqb_refl. reflexivity.
  - intros k Hk. unfold storage_set, getItem, setItem.
    apply String.eqb_neq in Hk.
    change ("cc-" ++ "shake-page-count") with "cc-shake-page-count".
    rewrite Hk. reflexivity.
Qed.

Lemma unreadable_frequency_always_shakes_witness :
  let st : Storage :=
    fun k => if String.eqb k "cc-shake-page-count" then Some "7" else None in
  JsNum.parseInt "undefined" = None /\
  snd (countPage None st) = true /\
  storage_get "shake-page-count" (fst (countPage None st)) = Some "0".
Proof.
  cbv zeta. split; [reflexivity|].
  destruct (unreadable_frequency_always_shakes None
              (fun k => if String.eqb k "cc-shake-page-count"
                        then Some "7" else None) eq_refl) as (H1 & H2 & _).
  split; [exact H1|exact H2].
Defined.

End CartShake.


